(** * Conversation Search v2: ingestion, chunking and indexing pipeline

    A shallow embedding of the TypeScript services
      - [ChunkManager]      (src/services/ChunkManager.ts)
      - [JsonlParser]       (src/services/JsonlParser.ts)
      - [SessionRepository], [MessageRepository], [ProjectRepository]
      - [ImportService]     (src/services/ImportService.ts)
      - [EmbeddingService]  (src/services/EmbeddingService.ts)
      - [ChunkIndexer]      (src/services/ChunkIndexer.ts)
      - [TagRepository]     (src/repositories/TagRepository.ts)
      - [MigrationRunner]   (src/database/migrations/runner.ts)
      - [VectorStore]       (src/services/VectorStore.ts)
    and the properties of the specification stated over them.

    Conventions.
      - A JavaScript string is a [string]; each character stands for one
        UTF-16 code unit below 256.
      - [null] / [undefined] are [None].
      - A JavaScript exception is an [Err] outcome of the [outcome] type.
      - Tables of the SQLite store are a [gmap] (primary key) or a [list]
        (row order). *)

From Stdlib Require Import ZArith QArith Ascii String List Lia Bool OrderedTypeEx.
From stdpp Require Import base option list gmap strings pretty.

Set Warnings "-abstract-large-number".

Local Open Scope Z_scope.
Local Open Scope nat_scope.

(** ** JavaScript string primitives *)

Module JS.

(** [s === t] on strings. *)
Definition streq (s t : string) : bool := String.eqb s t.

(** Truthiness of a string: the empty string is falsy. *)
Definition truthy (s : string) : bool := negb (streq s "").

(** [a || b] on strings. *)
Definition or_else (a b : string) : string := if truthy a then a else b.

(** Truthiness of an optional string ([undefined], [null] and [""] are
    falsy). *)
Definition otruthy (o : option string) : bool :=
  match o with Some s => truthy s | None => false end.

Definition code (c : ascii) : nat := nat_of_ascii c.

(** The regular expression class [\w] (no [u] flag): [A-Za-z0-9_]. *)
Definition is_word_char (c : ascii) : bool :=
  let n := code c in
  ((65 <=? n) && (n <=? 90)) || ((97 <=? n) && (n <=? 122))
  || ((48 <=? n) && (n <=? 57)) || (n =? 95).

(** White space removed by [String.prototype.trim], among the code units
    below 256: TAB, LF, VT, FF, CR, SPACE and NBSP. *)
Definition is_space (c : ascii) : bool :=
  let n := code c in
  ((9 <=? n) && (n <=? 13)) || (n =? 32) || (n =? 160).

Definition lower_char (c : ascii) : ascii :=
  let n := code c in
  if (65 <=? n) && (n <=? 90) then ascii_of_nat (n + 32) else c.

(** [s.toLowerCase()] on the letters that can take part in a [\w] match;
    every other code unit is outside [\w] before and after lowering. *)
Fixpoint toLowerCase (s : string) : string :=
  match s with
  | EmptyString => EmptyString
  | String c r => String (lower_char c) (toLowerCase r)
  end.

Fixpoint trimStart (s : string) : string :=
  match s with
  | EmptyString => EmptyString
  | String c r => if is_space c then trimStart r else s
  end.

Fixpoint rev_string (acc s : string) : string :=
  match s with
  | EmptyString => acc
  | String c r => rev_string (String c acc) r
  end.

Definition trimEnd (s : string) : string :=
  rev_string "" (trimStart (rev_string "" s)).

(** [s.trim()]. *)
Definition trim (s : string) : string := trimEnd (trimStart s).

(** [s.substring(0, n)] for [0 <= n]. *)
Definition prefix (n : nat) (s : string) : string := String.substring 0 n s.

(** [s.lastIndexOf(c)] for a one-character needle; [-1] when absent. *)
Fixpoint lastIndexOf_from (i : Z) (c : ascii) (s : string) (found : Z) : Z :=
  match s with
  | EmptyString => found
  | String d r =>
      lastIndexOf_from (i + 1)%Z c r (if Ascii.eqb c d then i else found)
  end.

Definition lastIndexOf (s : string) (c : ascii) : Z :=
  lastIndexOf_from 0%Z c s (-1)%Z.

(** Maximal runs of [\w] characters of [s], in order. *)
Fixpoint words_aux (cur : string) (s : string) : list string :=
  match s with
  | EmptyString =>
      if truthy cur then [rev_string "" cur] else []
  | String c r =>
      if is_word_char c then words_aux (String c cur) r
      else if truthy cur then rev_string "" cur :: words_aux "" r
      else words_aux "" r
  end.

Definition words (s : string) : list string := words_aux "" s.

(** [arr.join(sep)] on strings. *)
Fixpoint join (sep : string) (l : list string) : string :=
  match l with
  | [] => ""
  | [x] => x
  | x :: r => x +:+ sep +:+ join sep r
  end.

(** Template-literal rendering of a non-negative integer. *)
Definition num (n : nat) : string := pretty n.

End JS.

(** Outcome of a call that may throw. *)
Inductive outcome (A : Type) : Type :=
  | Ok (a : A)
  | Err (msg : string).
Arguments Ok {A} a.
Arguments Err {A} msg.

(** ** Data model (src/types/models.ts) *)

Record Session := mkSession {
  s_id : string;
  s_file_path : string;
  s_project_id : option nat;
  s_project_path : option string;
  s_cwd : option string;
  s_started_at : string;
  s_ended_at : option string;
  s_message_count : nat;
  s_title : option string;
  s_summary : option string;
  s_is_title_auto_generated : bool;
  s_is_stub : bool;
  s_created_at : string;
  s_updated_at : string
}.

Record Message := mkMessage {
  m_id : nat;
  m_uuid : string;
  m_session_id : string;
  m_role : string;
  m_content : string;
  m_timestamp : string;
  m_model : option string;
  m_parent_uuid : option string;
  m_message_type : option string;
  m_cwd : option string;
  m_file_path : option string;
  m_content_hash : option string;
  m_token_count : option nat;
  m_created_at : string
}.

(** ** ChunkManager (src/services/ChunkManager.ts) *)

Module ChunkManager.

Record ConversationChunk := mkChunk {
  chunk_id : string;
  session_id : string;
  sequence_number : nat;
  chunk_type : string;
  content : string;
  user_message : option string;
  assistant_message : option string;
  timestamp : string;
  processing_date : string;
  project_path : option string;
  message_count : nat;
  previous_chunk : option string;
  next_chunk : option string;
  topic_group : option string;
  token_count : nat
}.

Record MessagePair := mkPair {
  userMessage : option Message;
  assistantMessage : option Message;
  pair_timestamp : string
}.

Record TopicGroup := mkGroup {
  topic : string;
  pairs : list MessagePair
}.

(** *** createMessagePairs *)

Fixpoint createMessagePairs (messages : list Message) : list MessagePair :=
  match messages with
  | [] => []
  | message :: rest =>
      if JS.streq (m_role message) "user" then
        match rest with
        | nextMessage :: rest' =>
            if JS.streq (m_role nextMessage) "assistant" then
              mkPair (Some message) (Some nextMessage)
                     (JS.or_else (m_timestamp nextMessage) (m_timestamp message))
              :: createMessagePairs rest'
            else
              mkPair (Some message) None (m_timestamp message)
              :: createMessagePairs rest
        | [] => [mkPair (Some message) None (m_timestamp message)]
        end
      else if JS.streq (m_role message) "assistant" then
        mkPair None (Some message) (m_timestamp message)
        :: createMessagePairs rest
      else createMessagePairs rest
  end.

(** *** extractTopic *)

(** The alternatives of the keyword regular expression. Both ends of the
    pattern are [\b] and every alternative is made of [\w] characters, so
    a match is exactly a maximal [\w] run equal to one alternative. *)
Definition vocabulary : list string :=
  [ "react"; "database"; "git"; "typescript"; "python"; "api"; "server";
    "component"; "function"; "error"; "bug"; "feature"; "implement";
    "create"; "build"; "fix"; "test"; "optimization"; "performance";
    "security"; "authentication"; "deployment"; "docker"; "npm";
    "package"; "library"; "framework"; "mcp"; "claude"; "hook"; "skill";
    "command"; "vector"; "embedding"; "search"; "index"; "sqlite";
    "chromadb" ].

Definition includes (l : list string) (s : string) : bool :=
  List.existsb (JS.streq s) l.

(** [text.toLowerCase().match(/\b(?:...)\b/g)], [[]] standing for [null]. *)
Definition matchKeywords (text : string) : list string :=
  List.filter (includes vocabulary) (JS.words (JS.toLowerCase text)).

(** [acc[keyword] = (acc[keyword] || 0) + 1] on an object whose entries
    are listed in insertion order. *)
Fixpoint bump (keyword : string) (acc : list (string * nat)) : list (string * nat) :=
  match acc with
  | [] => [(keyword, 1)]
  | (k, n) :: r =>
      if JS.streq k keyword then (k, S n) :: r else (k, n) :: bump keyword r
  end.

Definition keywordCounts (keywords : list string) : list (string * nat) :=
  fold_left (fun acc keyword => bump keyword acc) keywords [].

(** Stable sort by decreasing count ([Array.prototype.sort] with the
    comparator [b - a]). *)
Fixpoint insertDesc (e : string * nat) (l : list (string * nat)) : list (string * nat) :=
  match l with
  | [] => [e]
  | x :: r => if e.2 <? x.2 then x :: insertDesc e r else e :: l
  end.

Definition sortDesc (l : list (string * nat)) : list (string * nat) :=
  foldr insertDesc [] l.

Definition pairText (pair : MessagePair) : string :=
  (from_option m_content "" (userMessage pair))
  +:+ " " +:+
  (from_option m_content "" (assistantMessage pair)).

Definition extractTopic (pair : MessagePair) : string :=
  match sortDesc (keywordCounts (matchKeywords (pairText pair))) with
  | (topKeyword, _) :: _ => topKeyword
  | [] => "general"
  end.

(** *** isTopicSimilar *)

Definition relatedGroups : list (list string) :=
  [ ["react"; "component"; "typescript"; "javascript"];
    ["database"; "sqlite"; "sql"; "query"; "chromadb"];
    ["git"; "commit"; "branch"; "repository"];
    ["server"; "api"; "endpoint"; "http"];
    ["test"; "testing"; "jest"; "spec"];
    ["deployment"; "docker"; "container"; "build"];
    ["mcp"; "claude"; "hook"; "skill"; "command"];
    ["vector"; "embedding"; "search"; "index"] ].

Definition isTopicSimilar (topic1 topic2 : string) : bool :=
  if JS.streq topic1 topic2 then true
  else List.existsb (fun group => includes group topic1 && includes group topic2)
                    relatedGroups.

(** *** truncateIfNeeded and formatChunkContent *)

Definition truncationMarker : string := "...[truncated]".

(** [cutPoint > maxChars * 0.8] is compared as [5 * cutPoint > 4 * maxChars];
    at the only call value [maxChars = 10000] the product is exactly 8000. *)
Definition truncateIfNeeded (text : string) (maxChars : nat) : string :=
  if String.length text <=? maxChars then text
  else
    let truncated := JS.prefix maxChars text in
    let lastPeriod := JS.lastIndexOf truncated "."%char in
    let lastNewline := JS.lastIndexOf truncated (ascii_of_nat 10) in
    let cutPoint := Z.max lastPeriod lastNewline in
    if (4 * Z.of_nat maxChars <? 5 * cutPoint)%Z then
      JS.prefix (Z.to_nat (cutPoint + 1)) truncated +:+ truncationMarker
    else truncated +:+ truncationMarker.

Definition nl : string := String (ascii_of_nat 10) "".

Definition formatChunkContent (pair : MessagePair) (topic : string) : string :=
  let maxChunkChars := 20000 in
  let content0 := "Topic: " +:+ topic +:+ nl +:+ nl in
  let content1 :=
    match userMessage pair with
    | Some u =>
        content0 +:+ "User: " +:+ truncateIfNeeded (m_content u) 10000 +:+ nl +:+ nl
    | None => content0
    end in
  let content2 :=
    match assistantMessage pair with
    | Some a =>
        content1 +:+ "Assistant: " +:+ truncateIfNeeded (m_content a) 10000
    | None => content1
    end in
  let content3 :=
    if maxChunkChars <? String.length content2
    then JS.prefix maxChunkChars content2 +:+ truncationMarker
    else content2 in
  JS.trim content3.

Section WithRuntime.

(** [new Date(s).getTime()] of the JavaScript runtime, in milliseconds;
    [None] is [NaN] (the string is not a date). *)
Variable getTime : string -> option Z.

(** *** getTimeGapMinutes *)

(** [Math.abs(time2 - time1) / (1000 * 60)]; [None] is [NaN]. *)
Definition getTimeGapMinutes (timestamp1 timestamp2 : string) : option Q :=
  match getTime timestamp1, getTime timestamp2 with
  | Some time1, Some time2 => Some (Z.abs (time2 - time1) # 60000)
  | _, _ => None
  end.

(** [timeGap > 30]; a comparison with [NaN] is false. The floating point
    quotient exceeds 30 exactly when the rational one does. *)
Definition gapExceeds30 (timeGap : option Q) : bool :=
  match timeGap with
  | Some q => negb (Qle_bool q 30)
  | None => false
  end.

(** *** detectTopicGroups *)

(** [currentGroup.pairs[currentGroup.pairs.length - 1]]; the default is
    never used, a group always holds a pair. *)
Definition lastPair (g : TopicGroup) (d : MessagePair) : MessagePair :=
  List.last (pairs g) d.

Definition boundary (currentGroup : TopicGroup) (pair : MessagePair) : bool :=
  let pairTopic := extractTopic pair in
  let timeGap :=
    getTimeGapMinutes (pair_timestamp (lastPair currentGroup pair))
                      (pair_timestamp pair) in
  let topicSimilar := isTopicSimilar (topic currentGroup) pairTopic in
  gapExceeds30 timeGap || negb topicSimilar.

(** The [for (let i = 1; ...)] loop and the final [groups.push]. *)
Fixpoint detectLoop (groups : list TopicGroup) (currentGroup : TopicGroup)
         (rest : list MessagePair) : list TopicGroup :=
  match rest with
  | [] => groups ++ [currentGroup]
  | p :: rest' =>
      if boundary currentGroup p then
        detectLoop (groups ++ [currentGroup])
                   (mkGroup (extractTopic p) [p]) rest'
      else
        detectLoop groups
                   (mkGroup (topic currentGroup) (pairs currentGroup ++ [p]))
                   rest'
  end.

Definition detectTopicGroups (ps : list MessagePair) : list TopicGroup :=
  match ps with
  | [] => []
  | p0 :: rest => detectLoop [] (mkGroup (extractTopic p0) [p0]) rest
  end.

(** *** processSession *)

Definition chunkIdOf (session : Session) (n : nat) : string :=
  "conv_" +:+ s_id session +:+ "_pair_" +:+ JS.num n.

Definition nonEmpty (o : option string) : option string :=
  match o with
  | Some s => if JS.truthy s then Some s else None
  | None => None
  end.

Definition present {A} (o : option A) : nat :=
  match o with Some _ => 1 | None => 0 end.

(** Wall clock: [clock n] is [new Date().toISOString()] as read while
    chunk number [n] is being built. *)
Variable clock : nat -> string.

Definition buildChunk (session : Session) (group : TopicGroup)
           (pair : MessagePair) (sequenceNumber : nat) (hasNext : bool)
  : ConversationChunk :=
  {| chunk_id := chunkIdOf session sequenceNumber;
     session_id := s_id session;
     sequence_number := sequenceNumber;
     chunk_type := "message_pair";
     content := formatChunkContent pair (topic group);
     user_message := m_content <$> userMessage pair;
     assistant_message := m_content <$> assistantMessage pair;
     timestamp := pair_timestamp pair;
     project_path := nonEmpty (s_project_path session);
     message_count := present (userMessage pair) + present (assistantMessage pair);
     previous_chunk :=
       if 1 <? sequenceNumber
       then Some (chunkIdOf session (sequenceNumber - 1)) else None;
     next_chunk :=
       if hasNext then Some (chunkIdOf session (sequenceNumber + 1)) else None;
     topic_group := Some (topic group);
     token_count := 0;
     processing_date := clock sequenceNumber |}.

(** Inner loop over [group.pairs]; [seq] is [sequenceNumber] on entry.
    [i < group.pairs.length - 1] holds when pairs remain after this one;
    [notLastGroup] is [group !== topicGroups[topicGroups.length - 1]]. *)
Fixpoint emitPairs (session : Session) (group : TopicGroup) (notLastGroup : bool)
         (ps : list MessagePair) (seq : nat) : list ConversationChunk :=
  match ps with
  | [] => []
  | p :: rest =>
      let sequenceNumber := S seq in
      let hasNext := negb (bool_decide (rest = [])) || notLastGroup in
      buildChunk session group p sequenceNumber hasNext
      :: emitPairs session group notLastGroup rest sequenceNumber
  end.

(** Outer loop over [topicGroups]. *)
Fixpoint emitGroups (session : Session) (groups : list TopicGroup) (seq : nat)
  : list ConversationChunk :=
  match groups with
  | [] => []
  | group :: rest =>
      let notLastGroup := negb (bool_decide (rest = [])) in
      emitPairs session group notLastGroup (pairs group) seq
      ++ emitGroups session rest (seq + length (pairs group))
  end.

Definition processSession (session : Session) (messages : list Message)
  : list ConversationChunk :=
  let conversationMessages :=
    List.filter (fun m => negb (JS.streq (m_role m) "system")) messages in
  match conversationMessages with
  | [] => []
  | _ =>
      let messagePairs := createMessagePairs conversationMessages in
      let topicGroups := detectTopicGroups messagePairs in
      emitGroups session topicGroups 0
  end.

(** *** Vocabulary of the chunking properties *)

(** More than thirty minutes between two timestamps that both parse. *)
Definition farApart (t1 t2 : string) : Prop :=
  exists a b : Z,
    getTime t1 = Some a /\ getTime t2 = Some b /\ (1800000 < Z.abs (b - a))%Z.

(** The shape of the chunk emitted at position [k] when numbering
    starts after [seq] and [total] chunks are emitted in all. *)
Definition linked (session : Session) (seq total k : nat) (c : ConversationChunk)
  : Prop :=
  sequence_number c = seq + k + 1
  /\ chunk_id c = chunkIdOf session (seq + k + 1)
  /\ previous_chunk c
     = (if 1 <? seq + k + 1 then Some (chunkIdOf session (seq + k)) else None)
  /\ next_chunk c
     = (if bool_decide (k + 1 < total)
        then Some (chunkIdOf session (seq + k + 2)) else None)
  /\ processing_date c = clock (seq + k + 1).

End WithRuntime.

(** The message pairs [processSession] works on. *)
Definition conversationPairs (messages : list Message) : list MessagePair :=
  createMessagePairs
    (List.filter (fun m => negb (JS.streq (m_role m) "system")) messages).

(** A chunk with its [processing_date] blanked. *)
Definition withoutProcessingDate (c : ConversationChunk) : ConversationChunk :=
  {| chunk_id := chunk_id c; session_id := session_id c;
     sequence_number := sequence_number c; chunk_type := chunk_type c;
     content := content c; user_message := user_message c;
     assistant_message := assistant_message c; timestamp := timestamp c;
     processing_date := "";
     project_path := project_path c; message_count := message_count c;
     previous_chunk := previous_chunk c; next_chunk := next_chunk c;
     topic_group := topic_group c; token_count := token_count c |}.

(** A link between the chunks at positions [i] and [i + 1] is missing or
    points elsewhere. *)
Definition chainBrokenAt (cs : list ConversationChunk) (i : nat) : Prop :=
  forall c c',
    cs !! i = Some c -> cs !! S i = Some c' ->
    next_chunk c <> Some (chunk_id c') \/ previous_chunk c' <> Some (chunk_id c).

Definition nonEmptyGroups (groups : list TopicGroup) : Prop :=
  Forall (fun g => pairs g <> []) groups.

(** Index of the group that holds the pair at position [k] of the
    flattened sequence. *)
Fixpoint groupIndexOf (groups : list TopicGroup) (k : nat) : option nat :=
  match groups with
  | [] => None
  | g :: rest =>
      if k <? length (pairs g) then Some 0
      else S <$> groupIndexOf rest (k - length (pairs g))
  end.

End ChunkManager.

(** ** ISO 8601 timestamps

    The transcripts carry UTC timestamps of the form
    [YYYY-MM-DDTHH:MM:SS.sssZ]. [IsoDate.getTime] reads that form
    (milliseconds since the epoch) and gives [None] for any other string. It
    stands for the date parser of the runtime in the worked examples, which
    use no other form. *)

Module IsoDate.

Definition digit (c : ascii) : option Z :=
  let n := JS.code c in
  if (48 <=? n) && (n <=? 57) then Some (Z.of_nat (n - 48)) else None.

Fixpoint number (acc : Z) (s : string) : option Z :=
  match s with
  | EmptyString => Some acc
  | String c r =>
      match digit c with
      | Some d => number (10 * acc + d)%Z r
      | None => None
      end
  end.

(** Digits of [s] at positions [from, from + len). *)
Definition field (from len : nat) (s : string) : option Z :=
  let sub := String.substring from len s in
  if String.length sub =? len then number 0%Z sub else None.

Definition charAt (i : nat) (s : string) (c : ascii) : bool :=
  match String.get i s with
  | Some d => Ascii.eqb c d
  | None => false
  end.

(** Days between 1970-01-01 and the civil date [y-m-d] (proleptic
    Gregorian calendar). *)
Definition daysFromCivil (y m d : Z) : Z :=
  let y' := if (m <=? 2)%Z then (y - 1)%Z else y in
  let era := (y' / 400)%Z in
  let yoe := (y' - era * 400)%Z in
  let mp := ((m + 9) mod 12)%Z in
  let doy := ((153 * mp + 2) / 5 + d - 1)%Z in
  let doe := (yoe * 365 + yoe / 4 - yoe / 100 + doy)%Z in
  (era * 146097 + doe - 719468)%Z.

Definition inRange (lo hi v : Z) : bool := ((lo <=? v) && (v <=? hi))%Z.

Definition getTime (s : string) : option Z :=
  if (String.length s =? 24)
     && charAt 4 s "-" && charAt 7 s "-" && charAt 10 s "T"
     && charAt 13 s ":" && charAt 16 s ":" && charAt 19 s "."
     && charAt 23 s "Z"
  then
    y ← field 0 4 s; mo ← field 5 2 s; d ← field 8 2 s;
    h ← field 11 2 s; mi ← field 14 2 s; sec ← field 17 2 s;
    ms ← field 20 3 s;
    if inRange 1 12 mo && inRange 1 31 d && inRange 0 23 h
       && inRange 0 59 mi && inRange 0 59 sec
    then Some ((((daysFromCivil y mo d * 24 + h) * 60 + mi) * 60 + sec) * 1000 + ms)%Z
    else None
  else None.

End IsoDate.

(** ** JsonlParser (src/services/JsonlParser.ts) *)

Module JsonlParser.

(** An element of a [tool_result] content array: a string or an object
    with an optional [text]. *)
Inductive ResultItem :=
  | RItemString (s : string)
  | RItemObject (text : option string).

Inductive ResultContent :=
  | RString (s : string)
  | RArray (items : list ResultItem)
  | RAbsent.

Record ContentBlock := mkBlock {
  b_type : string;
  b_text : option string;
  b_name : option string;
  b_content : ResultContent
}.

Inductive BlockEntry :=
  | BString (s : string)
  | BObject (b : ContentBlock).

Inductive MessageContent :=
  | CString (s : string)
  | CArray (blocks : list BlockEntry)
  | CAbsent.

Record RawInner := mkInner {
  i_role : option string;
  i_content : MessageContent;
  i_model : option string
}.

(** [RawJsonlMessage]: one decoded line of a transcript. *)
Record RawJsonlMessage := mkRaw {
  r_type : option string;
  r_uuid : option string;
  r_parentUuid : option string;
  r_sessionId : option string;
  r_timestamp : option string;
  r_cwd : option string;
  r_isMeta : bool;
  r_summary : option string;
  r_message : option RawInner
}.

Record ParsedMessage := mkParsedMessage {
  pm_uuid : string;
  (** [sessionId!]: still [null] when no record has carried an id yet. *)
  pm_session_id : option string;
  pm_role : string;
  pm_content : string;
  pm_timestamp : string;
  pm_model : option string;
  pm_parent_uuid : option string;
  pm_message_type : option string;
  pm_cwd : option string
}.

Record ParsedSession := mkParsedSession {
  ps_id : string;
  ps_file_path : string;
  ps_project_path : option string;
  ps_cwd : option string;
  ps_title : option string;
  ps_started_at : option string;
  ps_ended_at : option string;
  ps_messages : list ParsedMessage
}.

Definition typeIs (raw : RawJsonlMessage) (t : string) : bool :=
  match r_type raw with
  | Some s => JS.streq s t
  | None => false
  end.

Definition resultItemText (r : ResultItem) : string :=
  match r with
  | RItemString s => s
  | RItemObject t => JS.or_else (default "" t) ""
  end.

Definition blockText (entry : BlockEntry) : string :=
  match entry with
  | BString s => s
  | BObject block =>
      if JS.streq (b_type block) "text" then JS.or_else (default "" (b_text block)) ""
      else if JS.streq (b_type block) "tool_use" then
        "[Tool Use: " +:+ JS.or_else (default "" (b_name block)) "unknown" +:+ "]"
      else if JS.streq (b_type block) "tool_result" then
        match b_content block with
        | RString s => s
        | RArray items => JS.join ChunkManager.nl (map resultItemText items)
        | RAbsent => ""
        end
      else ""
  end.

Definition extractContent (c : MessageContent) : string :=
  match c with
  | CString s => s
  | CArray blocks =>
      JS.join ChunkManager.nl (List.filter JS.truthy (map blockText blocks))
  | CAbsent => ""
  end.

Definition parseMessage (raw : RawJsonlMessage) (sessionId : option string)
  : option ParsedMessage :=
  match r_uuid raw, r_timestamp raw with
  | Some uuid, Some timestamp =>
      if negb (JS.truthy uuid) || negb (JS.truthy timestamp) then None
      else
        let role0 := if typeIs raw "assistant" then "assistant" else "user" in
        let '(role, model, content) :=
          match r_message raw with
          | Some m =>
              (JS.or_else (default "" (i_role m)) role0, i_model m,
               extractContent (i_content m))
          | None => (role0, None, "")
          end in
        if negb (JS.truthy (JS.trim content)) then None
        else Some {| pm_uuid := uuid;
                     pm_session_id := sessionId;
                     pm_role := role;
                     pm_content := content;
                     pm_timestamp := timestamp;
                     pm_model := model;
                     pm_parent_uuid := r_parentUuid raw;
                     pm_message_type := r_type raw;
                     pm_cwd := r_cwd raw |}
  | _, _ => None
  end.

(** Both branches of [extractProjectPath] return the directory as it is. *)
Definition extractProjectPath (cwd : string) : option string := Some cwd.

(** [content.replace(/\s+/g, ' ')]. *)
Fixpoint collapseSpaces (inRun : bool) (s : string) : string :=
  match s with
  | EmptyString => EmptyString
  | String c r =>
      if JS.is_space c then
        if inRun then collapseSpaces true r
        else String " "%char (collapseSpaces true r)
      else String c (collapseSpaces false r)
  end.

Definition generateTitle (content : string) : option string :=
  if negb (JS.truthy content) then None
  else
    let cleaned := JS.prefix 100 (JS.trim (collapseSpaces false content)) in
    if 80 <? String.length cleaned then Some (JS.prefix 80 cleaned +:+ "...")
    else if JS.truthy cleaned then Some cleaned else None.

(** The mutable locals of [parseFile]. *)
Record ParseState := mkParseState {
  st_messages : list ParsedMessage;
  st_sessionId : option string;
  st_title : option string;
  st_cwd : option string;
  st_projectPath : option string;
  st_startedAt : option string;
  st_endedAt : option string
}.

Definition initialState : ParseState :=
  mkParseState [] None None None None None None.

(** [!startedAt || ts < startedAt]. *)
Definition earlier (ts : string) (startedAt : option string) : bool :=
  match startedAt with
  | None => true
  | Some s => negb (JS.truthy s) || String.ltb ts s
  end.

(** [!endedAt || ts > endedAt]. *)
Definition later (ts : string) (endedAt : option string) : bool :=
  match endedAt with
  | None => true
  | Some s => negb (JS.truthy s) || String.ltb s ts
  end.

(** A record that reaches the timestamp tracking: neither a summary line
    nor a system or meta record. *)
Definition skipped (parsed : RawJsonlMessage) : bool :=
  typeIs parsed "summary" || typeIs parsed "system" || r_isMeta parsed.

(** One iteration of the loop over the lines; [None] is a blank line or a
    line that [JSON.parse] rejects. *)
Definition parseLine (st : ParseState) (line : option RawJsonlMessage) : ParseState :=
  match line with
  | None => st
  | Some parsed =>
      if typeIs parsed "summary" then
        mkParseState (st_messages st) (st_sessionId st) (r_summary parsed) (st_cwd st)
                     (st_projectPath st) (st_startedAt st) (st_endedAt st)
      else if typeIs parsed "system" || r_isMeta parsed then st
      else
        let sessionId' :=
          if negb (JS.otruthy (st_sessionId st)) && JS.otruthy (r_sessionId parsed)
          then r_sessionId parsed else st_sessionId st in
        let newCwd := negb (JS.otruthy (st_cwd st)) && JS.otruthy (r_cwd parsed) in
        let cwd' := if newCwd then r_cwd parsed else st_cwd st in
        let projectPath' :=
          if newCwd then extractProjectPath (default "" (r_cwd parsed))
          else st_projectPath st in
        let '(startedAt', endedAt') :=
          match r_timestamp parsed with
          | Some ts =>
              if JS.truthy ts then
                (if earlier ts (st_startedAt st) then Some ts else st_startedAt st,
                 if later ts (st_endedAt st) then Some ts else st_endedAt st)
              else (st_startedAt st, st_endedAt st)
          | None => (st_startedAt st, st_endedAt st)
          end in
        let messages' :=
          if typeIs parsed "user" || typeIs parsed "assistant" then
            match parseMessage parsed sessionId' with
            | Some message => st_messages st ++ [message]
            | None => st_messages st
            end
          else st_messages st in
        mkParseState messages' sessionId' (st_title st) cwd' projectPath'
                     startedAt' endedAt'
  end.

(** [messages.find(m => m.role === 'user')]. *)
Definition firstUserMessage (ms : list ParsedMessage) : option ParsedMessage :=
  List.find (fun m => JS.streq (pm_role m) "user") ms.

(** [parseFile]. A file that cannot be read gives [null] like a file
    without lines. *)
Definition parseFile (filePath : string) (lines : list (option RawJsonlMessage))
  : option ParsedSession :=
  match lines with
  | [] => None
  | _ =>
      let st := fold_left parseLine lines initialState in
      match st_sessionId st with
      | None => None
      | Some sid =>
          if negb (JS.truthy sid) || bool_decide (st_messages st = []) then None
          else
            let title' :=
              if negb (JS.otruthy (st_title st)) then
                match firstUserMessage (st_messages st) with
                | Some m => generateTitle (pm_content m)
                | None => st_title st
                end
              else st_title st in
            Some {| ps_id := sid;
                    ps_file_path := filePath;
                    ps_project_path := st_projectPath st;
                    ps_cwd := st_cwd st;
                    ps_title := title';
                    ps_started_at := st_startedAt st;
                    ps_ended_at := st_endedAt st;
                    ps_messages := st_messages st |}
      end
  end.

(** *** Vocabulary of the session span *)

(** The timestamp a line contributes to the session span. *)
Definition trackedOf (line : option RawJsonlMessage) : option string :=
  match line with
  | Some parsed =>
      if skipped parsed then None
      else match r_timestamp parsed with
           | Some ts => if JS.truthy ts then Some ts else None
           | None => None
           end
  | None => None
  end.

Definition trackedTimestamps (lines : list (option RawJsonlMessage)) : list string :=
  omap trackedOf lines.

(** The timestamp a line carries, whatever its kind. *)
Definition carriedOf (line : option RawJsonlMessage) : option string :=
  match line with
  | Some parsed =>
      match r_timestamp parsed with
      | Some ts => if JS.truthy ts then Some ts else None
      | None => None
      end
  | None => None
  end.

Definition carriedTimestamps (lines : list (option RawJsonlMessage)) : list string :=
  omap carriedOf lines.

(** Least and greatest element in the order of [<] on strings. *)
Definition isMinimum (m : string) (l : list string) : Prop :=
  m ∈ l /\ forall t, t ∈ l -> String.ltb t m = false.

Definition isMaximum (m : string) (l : list string) : Prop :=
  m ∈ l /\ forall t, t ∈ l -> String.ltb m t = false.

(** What the loop of [parseFile] has established after the lines whose
    tracked timestamps are [seen]. *)
Record spanInv (st : ParseState) (seen : list string) : Prop := {
  inv_start :
    match st_startedAt st with
    | None => seen = []
    | Some m => m <> "" /\ isMinimum m seen
    end;
  inv_end :
    match st_endedAt st with
    | None => seen = []
    | Some m => m <> "" /\ isMaximum m seen
    end;
  inv_messages : st_messages st <> [] -> seen <> []
}.

End JsonlParser.

(** ** The SQLite store and its repositories *)

Module Store.

Record Project := mkProject {
  p_id : nat;
  p_path : string;
  p_name : string
}.

(** The tables the import pipeline touches. [sessions] is keyed by its
    primary key; [messages] lists the rows in rowid order, [uuid] being
    UNIQUE; [session_tags] is the set of its (session_id, tag_id) keys.
    The statistics columns of [projects] are not part of the model. *)
Record Db := mkDb {
  sessions : gmap string Session;
  messages : list Message;
  message_seq : nat;
  projects : list Project;
  project_seq : nat;
  tags : gmap nat string;
  session_tags : gset (string * nat)
}.

Definition emptyDb : Db := mkDb ∅ [] 0 [] 0 ∅ ∅.

Definition setSessions (db : Db) (ss : gmap string Session) : Db :=
  mkDb ss (messages db) (message_seq db) (projects db) (project_seq db)
       (tags db) (session_tags db).

Definition uniqueFailed : string := "UNIQUE constraint failed".

(** [error.message.includes(needle)]. *)
Fixpoint includesAt (needle s : string) : bool :=
  String.prefix needle s
  || match s with
     | EmptyString => false
     | String _ r => includesAt needle r
     end.

Record CreateSessionInput := mkSessionInput {
  in_id : string;
  in_file_path : string;
  in_project_id : option nat;
  in_project_path : option string;
  in_cwd : option string;
  in_started_at : string;
  in_ended_at : option string;
  in_message_count : option nat;
  in_title : option string;
  in_summary : option string;
  in_is_title_auto_generated : option bool;
  in_is_stub : option bool
}.

Record UpdateSessionInput := mkUpdateInput {
  up_ended_at : option string;
  up_message_count : option nat;
  up_title : option string;
  up_summary : option string;
  up_is_title_auto_generated : option bool
}.

Record CreateMessageInput := mkMessageInput {
  mi_uuid : string;
  mi_session_id : option string;
  mi_role : string;
  mi_content : string;
  mi_timestamp : string;
  mi_model : option string;
  mi_parent_uuid : option string;
  mi_message_type : option string;
  mi_cwd : option string;
  mi_file_path : option string;
  mi_token_count : option nat
}.

Section Repositories.

(** [datetime('now')] of the statement being run. *)
Variable now : string.
(** [crypto.createHash('md5').update(s).digest('hex')]. *)
Variable md5 : string -> string.

Definition projectExists (db : Db) (pid : option nat) : bool :=
  match pid with
  | None => true
  | Some n => List.existsb (fun p => p_id p =? n) (projects db)
  end.

(** *** SessionRepository *)

Definition sessionExists (db : Db) (id : string) : bool :=
  bool_decide (is_Some (sessions db !! id)).

Definition isStub (db : Db) (id : string) : bool :=
  match sessions db !! id with
  | Some s => s_is_stub s
  | None => false
  end.

Definition sessionCreate (db : Db) (input : CreateSessionInput) : outcome Db :=
  if sessionExists db (in_id input) then
    Err "UNIQUE constraint failed: sessions.id"
  else if negb (projectExists db (in_project_id input)) then
    Err "FOREIGN KEY constraint failed"
  else
    Ok (setSessions db
          (<[in_id input :=
               {| s_id := in_id input;
                  s_file_path := in_file_path input;
                  s_project_id := in_project_id input;
                  s_project_path := in_project_path input;
                  s_cwd := in_cwd input;
                  s_started_at := in_started_at input;
                  s_ended_at := in_ended_at input;
                  s_message_count := default 0 (in_message_count input);
                  s_title := in_title input;
                  s_summary := in_summary input;
                  s_is_title_auto_generated :=
                    default false (in_is_title_auto_generated input);
                  s_is_stub := default false (in_is_stub input);
                  s_created_at := now;
                  s_updated_at := now |}]> (sessions db))).


(** The row written by the [UPDATE] of [updateFromImport]. *)
Definition importedRow (s : Session) (input : CreateSessionInput) : Session :=
  {| s_id := s_id s;
     s_file_path := in_file_path input;
     s_project_id := in_project_id input;
     s_project_path := in_project_path input;
     s_cwd := in_cwd input;
     s_started_at := in_started_at input;
     s_ended_at := in_ended_at input;
     s_message_count := default 0 (in_message_count input);
     s_title := s_title s;
     s_summary := s_summary s;
     s_is_title_auto_generated := s_is_title_auto_generated s;
     s_is_stub := false;
     s_created_at := s_created_at s;
     s_updated_at := now |}.

Definition updateFromImport (db : Db) (id : string) (input : CreateSessionInput)
  : outcome Db :=
  match sessions db !! id with
  | None => Ok db
  | Some s =>
      if negb (projectExists db (in_project_id input)) then
        Err "FOREIGN KEY constraint failed"
      else Ok (setSessions db (<[id := importedRow s input]> (sessions db)))
  end.

Definition noFields (input : UpdateSessionInput) : bool :=
  match up_ended_at input, up_message_count input, up_title input,
        up_summary input, up_is_title_auto_generated input with
  | None, None, None, None, None => true
  | _, _, _, _, _ => false
  end.

(** The row written by the [UPDATE] that [update] assembles. *)
Definition updatedRow (s : Session) (input : UpdateSessionInput) : Session :=
  {| s_id := s_id s;
     s_file_path := s_file_path s;
     s_project_id := s_project_id s;
     s_project_path := s_project_path s;
     s_cwd := s_cwd s;
     s_started_at := s_started_at s;
     s_ended_at :=
       match up_ended_at input with Some e => Some e | None => s_ended_at s end;
     s_message_count := default (s_message_count s) (up_message_count input);
     s_title :=
       match up_title input with Some t => Some t | None => s_title s end;
     s_summary :=
       match up_summary input with Some t => Some t | None => s_summary s end;
     s_is_title_auto_generated :=
       default (s_is_title_auto_generated s) (up_is_title_auto_generated input);
     s_is_stub := s_is_stub s;
     s_created_at := s_created_at s;
     s_updated_at := now |}.

Definition sessionUpdate (db : Db) (id : string) (input : UpdateSessionInput) : Db :=
  if noFields input then db
  else
    match sessions db !! id with
    | None => db
    | Some s => setSessions db (<[id := updatedRow s input]> (sessions db))
    end.

(** *** MessageRepository *)

Definition uuidExists (db : Db) (uuid : string) : bool :=
  List.existsb (fun m => JS.streq (m_uuid m) uuid) (messages db).

Definition calculateHash (sessionId : option string) (uuid content : string) : string :=
  md5 (default "null" sessionId +:+ uuid +:+ content).

(** [create]: the INSERT with its NOT NULL, UNIQUE and FOREIGN KEY
    checks. *)
Definition messageCreate (db : Db) (input : CreateMessageInput) : outcome Db :=
  match mi_session_id input with
  | None => Err "NOT NULL constraint failed: messages.session_id"
  | Some sid =>
      if uuidExists db (mi_uuid input) then
        Err "UNIQUE constraint failed: messages.uuid"
      else if negb (sessionExists db sid) then
        Err "FOREIGN KEY constraint failed"
      else
        let row :=
          {| m_id := S (message_seq db);
             m_uuid := mi_uuid input;
             m_session_id := sid;
             m_role := mi_role input;
             m_content := mi_content input;
             m_timestamp := mi_timestamp input;
             m_model := mi_model input;
             m_parent_uuid := mi_parent_uuid input;
             m_message_type := mi_message_type input;
             m_cwd := mi_cwd input;
             m_file_path := mi_file_path input;
             m_content_hash :=
               Some (calculateHash (mi_session_id input) (mi_uuid input)
                                   (mi_content input));
             m_token_count := mi_token_count input;
             m_created_at := now |} in
        Ok (mkDb (sessions db) (messages db ++ [row]) (S (message_seq db))
                 (projects db) (project_seq db) (tags db) (session_tags db))
  end.

(** The loop of [createMany] inside its transaction. *)
Fixpoint createManyLoop (db : Db) (inputs : list CreateMessageInput) (created : nat)
  : outcome (Db * nat) :=
  match inputs with
  | [] => Ok (db, created)
  | input :: rest =>
      match messageCreate db input with
      | Ok db' => createManyLoop db' rest (S created)
      | Err msg =>
          if includesAt uniqueFailed msg then createManyLoop db rest created
          else Err msg
      end
  end.

(** [createMany]: an error other than a duplicate rolls the transaction
    back and is rethrown. *)
Definition createMany (db : Db) (inputs : list CreateMessageInput)
  : Db * outcome nat :=
  match createManyLoop db inputs 0 with
  | Ok (db', created) => (db', Ok created)
  | Err msg => (db, Err msg)
  end.

(** [count({session_id})]: the rows stored for a session. *)
Definition countBySession (db : Db) (sid : string) : nat :=
  length (List.filter (fun m => JS.streq (m_session_id m) sid) (messages db)).

(** *** ProjectRepository *)

Definition findByPath (db : Db) (path : string) : option Project :=
  List.find (fun p => JS.streq (p_path p) path) (projects db).

(** [path.split('/')]. *)
Fixpoint splitSlash (cur : string) (s : string) : list string :=
  match s with
  | EmptyString => [JS.rev_string "" cur]
  | String c r =>
      if Ascii.eqb c "/" then JS.rev_string "" cur :: splitSlash "" r
      else splitSlash (String c cur) r
  end.

Definition projectName (path : string) : string :=
  let segments := List.filter JS.truthy (splitSlash "" path) in
  JS.or_else (List.last segments "") "Unknown".

Definition getOrCreate (db : Db) (path : string) : Db * Project :=
  match findByPath db path with
  | Some existing => (db, existing)
  | None =>
      let p := mkProject (S (project_seq db)) path (projectName path) in
      (mkDb (sessions db) (messages db) (message_seq db)
            (projects db ++ [p]) (S (project_seq db)) (tags db) (session_tags db),
       p)
  end.

(** *** TagRepository *)

(** [addToSession]: INSERT OR IGNORE; a foreign key failure is caught. *)
Definition addToSession (db : Db) (sessionId : string) (tagId : nat) : Db * bool :=
  if sessionExists db sessionId && bool_decide (is_Some (tags db !! tagId)) then
    (mkDb (sessions db) (messages db) (message_seq db) (projects db)
          (project_seq db) (tags db) ({[ (sessionId, tagId) ]} ∪ session_tags db),
     true)
  else (db, false).

Definition sessionHasTag (db : Db) (sessionId : string) (tagId : nat) : bool :=
  bool_decide ((sessionId, tagId) ∈ session_tags db).

End Repositories.

End Store.

(** ** ImportService (src/services/ImportService.ts) *)

Module ImportService.

Import Store JsonlParser.

Record ImportResult := mkImportResult {
  totalFiles : nat;
  imported : nat;
  skipped : nat;
  failed : nat;
  totalMessages : nat;
  errors : list (string * string);
  duration : Z
}.

Section Service.

(** [datetime('now')] and the digest, as in [Store]. *)
Variable now : string.
Variable md5 : string -> string.
(** [new Date().toISOString()] as read by [importFile]. *)
Variable nowIso : string.
(** Whether the service was constructed with a [ProjectRepository]. *)
Variable hasProjectRepo : bool.

Definition messageInput (msg : ParsedMessage) : CreateMessageInput :=
  {| mi_uuid := pm_uuid msg;
     mi_session_id := pm_session_id msg;
     mi_role := pm_role msg;
     mi_content := pm_content msg;
     mi_timestamp := pm_timestamp msg;
     mi_model := pm_model msg;
     mi_parent_uuid := pm_parent_uuid msg;
     mi_message_type := pm_message_type msg;
     mi_cwd := pm_cwd msg;
     mi_file_path := None;
     mi_token_count := None |}.

Definition sessionInput (session : ParsedSession) (projectId : option nat)
  : CreateSessionInput :=
  {| in_id := ps_id session;
     in_file_path := ps_file_path session;
     in_project_id := projectId;
     in_project_path := ps_project_path session;
     in_cwd := ps_cwd session;
     in_started_at := default nowIso (ps_started_at session);
     in_ended_at := ps_ended_at session;
     in_message_count := Some (length (ps_messages session));
     in_title := ps_title session;
     in_summary := None;
     in_is_title_auto_generated :=
       Some (bool_decide (is_Some (ps_title session)));
     in_is_stub := None |}.

(** [importFile] after the parse: the store it leaves and what it
    returns or throws. *)
Definition importSession (db : Db) (session : ParsedSession) (skipExisting : bool)
  : Db * outcome (option nat) :=
  let existingSession := sessionExists db (ps_id session) in
  let stub := existingSession && isStub db (ps_id session) in
  if skipExisting && existingSession && negb stub then (db, Ok (Some 0))
  else
    let '(db1, projectId) :=
      if hasProjectRepo && JS.otruthy (ps_project_path session) then
        let '(d, project) := getOrCreate db (default "" (ps_project_path session)) in
        (d, Some (p_id project))
      else (db, None) in
    let input := sessionInput session projectId in
    let step :=
      if stub then updateFromImport now db1 (ps_id session) input
      else if negb existingSession then sessionCreate now db1 input
      else Ok db1 in
    match step with
    | Err msg => (db1, Err msg)
    | Ok db2 =>
        let messageInputs := map messageInput (ps_messages session) in
        match createMany now md5 db2 messageInputs with
        | (db3, Err msg) => (db3, Err msg)
        | (db3, Ok created) =>
            (sessionUpdate now db3 (ps_id session)
                           (mkUpdateInput None (Some created) None None None),
             Ok (Some created))
        end
    end.

Definition importFile (db : Db) (filePath : string)
           (lines : list (option RawJsonlMessage)) (skipExisting : bool)
  : Db * outcome (option nat) :=
  match parseFile filePath lines with
  | None => (db, Ok None)
  | Some session => importSession db session skipExisting
  end.

End Service.

(** Whether [importFile] gets past the [skipExisting] guard. *)
Definition reachesInsertion (db : Db) (session : ParsedSession) (skipExisting : bool)
  : bool :=
  negb (skipExisting && sessionExists db (ps_id session)
        && negb (sessionExists db (ps_id session) && isStub db (ps_id session))).

(** Every input is in the messages table and names a session. *)
Definition allStored (db : Db) (inputs : list CreateMessageInput) : Prop :=
  Forall (fun i => uuidExists db (mi_uuid i) = true /\ is_Some (mi_session_id i))
         inputs.

(** The message count persisted for a conversation. *)
Definition persistedCount (db : Db) (id : string) : option nat :=
  s_message_count <$> sessions db !! id.

(** *** importAll

    The loop of [importAll] over the files found, for any behaviour of
    [importFile] and of the two callbacks on a state [St] (the store and
    whatever the callbacks touch). A callback returns [Err] when it
    throws. *)
Section ImportAll.

Context {St : Type}.
Variable importFileFn : St -> string -> bool -> St * outcome (option nat).
Variable onProgress : option (St -> nat -> nat -> string -> St * outcome unit).
Variable onError : option (St -> string -> string -> St * outcome unit).
(** [options.skipExisting]. *)
Variable skipExistingOpt : option bool.

Definition initialResult (n : nat) : ImportResult :=
  mkImportResult n 0 0 0 0 [] 0.

Definition countSkipped (r : ImportResult) : ImportResult :=
  mkImportResult (totalFiles r) (imported r) (S (skipped r)) (failed r)
                 (totalMessages r) (errors r) (duration r).

Definition countImported (r : ImportResult) (n : nat) : ImportResult :=
  mkImportResult (totalFiles r) (S (imported r)) (skipped r) (failed r)
                 (totalMessages r + n) (errors r) (duration r).

Definition countFailed (r : ImportResult) (file msg : string) : ImportResult :=
  mkImportResult (totalFiles r) (imported r) (skipped r) (S (failed r))
                 (totalMessages r) (errors r ++ [(file, msg)]) (duration r).

Definition withDuration (r : ImportResult) (d : Z) : ImportResult :=
  mkImportResult (totalFiles r) (imported r) (skipped r) (failed r)
                 (totalMessages r) (errors r) d.

Definition callProgress (st : St) (current total : nat) (file : string)
  : St * outcome unit :=
  match onProgress with
  | Some f => f st current total file
  | None => (st, Ok tt)
  end.

Definition callError (st : St) (file msg : string) : St * outcome unit :=
  match onError with
  | Some f => f st file msg
  | None => (st, Ok tt)
  end.

(** The [catch] block of one iteration. *)
Definition catchFile (st : St) (r : ImportResult) (file msg : string)
  : St * outcome ImportResult :=
  let r' := countFailed r file msg in
  match callError st file msg with
  | (st', Ok _) => (st', Ok r')
  | (st', Err e) => (st', Err e)
  end.

(** One iteration of the loop: the [try] block, then the [catch]. The
    progress callback is handed the path, of which the base name it
    receives is a function. *)
Definition importOne (st : St) (r : ImportResult) (i total : nat) (file : string)
  : St * outcome ImportResult :=
  match importFileFn st file (default true skipExistingOpt) with
  | (st1, Err msg) => catchFile st1 r file msg
  | (st1, Ok res) =>
      let r1 :=
        match res with
        | None => countSkipped r
        | Some 0 => countSkipped r
        | Some n => countImported r n
        end in
      match callProgress st1 (i + 1) total file with
      | (st2, Ok _) => (st2, Ok r1)
      | (st2, Err msg) => catchFile st2 r1 file msg
      end
  end.

Fixpoint importLoop (st : St) (r : ImportResult) (i total : nat) (files : list string)
  : St * outcome ImportResult :=
  match files with
  | [] => (st, Ok r)
  | file :: rest =>
      match importOne st r i total file with
      | (st', Ok r') => importLoop st' r' (S i) total rest
      | (st', Err e) => (st', Err e)
      end
  end.

(** [importAll] on the files collected from the source directories;
    [elapsed] is [Date.now() - startTime]. *)
Definition importAll (st : St) (files : list string) (elapsed : Z)
  : St * outcome ImportResult :=
  match importLoop st (initialResult (length files)) 0 (length files) files with
  | (st', Ok r) => (st', Ok (withDuration r elapsed))
  | (st', Err e) => (st', Err e)
  end.

(** The progress callback, when there is one, returns normally. *)
Definition progressReturns : Prop :=
  forall f st current total file,
    onProgress = Some f -> (f st current total file).2 = Ok tt.

End ImportAll.

(** Files entered in one of the three counters. *)
Definition accounted (r : ImportResult) : nat := imported r + skipped r + failed r.

End ImportService.

(** ** EmbeddingService (src/services/EmbeddingService.ts) *)

Module EmbeddingService.

Record EmbeddingResult := mkEmbedding {
  embedding : list Q;
  token_count : nat
}.

(** [Math.ceil(text.length / 4)]. *)
Definition estimateTokens (text : string) : nat := (String.length text + 3) / 4.

(** [{ embedding: new Array(768).fill(0), token_count: 0 }]. *)
Definition zeroEmbedding : EmbeddingResult := mkEmbedding (replicate 768 0%Q) 0.

(** A worker of [embedBatch]: at the head of its [while] loop, waiting for
    the [embed] call it issued for a queue index, or returned. *)
Inductive Worker :=
  | AtLoopHead
  | Awaiting (idx : nat)
  | Returned.

Record Pool := mkPool {
  cursor : nat;
  results : list (option EmbeddingResult);
  workers : list Worker
}.

Section Batch.

(** The embedding server: [respond i text] is the vector it returns to
    the request made for queue entry [i], [None] when that request
    fails (network error, non-2xx status, undecodable body). *)
Variable respond : nat -> string -> option (list Q).

(** [embed(text)] for queue entry [i]; [None] when it throws. *)
Definition embed (i : nat) (text : string) : option EmbeddingResult :=
  match respond i text with
  | Some v => Some (mkEmbedding v (estimateTokens text))
  | None => None
  end.

(** What the [try]/[catch] of the worker stores for queue entry [i]. *)
Definition settle (i : nat) (text : string) : EmbeddingResult :=
  match embed i text with
  | Some r => r
  | None => zeroEmbedding
  end.

Variable texts : list string.

(** State after [new Array(texts.length)] and the creation of
    [Math.min(concurrency, texts.length)] workers. *)
Definition initialPool (concurrency : nat) : Pool :=
  mkPool 0 (replicate (length texts) None)
         (replicate (Nat.min concurrency (length texts)) AtLoopHead).

(** One move of worker [w]. At the loop head it tests the cursor, takes
    the next index and issues the request, or leaves the loop; when its
    request settles it writes [results[index]] and is back at the loop
    head. No [await] separates the loop test from [cursor++], so the
    second test [idx >= queue.length] never fires. *)
Definition stepWorker (w : nat) (p : Pool) : Pool :=
  match workers p !! w with
  | Some AtLoopHead =>
      if cursor p <? length texts then
        mkPool (S (cursor p)) (results p) (<[w := Awaiting (cursor p)]> (workers p))
      else mkPool (cursor p) (results p) (<[w := Returned]> (workers p))
  | Some (Awaiting idx) =>
      match texts !! idx with
      | Some text =>
          mkPool (cursor p) (<[idx := Some (settle idx text)]> (results p))
                 (<[w := AtLoopHead]> (workers p))
      | None => p
      end
  | Some Returned => p
  | None => p
  end.

(** A run under a schedule: the workers move in the order the event
    loop resumes them. *)
Definition run (schedule : list nat) (p : Pool) : Pool :=
  fold_left (fun q w => stepWorker w q) schedule p.

(** [Promise.all(workers)] has resolved. *)
Definition allReturned (p : Pool) : Prop :=
  Forall (fun w => w = Returned) (workers p).

(** The schedule that always resumes the first worker that can move. *)
Fixpoint firstActive (i : nat) (ws : list Worker) : option nat :=
  match ws with
  | [] => None
  | Returned :: r => firstActive (S i) r
  | _ :: _ => Some i
  end.

Fixpoint runEager (fuel : nat) (p : Pool) : Pool :=
  match fuel with
  | 0 => p
  | S f =>
      match firstActive 0 (workers p) with
      | Some w => runEager f (stepWorker w p)
      | None => p
      end
  end.

(** The array a finished [embedBatch] resolves to. *)
Definition expected : list (option EmbeddingResult) :=
  imap (fun i text => Some (settle i text)) texts.

(** What holds of the pool between any two moves. *)
Record poolInv (p : Pool) : Prop := {
  inv_length : length (results p) = length texts;
  inv_cursor : cursor p <= length texts;
  inv_written :
    forall i r, results p !! i = Some (Some r) ->
                exists text, texts !! i = Some text /\ r = settle i text;
  inv_taken :
    forall i, i < cursor p ->
              (exists r, results p !! i = Some (Some r))
              \/ (exists w, workers p !! w = Some (Awaiting i));
  inv_awaiting :
    forall w idx, workers p !! w = Some (Awaiting idx) -> idx < cursor p;
  inv_returned :
    forall w, workers p !! w = Some Returned -> cursor p = length texts
}.

End Batch.

(** Moves a worker still has to make before it returns, its current
    request included. *)
Definition weight (w : Worker) : nat :=
  match w with
  | AtLoopHead => 1
  | Awaiting _ => 2
  | Returned => 0
  end.

Definition totalWeight (ws : list Worker) : nat := sum_list (map weight ws).

(** Work left in a pool over [n] texts. *)
Definition workLeft (n : nat) (p : Pool) : nat :=
  3 * (n - cursor p) + totalWeight (workers p).

End EmbeddingService.

(** ** ChunkIndexer (src/services/ChunkIndexer.ts) *)

Module ChunkIndexer.

Import ChunkManager.

Record ChunkIndexingResult := mkResult {
  totalSessions : nat;
  processedSessions : nat;
  skippedSessions : nat;
  totalChunks : nat;
  errors : nat;
  duration : Z
}.

Record Checkpoint := mkCheckpoint {
  lastProcessedSessionId : option string;
  processedCount : nat;
  cp_totalSessions : nat;
  cp_timestamp : string
}.

(** The checkpoint file: absent, present with content that cannot be read
    back, or holding a saved checkpoint. *)
Inductive CheckpointFile :=
  | NoFile
  | Unreadable
  | Stored (c : Checkpoint).

Definition existsSync (f : CheckpointFile) : bool :=
  match f with NoFile => false | _ => true end.

Record ChunkMetadata := mkMetadata {
  md_session_id : string;
  md_sequence_number : nat;
  md_chunk_type : string;
  md_timestamp : string;
  md_project_path : string;
  md_message_count : nat;
  md_previous_chunk : string;
  md_next_chunk : string;
  md_topic_group : string;
  md_token_count : nat;
  md_processing_date : string
}.

Record ChunkDocument := mkDocument {
  doc_id : string;
  doc_content : string;
  doc_metadata : ChunkMetadata
}.

Definition chunkToDocument (chunk : ConversationChunk) : ChunkDocument :=
  {| doc_id := chunk_id chunk;
     doc_content := content chunk;
     doc_metadata :=
       {| md_session_id := session_id chunk;
          md_sequence_number := sequence_number chunk;
          md_chunk_type := chunk_type chunk;
          md_timestamp := timestamp chunk;
          md_project_path := default "" (project_path chunk);
          md_message_count := message_count chunk;
          md_previous_chunk := default "" (previous_chunk chunk);
          md_next_chunk := default "" (next_chunk chunk);
          md_topic_group := default "" (topic_group chunk);
          md_token_count := token_count chunk;
          md_processing_date := processing_date chunk |} |}.

Section Indexer.

(** Collaborators and runtime of one [indexAll] call. *)
Variable getTime : string -> option Z.
Variable clock : nat -> string.
(** [sessionRepo.findAll()], [Err] when the list cannot be read. *)
Variable findAll : outcome (list Session).
(** [messageRepo.findBySession(id)]. *)
Variable findBySession : string -> outcome (list Message).
(** [vectorStore.upsertChunks(docs, concurrency)]. *)
Variable upsertChunks : list ChunkDocument -> nat -> outcome nat.
(** Whether [fs.writeFileSync] succeeds in the iteration that starts at
    session index [i]. *)
Variable writeSucceeds : nat -> bool.
(** Whether [fs.unlinkSync] succeeds. *)
Variable unlinkSucceeds : bool.
(** [options.onProgress]; [Err] when the callback throws. *)
Variable onProgress : option (nat -> nat -> string -> outcome unit).
(** [new Date().toISOString()] in the iteration that starts at [i]. *)
Variable nowIso : nat -> string.

Variable batchSize : nat.
Variable concurrency : nat.
Variable freshStart : bool.

Definition bumpSkipped (r : ChunkIndexingResult) : ChunkIndexingResult :=
  mkResult (totalSessions r) (processedSessions r) (S (skippedSessions r))
           (totalChunks r) (errors r) (duration r).

Definition bumpErrors (r : ChunkIndexingResult) (n : nat) : ChunkIndexingResult :=
  mkResult (totalSessions r) (processedSessions r) (skippedSessions r)
           (totalChunks r) (errors r + n) (duration r).

Definition bumpProcessed (r : ChunkIndexingResult) (chunks : nat) : ChunkIndexingResult :=
  mkResult (totalSessions r) (S (processedSessions r)) (skippedSessions r)
           (totalChunks r + chunks) (errors r) (duration r).

(** The body of the loop over one batch, for one session. *)
Definition indexOne (r : ChunkIndexingResult) (session : Session)
  : ChunkIndexingResult :=
  match findBySession (s_id session) with
  | Err _ => bumpErrors r 1
  | Ok [] => bumpSkipped r
  | Ok messages =>
      match processSession getTime clock session messages with
      | [] => bumpSkipped r
      | chunks =>
          let sessionChunks := map chunkToDocument chunks in
          match upsertChunks sessionChunks concurrency with
          | Err _ => bumpErrors r (length sessionChunks)
          | Ok _ => bumpProcessed r (length chunks)
          end
      end
  end.

(** [saveCheckpoint]: the write is wrapped in [try]/[catch]; a failure
    is logged and the file is left as it was. *)
Definition saveCheckpoint (i : nat) (file : CheckpointFile) (checkpoint : Checkpoint)
  : CheckpointFile :=
  if writeSucceeds i then Stored checkpoint else file.

Definition callProgress (processed total : nat) (current : string) : outcome unit :=
  match onProgress with
  | Some f => f processed total current
  | None => Ok tt
  end.

(** The [for (let i = startIndex; i < allSessions.length; i += batchSize)]
    loop. Every iteration moves [i] forward, so [fuel] no smaller than
    the number of sessions left is never used up. *)
Fixpoint batchLoop (fuel : nat) (allSessions : list Session) (i : nat)
         (r : ChunkIndexingResult) (file : CheckpointFile)
  : outcome ChunkIndexingResult * CheckpointFile :=
  match fuel with
  | 0 => (Ok r, file)
  | S fuel' =>
      if length allSessions <=? i then (Ok r, file)
      else
        let batch := take batchSize (drop i allSessions) in
        let r' := fold_left indexOne batch r in
        match List.last (map Some batch) None with
        | None => (Err "TypeError: Cannot read properties of undefined", file)
        | Some lastSession =>
            let file' :=
              saveCheckpoint i file
                {| lastProcessedSessionId := Some (s_id lastSession);
                   processedCount := processedSessions r';
                   cp_totalSessions := totalSessions r';
                   cp_timestamp := nowIso i |} in
            match callProgress (i + length batch) (length allSessions)
                               (s_id lastSession) with
            | Err e => (Err e, file')
            | Ok _ => batchLoop fuel' allSessions (i + batchSize) r' file'
            end
        end
  end.

(** [allSessions.findIndex(s => s.id === id)]. *)
Fixpoint findIndex (id : string) (i : nat) (l : list Session) : option nat :=
  match l with
  | [] => None
  | s :: rest => if JS.streq (s_id s) id then Some i else findIndex id (S i) rest
  end.

(** Where the run starts and the processed count it starts from. *)
Definition resume (allSessions : list Session) (file : CheckpointFile) : nat * nat :=
  if negb freshStart && existsSync file then
    match file with
    | Stored c =>
        match lastProcessedSessionId c with
        | Some id =>
            if JS.truthy id then
              match findIndex id 0 allSessions with
              | Some idx => (idx + 1, processedCount c)
              | None => (0, 0)
              end
            else (0, 0)
        | None => (0, 0)
        end
    | _ => (0, 0)
    end
  else (0, 0).

(** [indexAll]; [elapsed] is [Date.now() - startTime]. *)
Definition indexAll (file : CheckpointFile) (elapsed : Z)
  : outcome ChunkIndexingResult * CheckpointFile :=
  match findAll with
  | Err e => (Err e, file)
  | Ok allSessions =>
      let '(startIndex, processed) := resume allSessions file in
      let r0 := mkResult (length allSessions) processed 0 0 0 0 in
      match batchLoop (length allSessions) allSessions startIndex r0 file with
      | (Err e, file') => (Err e, file')
      | (Ok r, file') =>
          if existsSync file' then
            if unlinkSucceeds then
              (Ok (mkResult (totalSessions r) (processedSessions r)
                            (skippedSessions r) (totalChunks r) (errors r) elapsed),
               NoFile)
            else (Err "EACCES: unlink", file')
          else
            (Ok (mkResult (totalSessions r) (processedSessions r)
                          (skippedSessions r) (totalChunks r) (errors r) elapsed),
             file')
      end
  end.

End Indexer.

Definition alwaysWrites : nat -> bool := fun _ => true.

End ChunkIndexer.

(** ** Worked inputs *)

Module Examples.

(** *** Chunking *)

Definition exSession : Session :=
  mkSession "s1" "/logs/s1.jsonl" None None None "2025-01-01T10:00:00.000Z"
            None 3 None None false false "2025-01-01 11:00:00" "2025-01-01 11:00:00".

Definition exMessage (id : nat) (uuid role text ts : string) : Message :=
  mkMessage id uuid "s1" role text ts None None None None None None None
            "2025-01-01 11:00:00".

(** A question about docker, its answer a minute later, and a second
    question about docker forty-four minutes after that answer. *)
Definition exMessages : list Message :=
  [ exMessage 1 "u1" "user" "how do I fix the docker build" "2025-01-01T10:00:00.000Z";
    exMessage 2 "a1" "assistant" "restart docker first" "2025-01-01T10:01:00.000Z";
    exMessage 3 "u2" "user" "docker still fails" "2025-01-01T10:45:00.000Z" ].

Definition exClockNoon : nat -> string := fun _ => "2025-01-02T12:00:00.000Z".
Definition exClockLater : nat -> string := fun _ => "2025-01-02T12:00:01.000Z".

(** A string of [n] copies of [c]. *)
Fixpoint fill (n : nat) (c : ascii) : string :=
  match n with
  | 0 => EmptyString
  | S k => String c (fill k c)
  end.

(** *** Transcripts *)

Definition exSystem : JsonlParser.RawJsonlMessage :=
  JsonlParser.mkRaw (Some "system") (Some "sys1") None (Some "s1")
        (Some "2025-01-01T09:00:00.000Z") None false None None.

Definition exSnapshot : JsonlParser.RawJsonlMessage :=
  JsonlParser.mkRaw (Some "file-history-snapshot") None None None
        (Some "2025-01-01T09:30:00.000Z") None false None None.

Definition exUser : JsonlParser.RawJsonlMessage :=
  JsonlParser.mkRaw (Some "user") (Some "u1") None (Some "s1")
        (Some "2025-01-01T10:00:00.000Z") (Some "/home/dev/project") false None
        (Some (JsonlParser.mkInner (Some "user") (JsonlParser.CString "hello") None)).

(** A system record, a file-history snapshot and one user message. *)
Definition exLines : list (option JsonlParser.RawJsonlMessage) :=
  [Some exSystem; Some exSnapshot; Some exUser].

Definition exQuestion : JsonlParser.RawJsonlMessage :=
  JsonlParser.mkRaw (Some "user") (Some "q1") None (Some "s2")
        (Some "2025-01-01T10:00:00.000Z") (Some "/home/dev/project") false None
        (Some (JsonlParser.mkInner (Some "user")
                 (JsonlParser.CString "how do I fix the docker build") None)).

Definition exAnswer : JsonlParser.RawJsonlMessage :=
  JsonlParser.mkRaw (Some "assistant") (Some "q2") (Some "q1") (Some "s2")
        (Some "2025-01-01T10:01:00.000Z") (Some "/home/dev/project") false None
        (Some (JsonlParser.mkInner (Some "assistant")
                 (JsonlParser.CArray
                    [JsonlParser.BObject
                       (JsonlParser.mkBlock "text" (Some "restart docker first")
                                            None JsonlParser.RAbsent)])
                 (Some "claude-sonnet"))).

(** A question and its answer. *)
Definition exDialogue : list (option JsonlParser.RawJsonlMessage) :=
  [Some exQuestion; Some exAnswer].

(** The question twice, then the answer. *)
Definition exRepeated : list (option JsonlParser.RawJsonlMessage) :=
  [Some exQuestion; Some exQuestion; Some exAnswer].

(** *** Import *)

Definition exNow : string := "2025-01-02 08:00:00".
Definition exNowIso : string := "2025-01-02T08:00:00.000Z".
(** A stand-in for the digest; its value is only stored in [content_hash]. *)
Definition exDigest : string -> string := fun s => s.

Definition exImportFile (db : Store.Db) (path : string)
           (lines : list (option JsonlParser.RawJsonlMessage)) (skipExisting : bool)
  : Store.Db * outcome (option nat) :=
  ImportService.importFile exNow exDigest exNowIso true db path lines skipExisting.

(** The store after a first import of [exLines], and of [exDialogue]. *)
Definition exAfterFirst : Store.Db :=
  (exImportFile Store.emptyDb "/logs/s1.jsonl" exLines true).1.
Definition exAfterDialogue : Store.Db :=
  (exImportFile Store.emptyDb "/logs/s2.jsonl" exDialogue true).1.



Definition exParsed : JsonlParser.ParsedSession :=
  default (JsonlParser.mkParsedSession "" "" None None None None None [])
          (JsonlParser.parseFile "/logs/s1.jsonl" exLines).

(** The transcripts on disk: [exLines], [exDialogue], and nothing else. *)
Definition exFiles (path : string) : list (option JsonlParser.RawJsonlMessage) :=
  if JS.streq path "/logs/s1.jsonl" then exLines
  else if JS.streq path "/logs/s2.jsonl" then exDialogue
  else [].

(** [importFile] of the service over those files. *)
Definition exImport : Store.Db -> string -> bool -> Store.Db * outcome (option nat) :=
  fun db path skipExisting => exImportFile db path (exFiles path) skipExisting.

Definition exThrowingProgress
  : Store.Db -> nat -> nat -> string -> Store.Db * outcome unit :=
  fun db _ _ _ => (db, Err "progress sink closed").

Definition exQuietProgress
  : Store.Db -> nat -> nat -> string -> Store.Db * outcome unit :=
  fun db _ _ _ => (db, Ok tt).

(** *** Embedding *)

Definition exTexts : list string := ["alpha"; "beta"; "gamma"].

(** The server answers every request but the one for entry 1. *)
Definition exRespond : nat -> string -> option (list Q) :=
  fun i _ => if i =? 1 then None else Some [Z.of_nat i # 1; 1 # 2].

(** *** Indexing *)

(** Two stored conversations of one question each, indexed one per
    batch. *)
Definition exSessions : list Session :=
  [ mkSession "s1" "/logs/s1.jsonl" None None None "2025-01-01T10:00:00.000Z"
              None 1 None None false false "2025-01-02 08:00:00" "2025-01-02 08:00:00";
    mkSession "s2" "/logs/s2.jsonl" None None None "2025-01-01T11:00:00.000Z"
              None 1 None None false false "2025-01-02 08:00:00" "2025-01-02 08:00:00" ].

Definition exFindBySession : string -> outcome (list Message) :=
  fun id =>
    Ok [ mkMessage 1 ("u-" +:+ id) id "user" "how do I fix the docker build"
                   "2025-01-01T10:00:00.000Z" None None None None None None None
                   "2025-01-02 08:00:00" ].

Definition exUpsert : list ChunkIndexer.ChunkDocument -> nat -> outcome nat :=
  fun docs _ => Ok (length docs).

Definition exIndexAll (writeSucceeds : nat -> bool)
  : outcome ChunkIndexer.ChunkIndexingResult * ChunkIndexer.CheckpointFile :=
  ChunkIndexer.indexAll
    IsoDate.getTime (fun _ => "2025-01-03T00:00:00.000Z") (Ok exSessions)
    exFindBySession exUpsert writeSucceeds true None
    (fun _ => "2025-01-03T00:00:00.000Z") 1 10 false ChunkIndexer.NoFile 42%Z.

End Examples.

(** * Further models *)

(** ** Vocabulary on strings *)

Module Text.

(** The list without its leading white space. *)
Fixpoint dropSpaces (l : list ascii) : list ascii :=
  match l with
  | [] => []
  | c :: r => if JS.is_space c then dropSpaces r else l
  end.

(** The list does not start, or end, with white space. *)
Definition headNotSpace (l : list ascii) : Prop :=
  match l with [] => True | c :: _ => JS.is_space c = false end.

Definition lastNotSpace (l : list ascii) : Prop := headNotSpace (rev l).

(** The list without its trailing white space. *)
Definition dropEnd (l : list ascii) : list ascii := rev (dropSpaces (rev l)).

(** Neither leading nor trailing white space. *)
Definition trimmed (l : list ascii) : Prop := headNotSpace l /\ lastNotSpace l.

End Text.

(** ** ChunkManager: context windows and the vocabulary of its properties *)

Module Conversation.
Import ChunkManager.

(** A message that takes part in the conversation. *)
Definition isConversational (m : Message) : bool :=
  JS.streq (m_role m) "user" || JS.streq (m_role m) "assistant".

(** The messages a pair holds, the question first. *)
Definition pairMessages (p : MessagePair) : list Message :=
  option_list (userMessage p) ++ option_list (assistantMessage p).

(** A pair as [createMessagePairs] builds it. *)
Definition wellFormedPair (p : MessagePair) : Prop :=
  match userMessage p, assistantMessage p with
  | Some u, Some a =>
      m_role u = "user" /\ m_role a = "assistant"
      /\ pair_timestamp p = JS.or_else (m_timestamp a) (m_timestamp u)
  | Some u, None => m_role u = "user" /\ pair_timestamp p = m_timestamp u
  | None, Some a => m_role a = "assistant" /\ pair_timestamp p = m_timestamp a
  | None, None => False
  end.

(** What a chunk shows of the pair it was built from. *)
Definition pairView (p : MessagePair) : option string * option string * string * nat :=
  (m_content <$> userMessage p, m_content <$> assistantMessage p, pair_timestamp p,
   length (pairMessages p)).

(** The same four fields of a chunk. *)
Definition chunkView (c : ConversationChunk)
  : option string * option string * string * nat :=
  (user_message c, assistant_message c, timestamp c, message_count c).

(** Occurrences of a keyword among the matches. *)
Definition occurrences (k : string) (keywords : list string) : nat :=
  length (List.filter (JS.streq k) keywords).

(** The count an object built by [keywordCounts] holds for a key. *)
Definition countOf (k : string) (acc : list (string * nat)) : nat :=
  match List.find (fun e => JS.streq e.1 k) acc with
  | Some e => e.2
  | None => 0
  end.

Section Groups.
Variable getTime : string -> option Z.

(** Consecutive pairs of a group are no more than thirty minutes apart
    (or carry a timestamp that is not a date). *)
Definition closePairs (g : TopicGroup) : Prop :=
  forall i p q,
    pairs g !! i = Some p -> pairs g !! S i = Some q ->
    gapExceeds30 (getTimeGapMinutes getTime (pair_timestamp p) (pair_timestamp q))
    = false.

(** A group carries the topic of its first pair, every pair of it is on
    a topic similar to that one, and its pairs are close in time. *)
Definition cohesive (g : TopicGroup) : Prop :=
  (exists p0 rest, pairs g = p0 :: rest /\ topic g = extractTopic p0)
  /\ Forall (fun p => isTopicSimilar (topic g) (extractTopic p) = true) (pairs g)
  /\ closePairs g.

(** Every group after the first starts at a topic boundary. *)
Definition separated (groups : list TopicGroup) : Prop :=
  forall i g g' q,
    groups !! i = Some g -> groups !! S i = Some g' ->
    head (pairs g') = Some q ->
    boundary getTime g q = true.

End Groups.

(** [arr.findIndex(f)]; [None] is [-1]. *)
Fixpoint findIndexFrom {A} (f : A -> bool) (i : nat) (l : list A) : option nat :=
  match l with
  | [] => None
  | x :: r => if f x then Some i else findIndexFrom f (S i) r
  end.

(** [arr.slice(start, end)] for integer bounds: a negative bound counts
    from the end of the array. *)
Definition slice {A} (l : list A) (start end_ : Z) : list A :=
  let len := Z.of_nat (length l) in
  let k := if (start <? 0)%Z then Z.max (len + start) 0 else Z.min start len in
  let final := if (end_ <? 0)%Z then Z.max (len + end_) 0 else Z.min end_ len in
  take (Z.to_nat (final - k)) (drop (Z.to_nat k) l).

(** [getAdjacentChunks(chunks, targetChunkId, context = 2)] for an
    integer [context]. *)
Definition getAdjacentChunks (chunks : list ConversationChunk) (targetChunkId : string)
           (context : option Z) : list ConversationChunk :=
  let context := default 2%Z context in
  match findIndexFrom (fun chunk => JS.streq (chunk_id chunk) targetChunkId) 0 chunks with
  | None => []
  | Some targetIndex =>
      let start := Z.max 0 (Z.of_nat targetIndex - context) in
      let end_ :=
        Z.min (Z.of_nat (length chunks)) (Z.of_nat targetIndex + context + 1) in
      slice chunks start end_
  end.

(** No entry holds a larger count than the first one. *)
Definition headMax (l : list (string * nat)) : Prop :=
  match l with
  | [] => True
  | x :: r => Forall (fun e => e.2 <= x.2) r
  end.

End Conversation.

(** ** JsonlParser: the vocabulary of its properties *)

Module Transcript.
Import JsonlParser.

(** The text [parseMessage] extracts from a record. *)
Definition rawContent (raw : RawJsonlMessage) : string :=
  match r_message raw with
  | Some m => extractContent (i_content m)
  | None => ""
  end.

(** A line the loop of [parseFile] passes over: blank or malformed, or
    a system or meta record that is not a summary line. *)
Definition ignorable (line : option RawJsonlMessage) : bool :=
  match line with
  | None => true
  | Some parsed =>
      negb (typeIs parsed "summary") && (typeIs parsed "system" || r_isMeta parsed)
  end.

(** A string of white space only. *)
Definition blank (s : string) : Prop :=
  Forall (fun c => JS.is_space c = true) (list_ascii_of_string s).

(** Every white space character of the string is a plain space. *)
Definition singleLine (s : string) : Prop :=
  Forall (fun c => JS.is_space c = true -> c = " "%char) (list_ascii_of_string s).

(** A message the parser keeps: its timestamp is among those seen, and
    it has an id and text. *)
Definition retained (seen : list string) (m : ParsedMessage) : Prop :=
  pm_timestamp m ∈ seen /\ pm_uuid m <> "" /\ ~ blank (pm_content m).

End Transcript.

(** ** The store: integrity conditions *)

Module Integrity.
Import Store.

(** No ['/'] in the string. *)
Definition noSlash (s : string) : Prop :=
  Forall (fun c => c <> "/"%char) (list_ascii_of_string s).

(** Every message row belongs to a stored session. *)
Definition messagesReferSessions (db : Db) : Prop :=
  Forall (fun m => sessionExists db (m_session_id m) = true) (messages db).

(** The project lookup at the head of [importFile]. *)
Definition projectStep (hasProjectRepo : bool) (db : Db)
           (session : JsonlParser.ParsedSession) : Db * option nat :=
  if hasProjectRepo && JS.otruthy (JsonlParser.ps_project_path session)
  then let '(d, project) :=
         getOrCreate db (default "" (JsonlParser.ps_project_path session)) in
       (d, Some (p_id project))
  else (db, None).

(** The error callback, when there is one, returns normally. *)
Definition errorReturns {St : Type}
           (onError : option (St -> string -> string -> St * outcome unit)) : Prop :=
  forall f st file msg, onError = Some f -> (f st file msg).2 = Ok tt.

End Integrity.

Module MoreExamples.
Import Examples.

(** A store that holds session [s2] and no message. *)
Definition exSessionOnly : Store.Db :=
  match Store.sessionCreate exNow Store.emptyDb
          (Store.mkSessionInput "s2" "/logs/s2.jsonl" None None None
             "2025-01-01T10:00:00.000Z" None None None None None None) with
  | Ok db => db
  | Err _ => Store.emptyDb
  end.

Definition exInput (uuid text : string) : Store.CreateMessageInput :=
  Store.mkMessageInput uuid (Some "s2") "user" text "2025-01-01T10:00:00.000Z"
                       None None None None None None.

(** A record that comes before any record carrying a session id. *)
Definition exOrphan : JsonlParser.RawJsonlMessage :=
  JsonlParser.mkRaw (Some "user") (Some "o1") None None
        (Some "2025-01-01T09:59:00.000Z") None false None
        (Some (JsonlParser.mkInner (Some "user") (JsonlParser.CString "early") None)).

Definition exOrphaned : list (option JsonlParser.RawJsonlMessage) :=
  [Some exOrphan; Some exQuestion].

Definition exOrphanedParsed : JsonlParser.ParsedSession :=
  default (JsonlParser.mkParsedSession "" "" None None None None None [])
          (JsonlParser.parseFile "/logs/o.jsonl" exOrphaned).

Definition exAlwaysFails : Store.Db -> string -> bool -> Store.Db * outcome (option nat) :=
  fun db _ _ => (db, Err "EACCES: permission denied").

End MoreExamples.

(** ** TagRepository (src/repositories/TagRepository.ts) *)

Module TagRepository.

Record Tag := mkTag {
  t_id : nat;
  t_name : string;
  t_color : option string;
  t_description : option string;
  t_created_at : string
}.

(** The tables the tag repository reads and writes: the primary keys of
    [sessions], the rows of [tags] in rowid order with the last rowid
    handed out (AUTOINCREMENT), and the keys of [session_tags]. *)
Record Tables := mkTables {
  session_ids : gset string;
  tags : list Tag;
  tag_seq : nat;
  session_tags : gset (string * nat)
}.

Record CreateTagInput := mkCreateTag {
  ct_name : string;
  ct_color : option string;
  ct_description : option string
}.

Record UpdateTagInput := mkUpdateTag {
  ut_name : option string;
  ut_color : option string;
  ut_description : option string
}.

(** [String.prototype.toLowerCase] on code units below 256: the letters
    A-Z and the Latin-1 capitals (all of 192-222 but the multiplication
    sign) map to the code unit 32 above. *)
Definition lowerLatin1 (c : ascii) : ascii :=
  let n := JS.code c in
  if ((65 <=? n) && (n <=? 90)) || ((192 <=? n) && (n <=? 214))
     || ((216 <=? n) && (n <=? 222))
  then ascii_of_nat (n + 32) else c.

Fixpoint toLowerCase (s : string) : string :=
  match s with
  | EmptyString => EmptyString
  | String c r => String (lowerLatin1 c) (toLowerCase r)
  end.

(** [normalizeName]: [name.toLowerCase().trim()]. *)
Definition normalizeName (name : string) : string := JS.trim (toLowerCase name).

Definition hasId (id : nat) (tag : Tag) : bool := t_id tag =? id.
Definition hasName (name : string) (tag : Tag) : bool := JS.streq (t_name tag) name.

Definition findById (t : Tables) (id : nat) : option Tag :=
  List.find (hasId id) (tags t).

Definition findByName (t : Tables) (name : string) : option Tag :=
  let normalizedName := normalizeName name in
  List.find (hasName normalizedName) (tags t).

(** The rowid AUTOINCREMENT hands out: one more than the largest rowid
    the table ever held. *)
Definition nextId (t : Tables) : nat :=
  S (Nat.max (tag_seq t) (foldr Nat.max 0 (map t_id (tags t)))).

Section Repository.

(** [datetime('now')] of the statement being run. *)
Variable now : string.

(** [create]: [name] is UNIQUE. *)
Definition create (t : Tables) (input : CreateTagInput) : outcome (Tables * Tag) :=
  let normalizedName := normalizeName (ct_name input) in
  if List.existsb (hasName normalizedName) (tags t) then
    Err "UNIQUE constraint failed: tags.name"
  else
    let tag := mkTag (nextId t) normalizedName (ct_color input) (ct_description input)
                     now in
    Ok (mkTables (session_ids t) (tags t ++ [tag]) (nextId t) (session_tags t), tag).

(** [findOrCreate(name, defaults)]. *)
Definition findOrCreate (t : Tables) (name : string)
           (color description : option string) : outcome (Tables * Tag) :=
  match findByName t name with
  | Some existing => Ok (t, existing)
  | None => create t (mkCreateTag name color description)
  end.

Definition noTagFields (input : UpdateTagInput) : bool :=
  match ut_name input, ut_color input, ut_description input with
  | None, None, None => true
  | _, _, _ => false
  end.

(** The row written by the [UPDATE] that [update] assembles. *)
Definition updatedTag (tag : Tag) (input : UpdateTagInput) : Tag :=
  {| t_id := t_id tag;
     t_name := match ut_name input with
               | Some n => normalizeName n
               | None => t_name tag
               end;
     t_color := match ut_color input with Some c => Some c | None => t_color tag end;
     t_description :=
       match ut_description input with Some d => Some d | None => t_description tag end;
     t_created_at := t_created_at tag |}.

(** [update]: a name taken by another row makes the UPDATE fail. *)
Definition update (t : Tables) (id : nat) (input : UpdateTagInput)
  : outcome (Tables * option Tag) :=
  if noTagFields input then Ok (t, findById t id)
  else
    match findById t id with
    | None => Ok (t, None)
    | Some tag =>
        let row := updatedTag tag input in
        if List.existsb (fun other => negb (hasId id other) && hasName (t_name row) other)
                        (tags t)
        then Err "UNIQUE constraint failed: tags.name"
        else
          let t' := mkTables (session_ids t)
                             (map (fun other => if hasId id other then row else other)
                                  (tags t))
                             (tag_seq t) (session_tags t) in
          Ok (t', findById t' id)
    end.

(** [delete]: the rows of [session_tags] that name the tag go with it
    (ON DELETE CASCADE). *)
Definition delete (t : Tables) (id : nat) : Tables * bool :=
  (mkTables (session_ids t)
            (List.filter (fun tag => negb (hasId id tag)) (tags t))
            (tag_seq t)
            (filter (fun st : string * nat => st.2 <> id) (session_tags t)),
   List.existsb (hasId id) (tags t)).

(** [addToSession]: INSERT OR IGNORE skips a pair that is there; a
    foreign key failure is caught and reported as [false]. *)
Definition addToSession (t : Tables) (sessionId : string) (tagId : nat) : Tables * bool :=
  if bool_decide ((sessionId, tagId) ∈ session_tags t) then (t, true)
  else if bool_decide (sessionId ∈ session_ids t) && List.existsb (hasId tagId) (tags t)
  then (mkTables (session_ids t) (tags t) (tag_seq t)
                 ({[ (sessionId, tagId) ]} ∪ session_tags t), true)
  else (t, false).

(** [addToSessionByName]. *)
Definition addToSessionByName (t : Tables) (sessionId tagName : string)
  : outcome (Tables * Tag) :=
  match findOrCreate t tagName None None with
  | Ok (t1, tag) => Ok ((addToSession t1 sessionId (t_id tag)).1, tag)
  | Err e => Err e
  end.

Definition removeFromSession (t : Tables) (sessionId : string) (tagId : nat)
  : Tables * bool :=
  (mkTables (session_ids t) (tags t) (tag_seq t) (session_tags t ∖ {[ (sessionId, tagId) ]}),
   bool_decide ((sessionId, tagId) ∈ session_tags t)).

Definition removeFromSessionByName (t : Tables) (sessionId tagName : string)
  : Tables * bool :=
  match findByName t tagName with
  | None => (t, false)
  | Some tag => removeFromSession t sessionId (t_id tag)
  end.

Definition sessionHasTag (t : Tables) (sessionId : string) (tagId : nat) : bool :=
  bool_decide ((sessionId, tagId) ∈ session_tags t).

(** [countSessions]. *)
Definition countSessions (t : Tables) (tagId : nat) : nat :=
  size (filter (fun st : string * nat => st.2 = tagId) (session_tags t)).

(** The INSERT loop of [setSessionTags]: the pair is the primary key. *)
Fixpoint insertTags (t : Tables) (sessionId : string) (tagIds : list nat)
  : outcome Tables :=
  match tagIds with
  | [] => Ok t
  | tagId :: rest =>
      if bool_decide ((sessionId, tagId) ∈ session_tags t) then
        Err "UNIQUE constraint failed: session_tags.session_id, session_tags.tag_id"
      else if negb (bool_decide (sessionId ∈ session_ids t)
                    && List.existsb (hasId tagId) (tags t)) then
        Err "FOREIGN KEY constraint failed"
      else
        insertTags (mkTables (session_ids t) (tags t) (tag_seq t)
                             ({[ (sessionId, tagId) ]} ∪ session_tags t))
                   sessionId rest
  end.

(** [setSessionTags]: one transaction; an error rolls it back and is
    rethrown. *)
Definition setSessionTags (t : Tables) (sessionId : string) (tagIds : list nat)
  : Tables * outcome unit :=
  let cleared :=
    mkTables (session_ids t) (tags t) (tag_seq t)
             (filter (fun st : string * nat => st.1 <> sessionId) (session_tags t)) in
  match insertTags cleared sessionId tagIds with
  | Ok t' => (t', Ok tt)
  | Err msg => (t, Err msg)
  end.

End Repository.

(** *** Vocabulary of the tag properties *)

(** Names are stored normalized and are unique, and so are ids. *)
Record tagsWellFormed (t : Tables) : Prop := {
  wf_names : NoDup (map t_name (tags t));
  wf_ids : NoDup (map t_id (tags t));
  wf_normal : Forall (fun tag => normalizeName (t_name tag) = t_name tag) (tags t)
}.

End TagRepository.

(** ** MigrationRunner (src/database/migrations/runner.ts) *)

Module MigrationRunner.

Record Migration := mkMigration {
  version : nat;
  name : string;
  sql : string;
  checksum : string
}.

Record AppliedMigration := mkApplied {
  am_version : nat;
  am_name : string;
  am_applied_at : string;
  am_checksum : option string
}.

Record MigrationResult := mkMigrationResult {
  applied : list Migration;
  skipped : nat;
  errors : list (nat * string)
}.

Section Runner.

(** Everything in the database but the [schema_migrations] table, and
    what [db.exec(sql)] does to it; the SQL of a migration leaves the
    recording of the migration to the runner. The table itself is there
    from the first call on ([ensureMigrationsTable]). *)
Context {Schema : Type}.
Variable exec : Schema -> string -> outcome Schema.
(** [datetime('now')]. *)
Variable now : string.

Record Database := mkDatabase {
  schema : Schema;
  schema_migrations : list AppliedMigration
}.

(** [getCurrentVersion]: [MAX(version)], 0 for an empty table. *)
Definition getCurrentVersion (db : Database) : nat :=
  foldr Nat.max 0 (map am_version (schema_migrations db)).

Definition isMigrationApplied (db : Database) (v : nat) : bool :=
  List.existsb (fun row => am_version row =? v) (schema_migrations db).

(** [applyMigration]: the SQL and the record in one transaction;
    [version] is the primary key of [schema_migrations]. *)
Definition applyMigration (db : Database) (migration : Migration) : outcome Database :=
  match exec (schema db) (sql migration) with
  | Err e => Err e
  | Ok schema' =>
      if isMigrationApplied db (version migration) then
        Err "UNIQUE constraint failed: schema_migrations.version"
      else
        Ok (mkDatabase schema'
              (schema_migrations db
               ++ [mkApplied (version migration) (name migration) now
                             (Some (checksum migration))]))
  end.

(** The loop of [migrate]; [currentVersion] was read before it. *)
Fixpoint migrateLoop (currentVersion : nat) (db : Database) (result : MigrationResult)
         (migrations : list Migration) : Database * MigrationResult :=
  match migrations with
  | [] => (db, result)
  | migration :: rest =>
      if version migration <=? currentVersion then
        migrateLoop currentVersion db
                    (mkMigrationResult (applied result) (S (skipped result))
                                       (errors result))
                    rest
      else
        match applyMigration db migration with
        | Ok db' =>
            migrateLoop currentVersion db'
                        (mkMigrationResult (applied result ++ [migration])
                                           (skipped result) (errors result))
                        rest
        | Err message =>
            (db, mkMigrationResult (applied result) (skipped result)
                                   (errors result ++ [(version migration, message)]))
        end
  end.

(** [migrate(migrations)]. *)
Definition migrate (db : Database) (migrations : list Migration)
  : Database * MigrationResult :=
  migrateLoop (getCurrentVersion db) db (mkMigrationResult [] 0 []) migrations.

(** The migrations of [getStatus] that are pending. *)
Definition pending (db : Database) (migrations : list Migration) : list Migration :=
  List.filter (fun m => getCurrentVersion db <? version m) migrations.

End Runner.

End MigrationRunner.

(** ** MessageRepository and SessionRepository: queries and deletions *)

Module MessageRepository.

Import Store.

Definition dquote : ascii := ascii_of_nat 34.
Definition squote : ascii := ascii_of_nat 39.

(** [s.startsWith(c)] and [s.endsWith(c)] for a one-character [c]. *)
Definition startsWith (c : ascii) (s : string) : bool :=
  match s with
  | String d _ => Ascii.eqb c d
  | EmptyString => false
  end.

Definition endsWith (c : ascii) (s : string) : bool :=
  startsWith c (JS.rev_string "" s).

(** The [replace] of [escapeFtsQuery]: every double quote is written
    twice. *)
Fixpoint doubleQuotes (s : string) : string :=
  match s with
  | EmptyString => EmptyString
  | String c r =>
      if Ascii.eqb c dquote then String dquote (String dquote (doubleQuotes r))
      else String c (doubleQuotes r)
  end.

(** [escapeFtsQuery]. *)
Definition escapeFtsQuery (query : string) : string :=
  let trimmed := JS.trim query in
  if (startsWith dquote trimmed && endsWith dquote trimmed)
     || (startsWith squote trimmed && endsWith squote trimmed)
  then trimmed
  else String dquote (doubleQuotes trimmed) +:+ String dquote "".

(** The string starts and ends with the quote character [c]. *)
Definition delimitedBy (c : ascii) (s : string) : Prop :=
  startsWith c s = true /\ endsWith c s = true.

(** [SessionRepository.delete]: the messages and the tag associations of
    the session go with it (ON DELETE CASCADE). *)
Definition sessionDelete (db : Db) (id : string) : Db * bool :=
  match sessions db !! id with
  | None => (db, false)
  | Some _ =>
      (mkDb (base.delete id (sessions db))
            (List.filter (fun m => negb (JS.streq (m_session_id m) id)) (messages db))
            (message_seq db) (projects db) (project_seq db) (tags db)
            (filter (fun st : string * nat => st.1 <> id) (session_tags db)),
       true)
  end.

End MessageRepository.

(** ** VectorStore (src/services/VectorStore.ts) *)

Module VectorStore.

Import ChunkIndexer EmbeddingService.

(** The argument of one [collection.upsert] call. *)
Record UpsertRequest := mkUpsert {
  rq_ids : list string;
  rq_embeddings : list (option (list Q));
  rq_documents : list string;
  rq_metadatas : list ChunkMetadata
}.

Definition UPSERT_BATCH_SIZE : nat := 50.

(** [arr.slice(i, end)] for [0 <= i <= end]. *)
Definition sliceNat {A} (l : list A) (i end_ : nat) : list A :=
  take (end_ - i) (drop i l).

Section Store.

(** Whether the store was initialized, and [collection.upsert]: [Err]
    when it throws. *)
Variable initialized : bool.
Variable upsert : UpsertRequest -> outcome unit.

(** The request built for the sub-batch that starts at [i]. *)
Definition requestAt (chunks : list ChunkDocument)
           (embeddings : list (option EmbeddingResult)) (i : nat) : UpsertRequest :=
  let end_ := Nat.min (i + UPSERT_BATCH_SIZE) (length chunks) in
  let batchChunks := sliceNat chunks i end_ in
  let batchEmbeddings := sliceNat embeddings i end_ in
  let batchContents := sliceNat (map doc_content chunks) i end_ in
  {| rq_ids := map doc_id batchChunks;
     rq_embeddings := map (fmap embedding) batchEmbeddings;
     rq_documents := batchContents;
     rq_metadatas := map doc_metadata batchChunks |}.

(** The [for (let i = 0; i < chunks.length; i += UPSERT_BATCH_SIZE)] loop;
    [sent] are the requests the collection took so far. The loop needs
    no more rounds than there are chunks. *)
Fixpoint upsertLoop (fuel : nat) (chunks : list ChunkDocument)
         (embeddings : list (option EmbeddingResult)) (i : nat)
         (sent : list UpsertRequest) : list UpsertRequest * outcome unit :=
  match fuel with
  | 0 => (sent, Ok tt)
  | S fuel' =>
      if length chunks <=? i then (sent, Ok tt)
      else
        let request := requestAt chunks embeddings i in
        match upsert request with
        | Ok _ =>
            upsertLoop fuel' chunks embeddings (i + UPSERT_BATCH_SIZE) (sent ++ [request])
        | Err e => (sent, Err e)
        end
  end.

(** [upsertChunks(chunks, concurrency)] given the array [embedBatch]
    resolved to: the requests the collection took, and the result. *)
Definition upsertChunks (chunks : list ChunkDocument)
           (embeddings : list (option EmbeddingResult))
  : list UpsertRequest * outcome nat :=
  if negb initialized then
    ([], Err "VectorStore not initialized. Call initialize() first.")
  else
    match upsertLoop (length chunks) chunks embeddings 0 [] with
    | (sent, Ok _) => (sent, Ok (length chunks))
    | (sent, Err e) => (sent, Err e)
    end.

(** A request the collection took: a run of at most
    [UPSERT_BATCH_SIZE] chunks, its fields aligned. *)
Definition wellSized (chunks : list ChunkDocument)
           (embeddings : list (option EmbeddingResult)) (r : UpsertRequest) : Prop :=
  upsert r = Ok tt
  /\ 1 <= length (rq_ids r) <= UPSERT_BATCH_SIZE
  /\ length (rq_documents r) = length (rq_ids r)
  /\ length (rq_metadatas r) = length (rq_ids r)
  /\ (length embeddings = length chunks ->
      length (rq_embeddings r) = length (rq_ids r)).

End Store.

End VectorStore.

(** ** VectorStore: a chunk with its neighbours *)

Module ChunkContext.

Import ChunkIndexer.

Record VectorSearchResult := mkSearchResult {
  vr_id : string;
  vr_content : string;
  vr_metadata : ChunkMetadata;
  vr_distance : Q;
  vr_similarity : Q
}.

(** The documents and metadata of the collection, by id. *)
Definition Collection := gmap string (string * ChunkMetadata).

(** The collection after the documents were upserted: a document
    replaces the one stored under its id. *)
Definition upserted (col : Collection) (docs : list ChunkDocument) : Collection :=
  fold_left (fun c d => <[doc_id d := (doc_content d, doc_metadata d)]> c) docs col.

(** The result [getChunkWithContext] builds for a stored document. *)
Definition resultOf (d : ChunkDocument) : VectorSearchResult :=
  mkSearchResult (doc_id d) (doc_content d) (doc_metadata d) 0 1.

(** [collection.get({ ids: [id] })] made into a result; [None] when no
    id comes back. *)
Definition getById (col : Collection) (id : string) : option VectorSearchResult :=
  match col !! id with
  | Some (content, metadata) => Some (mkSearchResult id content metadata 0 1)
  | None => None
  end.

(** [getChunkWithContext(chunkId)] on an initialized store: the chunk,
    the previous and the next one. *)
Definition getChunkWithContext (col : Collection) (chunkId : string)
  : option VectorSearchResult * option VectorSearchResult * option VectorSearchResult :=
  match getById col chunkId with
  | None => (None, None, None)
  | Some chunk =>
      let prevId := md_previous_chunk (vr_metadata chunk) in
      let nextId := md_next_chunk (vr_metadata chunk) in
      (Some chunk,
       if JS.truthy prevId then getById col prevId else None,
       if JS.truthy nextId then getById col nextId else None)
  end.

End ChunkContext.

Module TagTables.
Import TagRepository.

(** Every row of [session_tags] names a session and a tag that exist. *)
Definition tagsRefer (t : Tables) : Prop :=
  forall s g, (s, g) ∈ session_tags t ->
    s ∈ session_ids t /\ List.existsb (hasId g) (tags t) = true.

Definition consistent (t : Tables) : Prop := tagsWellFormed t /\ tagsRefer t.

(** What [setSessionTags] needs to go through: distinct ids of tags
    that exist and, unless there is nothing to insert, a session that
    exists. *)
Definition assignable (t : Tables) (s : string) (ids : list nat) : Prop :=
  NoDup ids
  /\ (ids = [] \/ s ∈ session_ids t)
  /\ Forall (fun g => List.existsb (hasId g) (tags t) = true) ids.

Definition exTags : Tables :=
  mkTables {[ "s1" ]}
           [mkTag 1 "bug" None None "2025-01-01 00:00:00";
            mkTag 2 "idea" None None "2025-01-02 00:00:00"]
           2 {[ ("s1", 1) ]}.

End TagTables.

Module Migrations.
Import MigrationRunner.

(** The row [applyMigration] records for a migration. *)
Definition recordOf (now : string) (m : Migration) : AppliedMigration :=
  mkApplied (version m) (name m) now (Some (checksum m)).

(** A schema that is the list of the statements run on it. *)
Definition exExec (schema : list string) (sql : string) : outcome (list string) :=
  Ok (schema ++ [sql]).

Definition exMigrations : list Migration :=
  [mkMigration 1 "initial_schema" "CREATE TABLE sessions (id TEXT)" "c1";
   mkMigration 2 "add_projects" "CREATE TABLE projects (id INTEGER)" "c2"].

Definition exMigrated : Database :=
  mkDatabase ["CREATE TABLE sessions (id TEXT)"]
             [mkApplied 1 "initial_schema" "2025-01-01 00:00:00" (Some "c1")].

End Migrations.

(** * Properties *)

(** ** The embedding on the examples of the specification *)

Module ModelChecks.
Import ChunkManager Examples.

(** Messages [U1, A1, U2] give the pairs (U1, A1) and (U2, none). *)
Example pairing_user_assistant_user :
  map (fun p => (m_uuid <$> userMessage p, m_uuid <$> assistantMessage p,
                 pair_timestamp p))
      (createMessagePairs exMessages)
  = [ (Some "u1", Some "a1", "2025-01-01T10:01:00.000Z");
      (Some "u2", None, "2025-01-01T10:45:00.000Z") ].
Proof. reflexivity. Qed.

(** 12,000 characters without a sentence end are cut at 10,000. *)
Example truncate_hard :
  truncateIfNeeded (fill 12000 "a") 10000 = fill 10000 "a" +:+ truncationMarker.
Proof. vm_compute. reflexivity. Qed.

(** With a period at position 9,500 the cut is at that period. *)
Example truncate_at_period :
  truncateIfNeeded (fill 9500 "a" +:+ "." +:+ fill 2499 "b") 10000
  = fill 9500 "a" +:+ "." +:+ truncationMarker.
Proof. vm_compute. reflexivity. Qed.

(** Among keywords that occur equally often the first one met wins. *)
Example topic_first_of_most_frequent :
  extractTopic
    (mkPair (Some (exMessage 1 "u" "user" "Git and React; react, GIT." "t")) None "t")
  = "git".
Proof. vm_compute. reflexivity. Qed.

(** Part of a word is no keyword. *)
Example topic_whole_words_only :
  extractTopic
    (mkPair (Some (exMessage 1 "u" "user" "testing the api_key of dockerfiles" "t"))
            None "t")
  = "general".
Proof. vm_compute. reflexivity. Qed.

(** A file with the same message twice stores it once and goes on with the
    messages after it. *)
Example duplicate_message_in_file :
  (exImportFile Store.emptyDb "/logs/s2.jsonl" exRepeated true).2 = Ok (Some 2)
  /\ map m_uuid
         (Store.messages (exImportFile Store.emptyDb "/logs/s2.jsonl" exRepeated true).1)
     = ["q1"; "q2"].
Proof. split; vm_compute; reflexivity. Qed.

End ModelChecks.

Module ChunkManagerFacts.

Import ChunkManager Examples.

Section Emission.

Variable clock : nat -> string.
Variable session : Session.

Lemma emitPairs_length g flag ps seq :
  length (emitPairs clock session g flag ps seq) = length ps.
Proof.
  revert seq; induction ps as [|p ps IH]; intros seq; simpl; [done|].
  by rewrite IH.
Qed.

Lemma emitPairs_lookup g flag ps seq k p :
  ps !! k = Some p ->
  emitPairs clock session g flag ps seq !! k
  = Some (buildChunk clock session g p (seq + k + 1)
                     (bool_decide (k + 1 < length ps) || flag)).
Proof.
  revert seq k; induction ps as [|q ps IH]; intros seq k Hk; [done|].
  destruct k as [|k]; simpl in *.
  - inversion Hk; subst q. f_equal.
    replace (seq + 0 + 1) with (S seq) by lia.
    f_equal. f_equal.
    destruct ps; simpl; repeat case_bool_decide; simpl in *; try done; lia.
  - rewrite (IH (S seq) k Hk).
    replace (S seq + k + 1) with (seq + S k + 1) by lia.
    do 3 f_equal.
    apply bool_decide_ext. simpl. lia.
Qed.

Lemma emitGroups_length groups seq :
  length (emitGroups clock session groups seq)
  = length (concat (map pairs groups)).
Proof.
  revert seq; induction groups as [|g gs IH]; intros seq; simpl; [done|].
  by rewrite !length_app, emitPairs_length, IH.
Qed.

Lemma emitGroups_linked groups :
  nonEmptyGroups groups ->
  forall seq k c,
    emitGroups clock session groups seq !! k = Some c ->
    linked clock session seq (length (emitGroups clock session groups seq)) k c.
Proof.
  induction 1 as [|g gs Hg Hgs IH]; intros seq k c Hc; [done|].
  simpl in Hc |- *. rewrite length_app, emitPairs_length.
  destruct (decide (k < length (pairs g))) as [Hlt|Hge].
  - rewrite lookup_app_l in Hc by (by rewrite emitPairs_length).
    destruct (lookup_lt_is_Some_2 (pairs g) k Hlt) as [p Hp].
    rewrite (emitPairs_lookup _ _ _ _ _ _ Hp) in Hc.
    inversion Hc; subst c; clear Hc.
    unfold linked, buildChunk; simpl.
    repeat split.
    + replace (seq + k + 1 - 1) with (seq + k) by lia. done.
    + replace (seq + k + 1 + 1) with (seq + k + 2) by lia.
      destruct gs as [|g' gs'].
      * simpl. rewrite Nat.add_0_r, orb_false_r. done.
      * assert (0 < length (emitGroups clock session (g' :: gs')
                                       (seq + length (pairs g)))) as Hpos.
        { rewrite emitGroups_length. simpl. rewrite length_app.
          inversion Hgs as [|? ? Hg' _]; subst.
          destruct (pairs g'); [done|simpl; lia]. }
        rewrite (bool_decide_eq_true_2 (_ < _ + _)) by lia.
        simpl. rewrite orb_true_r. done.
  - rewrite lookup_app_r in Hc by (rewrite emitPairs_length; lia).
    rewrite emitPairs_length in Hc.
    specialize (IH _ _ _ Hc).
    destruct IH as (H1 & H2 & H3 & H4 & H5).
    unfold linked.
    replace (seq + k + 1) with (seq + length (pairs g) + (k - length (pairs g)) + 1) by lia.
    replace (seq + k) with (seq + length (pairs g) + (k - length (pairs g))) by lia.
    replace (seq + k + 2) with (seq + length (pairs g) + (k - length (pairs g)) + 2) by lia.
    repeat split; try done.
    rewrite H4. apply (f_equal (fun b : bool => if b then _ else _)).
    apply bool_decide_ext. lia.
Qed.

End Emission.

Section Grouping.

Variable getTime : string -> option Z.

Lemma detectLoop_app groups cur rest :
  detectLoop getTime groups cur rest = groups ++ detectLoop getTime [] cur rest.
Proof.
  revert groups cur; induction rest as [|p rest IH]; intros groups cur; simpl.
  - done.
  - destruct (boundary getTime cur p).
    + rewrite (IH (groups ++ [cur])), (IH [cur]). by rewrite <- app_assoc.
    + apply IH.
Qed.

Lemma detectLoop_step cur p rest :
  detectLoop getTime [] cur (p :: rest)
  = if boundary getTime cur p
    then cur :: detectLoop getTime [] (mkGroup (extractTopic p) [p]) rest
    else detectLoop getTime [] (mkGroup (topic cur) (pairs cur ++ [p])) rest.
Proof.
  simpl. destruct (boundary getTime cur p); [|done].
  by rewrite detectLoop_app.
Qed.

Lemma detectLoop_nonEmpty cur rest :
  pairs cur <> [] -> nonEmptyGroups (detectLoop getTime [] cur rest).
Proof.
  revert cur; induction rest as [|p rest IH]; intros cur Hcur.
  - simpl. by repeat constructor.
  - rewrite detectLoop_step. destruct (boundary getTime cur p).
    + constructor; [done|]. by apply IH.
    + apply IH. simpl. by destruct (pairs cur).
Qed.

Lemma detectTopicGroups_nonEmpty ps :
  nonEmptyGroups (detectTopicGroups getTime ps).
Proof.
  destruct ps as [|p0 rest]; [constructor|].
  by apply detectLoop_nonEmpty.
Qed.

(** Flattening the groups gives the pairs back, in order. *)
Lemma detectLoop_flatten cur rest :
  concat (map pairs (detectLoop getTime [] cur rest)) = pairs cur ++ rest.
Proof.
  revert cur; induction rest as [|p rest IH]; intros cur.
  - simpl. by rewrite app_nil_r.
  - rewrite detectLoop_step. destruct (boundary getTime cur p); simpl.
    + by rewrite IH.
    + rewrite IH. simpl. by rewrite <- app_assoc.
Qed.

Lemma detectTopicGroups_flatten ps :
  concat (map pairs (detectTopicGroups getTime ps)) = ps.
Proof.
  destruct ps as [|p0 rest]; [done|].
  unfold detectTopicGroups. by rewrite detectLoop_flatten.
Qed.

Lemma groupIndexOf_head cur rest k :
  k < length (pairs cur) ->
  groupIndexOf (detectLoop getTime [] cur rest) k = Some 0.
Proof.
  revert cur; induction rest as [|p rest IH]; intros cur Hk.
  - simpl. by rewrite (proj2 (Nat.ltb_lt _ _) Hk).
  - rewrite detectLoop_step. destruct (boundary getTime cur p).
    + simpl. by rewrite (proj2 (Nat.ltb_lt _ _) Hk).
    + apply IH. simpl. rewrite length_app. lia.
Qed.

Lemma farApart_gap t1 t2 :
  farApart getTime t1 t2 -> gapExceeds30 (getTimeGapMinutes getTime t1 t2) = true.
Proof.
  intros (a & b & Ha & Hb & Hgap).
  unfold getTimeGapMinutes. rewrite Ha, Hb. simpl.
  apply negb_true_iff. apply not_true_is_false. intros Hle.
  apply Qle_bool_iff in Hle. unfold Qle in Hle. simpl in Hle. lia.
Qed.

Lemma last_snoc_lookup (l : list MessagePair) (d p : MessagePair) :
  l <> [] -> l !! (length l - 1) = Some p -> List.last l d = p.
Proof.
  intros Hne Hl.
  destruct (exists_last Hne) as (l' & x & ->).
  rewrite List.last_last.
  rewrite length_app in Hl. simpl in Hl.
  rewrite lookup_app_r in Hl by lia.
  replace (length l' + 1 - 1 - length l') with 0 in Hl by lia.
  simpl in Hl. congruence.
Qed.

(** A gap of more than thirty minutes between the pairs at positions
    [i] and [i + 1] always starts a new group at [i + 1]. *)
Lemma detectLoop_split rest :
  forall cur i p q,
    pairs cur <> [] ->
    length (pairs cur) <= S i ->
    (pairs cur ++ rest) !! i = Some p ->
    (pairs cur ++ rest) !! S i = Some q ->
    farApart getTime (pair_timestamp p) (pair_timestamp q) ->
    exists gi,
      groupIndexOf (detectLoop getTime [] cur rest) i = Some gi
      /\ groupIndexOf (detectLoop getTime [] cur rest) (S i) = Some (S gi).
Proof.
  induction rest as [|r rest IH]; intros cur i p q Hne Hlen Hp Hq Hfar.
  - rewrite app_nil_r in Hq. apply lookup_lt_Some in Hq. lia.
  - rewrite detectLoop_step.
    destruct (decide (S i = length (pairs cur))) as [Heq|Hneq].
    + (* the transition is the one decided now *)
      assert (q = r) as ->.
      { rewrite lookup_app_r in Hq by lia.
        rewrite Heq, Nat.sub_diag in Hq. simpl in Hq. congruence. }
      assert (List.last (pairs cur) r = p) as Hlast.
      { apply last_snoc_lookup; [done|].
        rewrite lookup_app_l in Hp by lia.
        replace (length (pairs cur) - 1) with i by lia. done. }
      assert (boundary getTime cur r = true) as ->.
      { unfold boundary, lastPair. rewrite Hlast.
        rewrite (farApart_gap _ _ Hfar). done. }
      exists 0. simpl.
      rewrite (proj2 (Nat.ltb_lt i _)) by lia.
      rewrite (proj2 (Nat.ltb_ge (S i) _)) by lia.
      rewrite Heq, Nat.sub_diag.
      rewrite groupIndexOf_head by (simpl; lia). done.
    + destruct (boundary getTime cur r).
      * (* a group was closed before position [i] *)
        destruct (IH (mkGroup (extractTopic r) [r]) (i - length (pairs cur)) p q)
          as (gi & Hi & HSi); simpl; try done; try lia.
        { rewrite lookup_app_r in Hp by lia. done. }
        { rewrite lookup_app_r in Hq by lia.
          replace (S i - length (pairs cur)) with (S (i - length (pairs cur)))
            in Hq by lia.
          done. }
        exists (S gi). simpl.
        rewrite (proj2 (Nat.ltb_ge i _)) by lia.
        rewrite (proj2 (Nat.ltb_ge (S i) _)) by lia.
        rewrite Hi.
        replace (S i - length (pairs cur)) with (S (i - length (pairs cur))) by lia.
        rewrite HSi. done.
      * apply (IH (mkGroup (topic cur) (pairs cur ++ [r])) i p q); simpl.
        -- by destruct (pairs cur).
        -- rewrite length_app. simpl. lia.
        -- by rewrite <- app_assoc.
        -- by rewrite <- app_assoc.
        -- done.
Qed.

Lemma detectTopicGroups_split ps i p q :
  ps !! i = Some p ->
  ps !! S i = Some q ->
  farApart getTime (pair_timestamp p) (pair_timestamp q) ->
  exists gi,
    groupIndexOf (detectTopicGroups getTime ps) i = Some gi
    /\ groupIndexOf (detectTopicGroups getTime ps) (S i) = Some (S gi).
Proof.
  intros Hp Hq Hfar. destruct ps as [|p0 rest]; [done|].
  unfold detectTopicGroups.
  apply (detectLoop_split rest (mkGroup (extractTopic p0) [p0]) i p q);
    simpl; try done; lia.
Qed.

End Grouping.

Section Process.

Variable getTime : string -> option Z.

Lemma processSession_emit clock session messages :
  processSession getTime clock session messages
  = emitGroups clock session (detectTopicGroups getTime (conversationPairs messages)) 0.
Proof.
  unfold processSession, conversationPairs.
  by destruct (List.filter _ messages).
Qed.

Lemma processSession_length clock session messages :
  length (processSession getTime clock session messages)
  = length (conversationPairs messages).
Proof.
  rewrite processSession_emit, emitGroups_length.
  by rewrite detectTopicGroups_flatten.
Qed.

Lemma processSession_linked clock session messages k c :
  processSession getTime clock session messages !! k = Some c ->
  linked clock session 0
         (length (processSession getTime clock session messages)) k c.
Proof.
  rewrite processSession_emit. apply emitGroups_linked.
  apply detectTopicGroups_nonEmpty.
Qed.

Lemma emitPairs_clock clock1 clock2 session g flag ps seq :
  map withoutProcessingDate (emitPairs clock1 session g flag ps seq)
  = map withoutProcessingDate (emitPairs clock2 session g flag ps seq).
Proof.
  revert seq; induction ps as [|p ps IH]; intros seq; simpl; [done|].
  by rewrite IH.
Qed.

Lemma emitGroups_clock clock1 clock2 session groups seq :
  map withoutProcessingDate (emitGroups clock1 session groups seq)
  = map withoutProcessingDate (emitGroups clock2 session groups seq).
Proof.
  revert seq; induction groups as [|g gs IH]; intros seq; simpl; [done|].
  rewrite !map_app, IH. f_equal. apply emitPairs_clock.
Qed.

Lemma emitPairs_dates clock session g flag ps n :
  map processing_date (emitPairs clock session g flag ps n)
  = map clock (List.seq (S n) (length ps)).
Proof.
  revert n; induction ps as [|p ps IH]; intros n; simpl; [done|].
  by rewrite IH.
Qed.

Lemma emitGroups_dates clock session groups n :
  map processing_date (emitGroups clock session groups n)
  = map clock (List.seq (S n) (length (emitGroups clock session groups n))).
Proof.
  revert n; induction groups as [|g gs IH]; intros n; simpl; [done|].
  rewrite length_app, seq_app, !map_app, emitPairs_dates, emitPairs_length.
  f_equal. rewrite IH. do 2 f_equal.
Qed.

(** C4, amended: [processSession] is deterministic in every field but
    [processing_date]. Two invocations on equal (session, messages),
    whenever they are made, return chunk lists that agree in every field
    of every chunk except [processing_date]; that field of the chunk
    numbered [n] is the wall clock as read while the chunk is built. *)
Theorem processSession_deterministic_up_to_clock
        clock1 clock2 session messages :
  map withoutProcessingDate (processSession getTime clock1 session messages)
  = map withoutProcessingDate (processSession getTime clock2 session messages)
  /\ map processing_date (processSession getTime clock1 session messages)
     = map clock1
           (List.seq 1 (length (processSession getTime clock1 session messages))).
Proof.
  rewrite !processSession_emit. split.
  - apply emitGroups_clock.
  - apply emitGroups_dates.
Qed.

(** C5: adjacency chain integrity. The chunk emitted at position [k]
    (0-based) has sequence number [k + 1]; the first chunk has no
    [previous_chunk] and every later one has the [chunk_id] of the chunk
    before it; the last chunk has no [next_chunk] and every earlier one
    has the [chunk_id] of the chunk after it. *)
Theorem adjacency_chain_integrity clock session messages k c :
  processSession getTime clock session messages !! k = Some c ->
  sequence_number c = S k
  /\ chunk_id c = chunkIdOf session (S k)
  /\ match k with
     | 0 => previous_chunk c = None
     | S k' =>
         exists c',
           processSession getTime clock session messages !! k' = Some c'
           /\ previous_chunk c = Some (chunk_id c')
     end
  /\ (if bool_decide (S k = length (processSession getTime clock session messages))
      then next_chunk c = None
      else exists c',
          processSession getTime clock session messages !! S k = Some c'
          /\ next_chunk c = Some (chunk_id c')).
Proof.
  intros Hc.
  pose proof (lookup_lt_Some _ _ _ Hc) as Hk.
  destruct (processSession_linked _ _ _ _ _ Hc) as (Hseq & Hid & Hprev & Hnext & _).
  simpl in *. replace (k + 1) with (S k) in * by lia.
  repeat split; try done.
  - destruct k as [|k']; [done|].
    destruct (lookup_lt_is_Some_2 (processSession getTime clock session messages) k')
      as [c' Hc']; [lia|].
    exists c'. split; [done|].
    destruct (processSession_linked _ _ _ _ _ Hc') as (_ & Hid' & _).
    simpl in Hid'. rewrite Hid', Hprev.
    replace (k' + 1) with (S k') by lia. done.
  - destruct (decide (S k = length (processSession getTime clock session messages)))
      as [HN|HN].
    + rewrite (bool_decide_eq_true_2 _ HN).
      rewrite Hnext. rewrite bool_decide_eq_false_2 by lia. done.
    + rewrite (bool_decide_eq_false_2 _ HN).
      destruct (lookup_lt_is_Some_2 (processSession getTime clock session messages) (S k))
        as [c' Hc']; [lia|].
      exists c'. split; [done|].
      destruct (processSession_linked _ _ _ _ _ Hc') as (_ & Hid' & _).
      simpl in Hid'. rewrite Hid', Hnext.
      rewrite bool_decide_eq_true_2 by lia.
      do 2 f_equal. lia.
Qed.

(** C6, amended: two consecutive message pairs whose timestamps parse
    and lie more than thirty minutes apart, whatever their topics and so
    in particular when they carry the same keyword, fall into different,
    consecutive topic groups; the adjacency chain is not broken there:
    the chunk of the first pair has the [chunk_id] of the chunk of the
    second as its [next_chunk], and the second has the first as its
    [previous_chunk]. *)
Theorem time_gap_splits_group_chain_continuous
        clock session messages i p q :
  conversationPairs messages !! i = Some p ->
  conversationPairs messages !! S i = Some q ->
  farApart getTime (pair_timestamp p) (pair_timestamp q) ->
  exists gi c c',
    groupIndexOf (detectTopicGroups getTime (conversationPairs messages)) i = Some gi
    /\ groupIndexOf (detectTopicGroups getTime (conversationPairs messages)) (S i)
       = Some (S gi)
    /\ processSession getTime clock session messages !! i = Some c
    /\ processSession getTime clock session messages !! S i = Some c'
    /\ next_chunk c = Some (chunk_id c')
    /\ previous_chunk c' = Some (chunk_id c).
Proof.
  intros Hp Hq Hfar.
  destruct (detectTopicGroups_split getTime _ _ _ _ Hp Hq Hfar) as (gi & Hi & HSi).
  pose proof (lookup_lt_Some _ _ _ Hq) as Hlen.
  rewrite <- (processSession_length clock session) in Hlen.
  destruct (lookup_lt_is_Some_2 (processSession getTime clock session messages) i)
    as [c Hc]; [lia|].
  destruct (lookup_lt_is_Some_2 (processSession getTime clock session messages) (S i))
    as [c' Hc']; [lia|].
  exists gi, c, c'.
  destruct (processSession_linked _ _ _ _ _ Hc) as (_ & Hid & _ & Hnext & _).
  destruct (processSession_linked _ _ _ _ _ Hc') as (_ & Hid' & Hprev' & _).
  simpl in *. repeat split; try done.
  - rewrite Hnext, Hid'. rewrite bool_decide_eq_true_2 by lia.
    do 2 f_equal. lia.
  - rewrite Hprev', Hid.
    rewrite (proj2 (Nat.ltb_lt 1 (S (i + 1)))) by lia.
    do 2 f_equal. lia.
Qed.

End Process.

(** C4 as stated fails: the same session and messages chunked under two
    clock readings give different chunk lists. *)
Lemma processSession_clock_dependent :
  processSession IsoDate.getTime exClockNoon exSession exMessages
  <> processSession IsoDate.getTime exClockLater exSession exMessages.
Proof.
  intros H. apply (f_equal (map processing_date)) in H.
  vm_compute in H. discriminate H.
Qed.

(** The chain at the first chunk of the docker conversation. *)
Lemma adjacency_chain_integrity_witness :
  exists c,
    processSession IsoDate.getTime exClockNoon exSession exMessages !! 0 = Some c
    /\ sequence_number c = 1
    /\ chunk_id c = "conv_s1_pair_1"
    /\ previous_chunk c = None
    /\ exists c',
        processSession IsoDate.getTime exClockNoon exSession exMessages !! 1 = Some c'
        /\ next_chunk c = Some (chunk_id c').
Proof.
  eexists. split; [reflexivity|].
  exact (adjacency_chain_integrity IsoDate.getTime exClockNoon exSession exMessages
                                   0 _ eq_refl).
Defined.

(** C6 as stated fails: two pairs on the same keyword, forty-four minutes
    apart, are split into two groups, yet the chain links them. *)
Lemma time_gap_chain_not_broken :
  (exists p q,
      conversationPairs exMessages !! 0 = Some p
      /\ conversationPairs exMessages !! 1 = Some q
      /\ extractTopic p = extractTopic q
      /\ farApart IsoDate.getTime (pair_timestamp p) (pair_timestamp q))
  /\ groupIndexOf (detectTopicGroups IsoDate.getTime (conversationPairs exMessages)) 0
     = Some 0
  /\ groupIndexOf (detectTopicGroups IsoDate.getTime (conversationPairs exMessages)) 1
     = Some 1
  /\ ~ chainBrokenAt
        (processSession IsoDate.getTime exClockNoon exSession exMessages) 0.
Proof.
  split; [|split; [reflexivity|split; [reflexivity|]]].
  - do 2 eexists. repeat split; try reflexivity.
    exists 1735725660000%Z, 1735728300000%Z. repeat split; try reflexivity.
  - intros Hbroken.
    destruct (Hbroken _ _ eq_refl eq_refl) as [Hnext|Hprev];
      [apply Hnext|apply Hprev]; reflexivity.
Qed.

(** The two docker pairs, forty-four minutes apart. *)
Lemma time_gap_splits_group_witness :
  exists gi c c',
    groupIndexOf (detectTopicGroups IsoDate.getTime (conversationPairs exMessages)) 0
    = Some gi
    /\ groupIndexOf (detectTopicGroups IsoDate.getTime (conversationPairs exMessages)) 1
       = Some (S gi)
    /\ processSession IsoDate.getTime exClockNoon exSession exMessages !! 0 = Some c
    /\ processSession IsoDate.getTime exClockNoon exSession exMessages !! 1 = Some c'
    /\ next_chunk c = Some (chunk_id c')
    /\ previous_chunk c' = Some (chunk_id c).
Proof.
  eapply (time_gap_splits_group_chain_continuous IsoDate.getTime exClockNoon
            exSession exMessages 0).
  - reflexivity.
  - reflexivity.
  - exists 1735725660000%Z, 1735728300000%Z. repeat split; reflexivity.
Defined.

End ChunkManagerFacts.

Module JsonlParserFacts.
Import JsonlParser Examples.

Lemma ltb_lt a b : String.ltb a b = true <-> String_as_OT.lt a b.
Proof.
  unfold String.ltb. rewrite <- String_as_OT.cmp_lt. unfold String_as_OT.cmp.
  destruct (String.compare a b); split; congruence.
Qed.

Lemma ltb_irrefl a : String.ltb a a = false.
Proof.
  apply not_true_is_false. intros H. apply ltb_lt in H.
  by apply String_as_OT.lt_not_eq in H.
Qed.

Lemma ltb_trans a b c :
  String.ltb a b = true -> String.ltb b c = true -> String.ltb a c = true.
Proof.
  rewrite !ltb_lt. apply String_as_OT.lt_trans.
Qed.

Lemma truthy_true s : JS.truthy s = true <-> s <> "".
Proof.
  unfold JS.truthy, JS.streq. rewrite negb_true_iff.
  destruct (String.eqb_spec s ""); split; congruence.
Qed.

Lemma isMinimum_snoc m l ts :
  isMinimum m l ->
  isMinimum (if String.ltb ts m then ts else m) (l ++ [ts]).
Proof.
  intros [Hin Hmin]. destruct (String.ltb ts m) eqn:Hlt; split.
  - set_solver.
  - intros t [Ht| ->%list_elem_of_singleton]%elem_of_app.
    + apply not_true_is_false. intros Htts.
      pose proof (ltb_trans _ _ _ Htts Hlt) as Hc.
      rewrite (Hmin t Ht) in Hc. discriminate.
    + apply ltb_irrefl.
  - set_solver.
  - intros t [Ht| ->%list_elem_of_singleton]%elem_of_app; [by apply Hmin|done].
Qed.

Lemma isMaximum_snoc m l ts :
  isMaximum m l ->
  isMaximum (if String.ltb m ts then ts else m) (l ++ [ts]).
Proof.
  intros [Hin Hmax]. destruct (String.ltb m ts) eqn:Hlt; split.
  - set_solver.
  - intros t [Ht| ->%list_elem_of_singleton]%elem_of_app.
    + apply not_true_is_false. intros Htts.
      pose proof (ltb_trans _ _ _ Hlt Htts) as Hc.
      rewrite (Hmax t Ht) in Hc. discriminate.
    + apply ltb_irrefl.
  - set_solver.
  - intros t [Ht| ->%list_elem_of_singleton]%elem_of_app; [by apply Hmax|done].
Qed.

Lemma isMinimum_singleton ts : isMinimum ts [ts].
Proof.
  split; [set_solver|]. intros t ->%list_elem_of_singleton. apply ltb_irrefl.
Qed.

Lemma isMaximum_singleton ts : isMaximum ts [ts].
Proof.
  split; [set_solver|]. intros t ->%list_elem_of_singleton. apply ltb_irrefl.
Qed.

Lemma parseMessage_timestamp raw sid m :
  parseMessage raw sid = Some m ->
  exists ts, r_timestamp raw = Some ts /\ JS.truthy ts = true.
Proof.
  unfold parseMessage.
  destruct (r_uuid raw) as [uuid|]; [|done].
  destruct (r_timestamp raw) as [ts|]; [|done].
  destruct (JS.truthy ts) eqn:Htruthy; [intros _; eauto|].
  by destruct (JS.truthy uuid).
Qed.

Lemma parseLine_inv st seen line :
  spanInv st seen ->
  spanInv (parseLine st line)
          (seen ++ match trackedOf line with Some ts => [ts] | None => [] end).
Proof.
  intros [Hs He Hm].
  destruct line as [parsed|]; simpl; [|by rewrite app_nil_r].
  unfold skipped.
  destruct (typeIs parsed "summary") eqn:Hsum; simpl.
  { rewrite app_nil_r. by split. }
  destruct (typeIs parsed "system" || r_isMeta parsed) eqn:Hsys; simpl.
  { rewrite app_nil_r. by split. }
  destruct (r_timestamp parsed) as [ts|] eqn:Hts.
  - destruct (JS.truthy ts) eqn:Htruthy.
    + apply truthy_true in Htruthy.
      split; simpl.
      * unfold earlier. destruct (st_startedAt st) as [m|].
        -- destruct Hs as [Hne Hmin].
           rewrite (proj2 (truthy_true m) Hne). simpl.
           pose proof (isMinimum_snoc _ _ ts Hmin) as Hsn.
           destruct (String.ltb ts m); by split.
        -- subst seen. split; [done|]. apply isMinimum_singleton.
      * unfold later. destruct (st_endedAt st) as [m|].
        -- destruct He as [Hne Hmax].
           rewrite (proj2 (truthy_true m) Hne). simpl.
           pose proof (isMaximum_snoc _ _ ts Hmax) as Hsn.
           destruct (String.ltb m ts); by split.
        -- subst seen. split; [done|]. apply isMaximum_singleton.
      * intros _. by destruct seen.
    + rewrite app_nil_r. split; simpl; try done.
      destruct (typeIs parsed "user" || typeIs parsed "assistant"); [|done].
      destruct (parseMessage parsed _) as [m|] eqn:Hpm; [|done].
      apply parseMessage_timestamp in Hpm as (ts' & Hts' & Htr).
      congruence.
  - rewrite app_nil_r. split; simpl; try done.
    destruct (typeIs parsed "user" || typeIs parsed "assistant"); [|done].
    destruct (parseMessage parsed _) as [m|] eqn:Hpm; [|done].
    apply parseMessage_timestamp in Hpm as (ts' & Hts' & Htr).
    congruence.
Qed.

Lemma fold_parseLine_inv lines st seen :
  spanInv st seen ->
  spanInv (fold_left parseLine lines st) (seen ++ trackedTimestamps lines).
Proof.
  revert st seen; induction lines as [|line lines IH]; intros st seen Hinv; simpl.
  - by rewrite app_nil_r.
  - apply (parseLine_inv _ _ line) in Hinv.
    apply IH in Hinv. unfold trackedTimestamps. simpl.
    destruct (trackedOf line); simpl in *.
    + by rewrite <- app_assoc in Hinv.
    + by rewrite app_nil_r in Hinv.
Qed.

Lemma initialState_inv : spanInv initialState [].
Proof. by split. Qed.

(** C7, amended: [parseFile] computes [started_at] / [ended_at] as the
    least / greatest timestamp, in string order, over the records that
    carry a non-empty timestamp and are neither summary lines nor system
    or meta records. Records that are not retained as content (other
    record types, content records dropped for want of an id or text) do
    count; system and meta records do not. *)
Theorem session_span_over_tracked_records filePath lines session :
  parseFile filePath lines = Some session ->
  exists lo hi,
    ps_started_at session = Some lo
    /\ ps_ended_at session = Some hi
    /\ isMinimum lo (trackedTimestamps lines)
    /\ isMaximum hi (trackedTimestamps lines).
Proof.
  unfold parseFile. destruct lines as [|l0 lines]; [done|].
  set (st := fold_left parseLine (l0 :: lines) initialState).
  pose proof (fold_parseLine_inv (l0 :: lines) _ _ initialState_inv) as [Hs He Hm].
  fold st in Hs, He, Hm. simpl app in *.
  destruct (st_sessionId st) as [sid|]; [|done].
  destruct (negb (JS.truthy sid) || bool_decide (st_messages st = [])) eqn:Hguard; [done|].
  apply orb_false_elim in Hguard as [_ Hmsgs].
  apply bool_decide_eq_false in Hmsgs. specialize (Hm Hmsgs).
  intros [= <-]. simpl.
  destruct (st_startedAt st) as [lo|]; [|done].
  destruct (st_endedAt st) as [hi|]; [|done].
  destruct Hs as [_ Hs]. destruct He as [_ He].
  by exists lo, hi.
Qed.

(** C7 as stated fails: a system record carries the earliest timestamp of
    the file and the session does not start there. *)
Lemma system_record_outside_span :
  exists session,
    parseFile "/logs/s1.jsonl" exLines = Some session
    /\ ps_started_at session = Some "2025-01-01T09:30:00.000Z"
    /\ isMinimum "2025-01-01T09:00:00.000Z" (carriedTimestamps exLines)
    /\ ~ isMinimum "2025-01-01T09:30:00.000Z" (carriedTimestamps exLines).
Proof.
  eexists. split; [reflexivity|]. split; [reflexivity|]. split.
  - split; [set_solver|].
    intros t Ht. vm_compute in Ht.
    repeat (apply elem_of_cons in Ht as [->|Ht]; [reflexivity|]).
    by apply elem_of_nil in Ht.
  - intros [_ Hmin].
    specialize (Hmin "2025-01-01T09:00:00.000Z").
    assert ("2025-01-01T09:00:00.000Z" ∈ carriedTimestamps exLines) as Hin
      by (vm_compute; set_solver).
    specialize (Hmin Hin). vm_compute in Hmin. discriminate.
Qed.

(** The span of the example transcript: the snapshot, which is not retained,
    starts it; the system record does not. *)
Lemma session_span_witness :
  exists session,
    parseFile "/logs/s1.jsonl" exLines = Some session
    /\ exists lo hi,
        ps_started_at session = Some lo
        /\ ps_ended_at session = Some hi
        /\ isMinimum lo (trackedTimestamps exLines)
        /\ isMaximum hi (trackedTimestamps exLines).
Proof.
  eexists. split; [reflexivity|].
  apply (session_span_over_tracked_records "/logs/s1.jsonl" exLines).
  reflexivity.
Defined.

End JsonlParserFacts.

Module ImportAllFacts.
Import ImportService Examples.

Section Loop.
Context {St : Type}.
Variable importFileFn : St -> string -> bool -> St * outcome (option nat).
Variable onProgress : option (St -> nat -> nat -> string -> St * outcome unit).
Variable onError : option (St -> string -> string -> St * outcome unit).
Variable skipExistingOpt : option bool.

Lemma catchFile_counts st r file msg st' r' :
  catchFile onError st r file msg = (st', Ok r') ->
  r' = countFailed r file msg.
Proof.
  unfold catchFile. destruct (callError onError st file msg) as [st1 [u|e]]; congruence.
Qed.

Lemma callProgress_returns st current total file :
  progressReturns onProgress ->
  (callProgress onProgress st current total file).2 = Ok tt.
Proof.
  intros Hret. unfold callProgress.
  destruct onProgress as [f|] eqn:Hf; [|done]. by apply Hret.
Qed.

(** Every file is entered in the error list as often as it is counted
    as failed. *)
Lemma importOne_errors st r i total file st' r' :
  importOne importFileFn onProgress onError skipExistingOpt st r i total file
  = (st', Ok r') ->
  totalFiles r' = totalFiles r
  /\ length (errors r') + failed r = length (errors r) + failed r'.
Proof.
  unfold importOne.
  destruct (importFileFn st file _) as [st1 [res|msg]].
  - destruct (callProgress onProgress st1 (i + 1) total file) as [st2 [u|e]].
    + intros [= <- <-]. destruct res as [[|n]|]; simpl; lia.
    + intros ->%catchFile_counts. destruct res as [[|n]|]; simpl;
        rewrite length_app; simpl; lia.
  - intros ->%catchFile_counts. simpl. rewrite length_app. simpl. lia.
Qed.

Lemma importOne_accounted st r i total file st' r' :
  progressReturns onProgress ->
  importOne importFileFn onProgress onError skipExistingOpt st r i total file
  = (st', Ok r') ->
  accounted r' = S (accounted r).
Proof.
  intros Hret. unfold importOne, accounted.
  destruct (importFileFn st file _) as [st1 [res|msg]].
  - pose proof (callProgress_returns st1 (i + 1) total file Hret) as Hp.
    destruct (callProgress onProgress st1 (i + 1) total file) as [st2 [u|e]];
      simpl in Hp; [|done].
    intros [= <- <-]. destruct res as [[|n]|]; simpl; lia.
  - intros ->%catchFile_counts. simpl. lia.
Qed.

Lemma importLoop_errors files :
  forall st r i total st' r',
    importLoop importFileFn onProgress onError skipExistingOpt st r i total files
    = (st', Ok r') ->
    totalFiles r' = totalFiles r
    /\ length (errors r') + failed r = length (errors r) + failed r'.
Proof.
  induction files as [|file files IH]; intros st r i total st' r'; simpl.
  - intros [= <- <-]. lia.
  - destruct (importOne importFileFn onProgress onError skipExistingOpt st r i total file)
      as [st1 [r1|e]] eqn:Hone; [|done].
    intros Hloop. apply importOne_errors in Hone. apply IH in Hloop. lia.
Qed.

Lemma importLoop_accounted files :
  progressReturns onProgress ->
  forall st r i total st' r',
    importLoop importFileFn onProgress onError skipExistingOpt st r i total files
    = (st', Ok r') ->
    accounted r' = accounted r + length files.
Proof.
  intros Hret.
  induction files as [|file files IH]; intros st r i total st' r'; simpl.
  - intros [= <- <-]. lia.
  - destruct (importOne importFileFn onProgress onError skipExistingOpt st r i total file)
      as [st1 [r1|e]] eqn:Hone; [|done].
    intros Hloop. apply importOne_accounted in Hone; [|done].
    apply IH in Hloop. lia.
Qed.

(** C10, amended: when the progress callback, if any, returns normally,
    every [ImportResult] that [importAll] returns has
    [imported + skipped + failed = totalFiles], with [totalFiles] the
    number of files found, and its error list has one entry per failed
    file. (The error list matches [failed] in every returned result.) *)
Theorem importAll_accounts_for_every_file st files elapsed st' r :
  progressReturns onProgress ->
  importAll importFileFn onProgress onError skipExistingOpt st files elapsed
  = (st', Ok r) ->
  totalFiles r = length files
  /\ imported r + skipped r + failed r = totalFiles r
  /\ length (errors r) = failed r.
Proof.
  intros Hret. unfold importAll.
  destruct (importLoop importFileFn onProgress onError skipExistingOpt st _ 0
                       (length files) files) as [st1 [r1|e]] eqn:Hloop; [|done].
  intros [= <- <-]. simpl.
  pose proof (importLoop_errors _ _ _ _ _ _ _ Hloop) as [Htot Herr].
  pose proof (importLoop_accounted _ Hret _ _ _ _ _ _ Hloop) as Hacc.
  unfold accounted in Hacc. simpl in *. lia.
Qed.

End Loop.

(** C10 as stated fails: a progress callback that throws makes the one
    file count as imported and as failed. *)
Lemma throwing_progress_counts_file_twice :
  exists r,
    (importAll exImport (Some exThrowingProgress) None None Store.emptyDb
               ["/logs/s1.jsonl"] 5%Z).2 = Ok r
    /\ totalFiles r = 1
    /\ imported r = 1
    /\ failed r = 1
    /\ imported r + skipped r + failed r = 2.
Proof.
  eexists. split; [vm_compute; reflexivity|].
  repeat split; reflexivity.
Qed.

(** Three files, one of them without content, under a progress callback
    that returns. *)
Lemma importAll_accounts_witness :
  exists db r,
    importAll exImport (Some exQuietProgress) None None Store.emptyDb
              ["/logs/s1.jsonl"; "/logs/s2.jsonl"; "/logs/none.jsonl"] 5%Z
    = (db, Ok r)
    /\ totalFiles r = 3
    /\ imported r + skipped r + failed r = totalFiles r
    /\ length (errors r) = failed r.
Proof.
  eexists _, _. split; [vm_compute; reflexivity|].
  eapply (importAll_accounts_for_every_file exImport (Some exQuietProgress) None None
            Store.emptyDb ["/logs/s1.jsonl"; "/logs/s2.jsonl"; "/logs/none.jsonl"]
            5%Z).
  - intros f st current total file [= <-]. reflexivity.
  - vm_compute. reflexivity.
Defined.

End ImportAllFacts.

Module ImportFacts.
Import Store JsonlParser ImportService Examples.

Section Facts.
Variable now : string.
Variable md5 : string -> string.
Variable nowIso : string.
Variable hasProjectRepo : bool.

(** *** Frame lemmas of the repository operations *)

Lemma getOrCreate_frame db path :
  sessions (getOrCreate db path).1 = sessions db
  /\ messages (getOrCreate db path).1 = messages db
  /\ message_seq (getOrCreate db path).1 = message_seq db
  /\ tags (getOrCreate db path).1 = tags db
  /\ session_tags (getOrCreate db path).1 = session_tags db.
Proof. unfold getOrCreate. by destruct (findByPath db path). Qed.

Lemma getOrCreate_exists db path :
  projectExists (getOrCreate db path).1 (Some (p_id (getOrCreate db path).2)) = true.
Proof.
  unfold getOrCreate. destruct (findByPath db path) as [p|] eqn:Hfind; simpl.
  - unfold findByPath in Hfind. apply find_some in Hfind as [Hin _].
    apply existsb_exists. exists p. split; [done|]. apply Nat.eqb_refl.
  - rewrite existsb_app. simpl. rewrite Nat.eqb_refl. by rewrite orb_true_r.
Qed.

Lemma messageCreate_frame db input db' :
  messageCreate now md5 db input = Ok db' ->
  sessions db' = sessions db
  /\ tags db' = tags db
  /\ session_tags db' = session_tags db
  /\ projects db' = projects db.
Proof.
  unfold messageCreate. destruct (mi_session_id input); [|done].
  destruct (uuidExists db _); [done|].
  destruct (negb _); [done|]. by intros [= <-].
Qed.

Lemma createManyLoop_frame inputs :
  forall db created db' created',
    createManyLoop now md5 db inputs created = Ok (db', created') ->
    sessions db' = sessions db
    /\ tags db' = tags db
    /\ session_tags db' = session_tags db
    /\ projects db' = projects db.
Proof.
  induction inputs as [|input inputs IH]; intros db created db' created'; simpl.
  - by intros [= <- <-].
  - destruct (messageCreate now md5 db input) as [db1|msg] eqn:Hc.
    + intros Hloop. apply IH in Hloop as (-> & -> & -> & ->).
      by apply messageCreate_frame in Hc.
    + destruct (includesAt uniqueFailed msg); [apply IH|done].
Qed.

Lemma createMany_frame db inputs :
  sessions (createMany now md5 db inputs).1 = sessions db
  /\ tags (createMany now md5 db inputs).1 = tags db
  /\ session_tags (createMany now md5 db inputs).1 = session_tags db
  /\ projects (createMany now md5 db inputs).1 = projects db.
Proof.
  unfold createMany.
  destruct (createManyLoop now md5 db inputs 0) as [[db' n]|msg] eqn:Hloop; [|done].
  by apply createManyLoop_frame in Hloop.
Qed.



(** *** Re-import *)

Lemma uuidExists_messages db db' u :
  messages db' = messages db -> uuidExists db' u = uuidExists db u.
Proof. unfold uuidExists. by intros ->. Qed.

Lemma messageCreate_cases db input :
  match messageCreate now md5 db input with
  | Ok db' =>
      is_Some (mi_session_id input)
      /\ uuidExists db' (mi_uuid input) = true
      /\ (forall u, uuidExists db u = true -> uuidExists db' u = true)
  | Err msg =>
      if includesAt uniqueFailed msg
      then uuidExists db (mi_uuid input) = true /\ is_Some (mi_session_id input)
      else True
  end.
Proof.
  unfold messageCreate. destruct (mi_session_id input) as [sid|]; [|done].
  destruct (uuidExists db (mi_uuid input)) eqn:Hu; [by split|].
  destruct (negb (sessionExists db sid)); [done|].
  unfold uuidExists. simpl.
  split; [done|]. split.
  - rewrite existsb_app. simpl.
    unfold JS.streq. rewrite String.eqb_refl. by rewrite orb_true_r.
  - intros u Hex. rewrite existsb_app, Hex. done.
Qed.

Lemma allStored_mono db db' inputs :
  (forall u, uuidExists db u = true -> uuidExists db' u = true) ->
  allStored db inputs -> allStored db' inputs.
Proof.
  intros Hmono Hall. eapply Forall_impl; [exact Hall|].
  intros i [Hu Hsid]. split; [by apply Hmono|done].
Qed.

(** After the loop of [createMany] every input is in the table,
    inserted now or found there. *)
Lemma createManyLoop_stores inputs :
  forall db created db' created',
    createManyLoop now md5 db inputs created = Ok (db', created') ->
    (forall u, uuidExists db u = true -> uuidExists db' u = true)
    /\ allStored db' inputs.
Proof.
  induction inputs as [|input inputs IH]; intros db created db' created'; simpl.
  - intros [= <- <-]. split; [done|constructor].
  - pose proof (messageCreate_cases db input) as Hcase.
    destruct (messageCreate now md5 db input) as [db1|msg].
    + destruct Hcase as (Hsid & Hnew & Hmono).
      intros Hloop. apply IH in Hloop as [Hmono' Hall].
      split; [intros u Hu; by apply Hmono', Hmono|].
      constructor; [|done]. split; [by apply Hmono'|done].
    + destruct (includesAt uniqueFailed msg); [|done].
      destruct Hcase as [Hu Hsid].
      intros Hloop. apply IH in Hloop as [Hmono' Hall].
      split; [done|]. constructor; [|done]. split; [by apply Hmono'|done].
Qed.

(** When every input is in the table already, the loop inserts nothing. *)
Lemma createManyLoop_duplicates inputs :
  forall db created,
    allStored db inputs ->
    createManyLoop now md5 db inputs created = Ok (db, created).
Proof.
  induction inputs as [|input inputs IH]; intros db created Hall; simpl; [done|].
  inversion Hall as [|? ? [Hu [sid Hsid]] Hrest]; subst.
  unfold messageCreate. rewrite Hsid, Hu. simpl. by apply IH.
Qed.

Lemma sessionUpdate_messages db id input :
  messages (sessionUpdate now db id input) = messages db.
Proof.
  unfold sessionUpdate. destruct (noFields input); [done|].
  by destruct (sessions db !! id).
Qed.

Lemma sessionUpdate_exists db id input :
  sessionExists (sessionUpdate now db id input) id = sessionExists db id
  /\ isStub (sessionUpdate now db id input) id = isStub db id.
Proof.
  unfold sessionUpdate, sessionExists, isStub.
  destruct (noFields input); [done|].
  destruct (sessions db !! id) as [s|] eqn:Hs; simpl; [|by rewrite Hs].
  rewrite lookup_insert_eq. simpl. done.
Qed.

(** What a run that got past the guard leaves behind. *)
Lemma importSession_leaves db session skipExisting db1 n :
  reachesInsertion db session skipExisting = true ->
  importSession now md5 nowIso hasProjectRepo db session skipExisting
  = (db1, Ok (Some n)) ->
  sessionExists db1 (ps_id session) = true
  /\ isStub db1 (ps_id session) = false
  /\ allStored db1 (map messageInput (ps_messages session))
  /\ exists row,
      sessions db1 !! ps_id session = Some row /\ s_message_count row = n.
Proof.
  unfold reachesInsertion, importSession. intros Hreach%negb_true_iff. rewrite Hreach.
  destruct (if hasProjectRepo && JS.otruthy (ps_project_path session)
            then let '(d, project) :=
                   getOrCreate db (default "" (ps_project_path session)) in
                 (d, Some (p_id project))
            else (db, None)) as [db0 projectId] eqn:Hpre.
  assert (sessions db0 = sessions db /\ projectExists db0 projectId = true)
    as [Hs0 Hpe].
  { destruct (hasProjectRepo && _); [|by inversion Hpre].
    pose proof (getOrCreate_frame db (default "" (ps_project_path session)))
      as (? & _).
    pose proof (getOrCreate_exists db (default "" (ps_project_path session))).
    destruct (getOrCreate db _). by inversion Hpre; subst. }
  intros Hrun.
  assert (exists db2 row2,
             (if sessionExists db (ps_id session) && isStub db (ps_id session)
              then updateFromImport now db0 (ps_id session)
                                    (sessionInput nowIso session projectId)
              else if negb (sessionExists db (ps_id session))
                   then sessionCreate now db0 (sessionInput nowIso session projectId)
                   else Ok db0) = Ok db2
             /\ sessions db2 !! (ps_id session) = Some row2 /\ s_is_stub row2 = false)
    as (db2 & row2 & Hstep & Hrow2 & Hflag2).
  { destruct (sessionExists db (ps_id session)) eqn:Hex; simpl in Hreach |- *.
    - apply bool_decide_eq_true in Hex as [row Hrow].
      unfold isStub in *. rewrite Hrow in *.
      destruct (s_is_stub row) eqn:Hst.
      + unfold updateFromImport. rewrite Hs0, Hrow.
        simpl in_project_id. rewrite Hpe. simpl.
        eexists _, _. split; [done|]. simpl. by rewrite lookup_insert_eq.
      + exists db0, row. by rewrite Hs0.
    - unfold sessionCreate.
      assert (sessionExists db0 (in_id (sessionInput nowIso session projectId)) = false)
        as ->.
      { unfold sessionExists in *. simpl. by rewrite Hs0. }
      simpl in_project_id. rewrite Hpe. simpl.
      eexists _, _. split; [done|]. simpl. by rewrite lookup_insert_eq. }
  rewrite Hstep in Hrun.
  pose proof (createMany_frame db2 (map messageInput (ps_messages session)))
    as (Hs3 & _).
  unfold createMany in *.
  destruct (createManyLoop now md5 db2 _ 0) as [[db3 created]|msg] eqn:Hloop;
    simpl in *; [|done].
  apply createManyLoop_stores in Hloop as [_ Hall].
  inversion Hrun; subst db1 n; clear Hrun.
  pose proof (sessionUpdate_exists db3 (ps_id session)
                (mkUpdateInput None (Some created) None None None))
    as [Hex' Hstub'].
  rewrite Hex', Hstub'. unfold sessionExists, isStub. rewrite Hs3, Hrow2.
  split; [by apply bool_decide_eq_true|].
  split; [done|]. split.
  - eapply allStored_mono; [|exact Hall].
    intros u. by rewrite (uuidExists_messages _ _ _ (sessionUpdate_messages _ _ _)).
  - unfold sessionUpdate. simpl. rewrite Hs3, Hrow2. simpl.
    eexists. split; [apply lookup_insert_eq|done].
Qed.

(** Rows of the messages table under a second run on the same file. *)
Lemma reimport_keeps_rows db session skipFirst db1 n skipSecond :
  reachesInsertion db session skipFirst = true ->
  importSession now md5 nowIso hasProjectRepo db session skipFirst = (db1, Ok (Some n)) ->
  exists db2,
    importSession now md5 nowIso hasProjectRepo db1 session skipSecond = (db2, Ok (Some 0))
    /\ messages db2 = messages db1
    /\ (skipSecond = true -> db2 = db1)
    /\ (skipSecond = false ->
        exists row, sessions db2 !! ps_id session = Some row
                    /\ s_message_count row = 0).
Proof.
  intros Hreach Hrun.
  destruct (importSession_leaves _ _ _ _ _ Hreach Hrun)
    as (Hex & Hstub & Hall & row & Hrow & _).
  unfold importSession. rewrite Hex, Hstub. simpl.
  destruct skipSecond; simpl.
  { exists db1. repeat split; try done. }
  destruct (if hasProjectRepo && JS.otruthy (ps_project_path session)
            then let '(d, project) :=
                   getOrCreate db1 (default "" (ps_project_path session)) in
                 (d, Some (p_id project))
            else (db1, None)) as [db0 projectId] eqn:Hpre.
  assert (sessions db0 = sessions db1 /\ messages db0 = messages db1)
    as [Hs0 Hm0].
  { destruct (hasProjectRepo && _); [|by inversion Hpre].
    pose proof (getOrCreate_frame db1 (default "" (ps_project_path session)))
      as (? & ? & _).
    destruct (getOrCreate db1 _). by inversion Hpre; subst. }
  unfold createMany.
  rewrite createManyLoop_duplicates.
  2:{ eapply allStored_mono; [|exact Hall].
      intros u. by rewrite (uuidExists_messages _ _ _ Hm0). }
  eexists. split; [done|].
  rewrite sessionUpdate_messages. split; [done|]. split; [done|].
  intros _. unfold sessionUpdate. simpl. rewrite Hs0, Hrow. simpl.
  eexists. split; [apply lookup_insert_eq|done].
Qed.

(** *** The persisted count and the rows stored *)

Lemma countBySession_messages db db' id :
  messages db' = messages db -> countBySession db' id = countBySession db id.
Proof. unfold countBySession. by intros ->. Qed.

(** The loop of [createMany] adds one row to the session for every
    message it counts. *)
Lemma createManyLoop_rows id inputs :
  Forall (fun i => mi_session_id i = None \/ mi_session_id i = Some id) inputs ->
  forall db created db' created',
    createManyLoop now md5 db inputs created = Ok (db', created') ->
    countBySession db' id + created = countBySession db id + created'.
Proof.
  induction 1 as [|input inputs Hin Hall IH]; intros db created db' created'; simpl.
  - intros [= <- <-]. lia.
  - unfold messageCreate.
    destruct (mi_session_id input) as [sid|] eqn:Hsid; [|done].
    destruct Hin as [Hin|Hin]; [done|]. injection Hin as ->.
    destruct (uuidExists db (mi_uuid input)); [apply IH|].
    destruct (negb (sessionExists db id)); [done|].
    intros Hloop%IH. revert Hloop. unfold countBySession. simpl.
    rewrite List.filter_app, length_app. simpl.
    unfold JS.streq. rewrite String.eqb_refl. simpl. lia.
Qed.

(** Every message of a parsed session carries the id of the session, or
    none when it came before the first record that has one. *)
Lemma parseLine_session_ids st line :
  Forall (fun m => pm_session_id m = None \/ pm_session_id m = st_sessionId st)
         (st_messages st) ->
  (forall sid, st_sessionId st = Some sid -> JS.truthy sid = true) ->
  Forall (fun m => pm_session_id m = None
                   \/ pm_session_id m = st_sessionId (parseLine st line))
         (st_messages (parseLine st line))
  /\ (forall sid, st_sessionId (parseLine st line) = Some sid -> JS.truthy sid = true).
Proof.
  intros Hall Htruthy. destruct line as [parsed|]; simpl; [|done].
  destruct (typeIs parsed "summary"); [done|].
  destruct (typeIs parsed "system" || r_isMeta parsed); [done|].
  set (sid' := if negb (JS.otruthy (st_sessionId st)) && JS.otruthy (r_sessionId parsed)
               then r_sessionId parsed else st_sessionId st).
  assert (Forall (fun m => pm_session_id m = None \/ pm_session_id m = sid')
                 (st_messages st)) as Hall'.
  { unfold sid'. destruct (st_sessionId st) as [sid|] eqn:Hs.
    - simpl. rewrite (Htruthy sid eq_refl). done.
    - eapply Forall_impl; [exact Hall|]. intros m [Hm|Hm]; left; congruence. }
  assert (forall sid, sid' = Some sid -> JS.truthy sid = true) as Htruthy'.
  { unfold sid'. intros sid.
    destruct (negb (JS.otruthy (st_sessionId st)) && JS.otruthy (r_sessionId parsed))
      eqn:Hnew; [|apply Htruthy].
    apply andb_true_iff in Hnew as [_ Hnew]. intros Heq. by rewrite Heq in Hnew. }
  destruct (r_timestamp parsed) as [ts|]; [destruct (JS.truthy ts)|]; simpl;
    (split; [|done]);
    (destruct (typeIs parsed "user" || typeIs parsed "assistant"); [|done]);
    (destruct (parseMessage parsed sid') as [m|] eqn:Hpm; [|done]);
    (apply Forall_app; split; [done|]);
    (constructor; [|constructor]); right;
    revert Hpm; unfold parseMessage;
    repeat (case_match; try done); by intros [= <-].
Qed.

Lemma parseFile_session_ids filePath lines session :
  parseFile filePath lines = Some session ->
  Forall (fun i => mi_session_id i = None \/ mi_session_id i = Some (ps_id session))
         (map messageInput (ps_messages session)).
Proof.
  unfold parseFile. destruct lines as [|l0 lines]; [done|].
  assert (forall ls st,
             Forall (fun m => pm_session_id m = None
                              \/ pm_session_id m = st_sessionId st)
                    (st_messages st) ->
             (forall sid, st_sessionId st = Some sid -> JS.truthy sid = true) ->
             Forall (fun m => pm_session_id m = None
                              \/ pm_session_id m = st_sessionId (fold_left parseLine ls st))
                    (st_messages (fold_left parseLine ls st))) as Hfold.
  { induction ls as [|l ls IH]; intros st Hall Htr; simpl; [done|].
    destruct (parseLine_session_ids st l Hall Htr) as [Hall' Htr'].
    by apply IH. }
  specialize (Hfold (l0 :: lines) initialState).
  destruct (st_sessionId (fold_left parseLine (l0 :: lines) initialState))
    as [sid|] eqn:Hsid; [|done].
  destruct (negb (JS.truthy sid) || _); [done|].
  intros [= <-]. simpl. apply Forall_map. simpl.
  apply Hfold; [constructor|done].
Qed.

(** What [importFile] persists as the message count is the number of
    rows this call added for the session, not the number stored. *)
Lemma importFile_persists_rows_added
      db filePath lines skipExisting session db' created :
  parseFile filePath lines = Some session ->
  reachesInsertion db session skipExisting = true ->
  importFile now md5 nowIso hasProjectRepo db filePath lines skipExisting
  = (db', Ok (Some created)) ->
  persistedCount db' (ps_id session) = Some created
  /\ countBySession db' (ps_id session)
     = countBySession db (ps_id session) + created.
Proof.
  intros Hparse Hreach. unfold importFile. rewrite Hparse. intros Hrun.
  destruct (importSession_leaves _ _ _ _ _ Hreach Hrun)
    as (_ & _ & _ & row & Hrow & Hcount).
  split; [unfold persistedCount; by rewrite Hrow; simpl; f_equal|].
  revert Hrun. unfold importSession.
  unfold reachesInsertion in Hreach. apply negb_true_iff in Hreach. rewrite Hreach.
  destruct (if hasProjectRepo && JS.otruthy (ps_project_path session)
            then let '(d, project) :=
                   getOrCreate db (default "" (ps_project_path session)) in
                 (d, Some (p_id project))
            else (db, None)) as [db0 projectId] eqn:Hpre.
  assert (messages db0 = messages db) as Hm0.
  { destruct (hasProjectRepo && _); [|by inversion Hpre].
    pose proof (getOrCreate_frame db (default "" (ps_project_path session)))
      as (_ & ? & _).
    destruct (getOrCreate db _). by inversion Hpre; subst. }
  destruct (if sessionExists db (ps_id session) && isStub db (ps_id session)
            then updateFromImport now db0 (ps_id session)
                                  (sessionInput nowIso session projectId)
            else if negb (sessionExists db (ps_id session))
                 then sessionCreate now db0 (sessionInput nowIso session projectId)
                 else Ok db0) as [db2|msg] eqn:Hstep; [|done].
  assert (messages db2 = messages db0) as Hm2.
  { revert Hstep. unfold updateFromImport, sessionCreate.
    repeat (case_match; try done); by intros [= <-]. }
  unfold createMany.
  destruct (createManyLoop now md5 db2 _ 0) as [[db3 n]|msg] eqn:Hloop; [|done].
  intros [= <- <-].
  apply (createManyLoop_rows (ps_id session)) in Hloop;
    [|by eapply parseFile_session_ids].
  rewrite (countBySession_messages _ _ _ (sessionUpdate_messages _ _ _)).
  rewrite (countBySession_messages _ _ (ps_id session) Hm2) in Hloop.
  rewrite (countBySession_messages _ _ (ps_id session) Hm0) in Hloop. lia.
Qed.

End Facts.

(** C3, on the code: a file with one message is imported, then imported
    again with [skipExisting = false]. The second call reaches message
    insertion, inserts nothing and persists a message count of 0, while one
    message row is stored for the session. *)
Theorem reimport_persists_inserted_count :
  persistedCount exAfterFirst "s1" = Some 1
  /\ countBySession exAfterFirst "s1" = 1
  /\ (exImportFile exAfterFirst "/logs/s1.jsonl" exLines false).2 = Ok (Some 0)
  /\ persistedCount (exImportFile exAfterFirst "/logs/s1.jsonl" exLines false).1 "s1"
     = Some 0
  /\ countBySession (exImportFile exAfterFirst "/logs/s1.jsonl" exLines false).1 "s1"
     = 1.
Proof.
  do 4 (split; [vm_compute; reflexivity|]).
  (vm_compute; reflexivity).
Qed.

(** C1, on the code: a file with two messages is imported, then imported
    again with [skipExisting = false]. The second run inserts no row and
    leaves the messages table as it was, but the message count persisted
    for the conversation goes from 2 to 0. *)
Theorem reimport_changes_message_count :
  (exImportFile emptyDb "/logs/s2.jsonl" exDialogue true).2 = Ok (Some 2)
  /\ persistedCount exAfterDialogue "s2" = Some 2
  /\ exImportFile exAfterDialogue "/logs/s2.jsonl" exDialogue true
     = (exAfterDialogue, Ok (Some 0))
  /\ (exImportFile exAfterDialogue "/logs/s2.jsonl" exDialogue false).2 = Ok (Some 0)
  /\ messages (exImportFile exAfterDialogue "/logs/s2.jsonl" exDialogue false).1
     = messages exAfterDialogue
  /\ persistedCount (exImportFile exAfterDialogue "/logs/s2.jsonl" exDialogue false).1
                    "s2"
     = Some 0.
Proof.
  do 5 (split; [vm_compute; reflexivity|]).
  vm_compute; reflexivity.
Qed.


End ImportFacts.

Module EmbeddingFacts.
Import EmbeddingService Examples.

Section Batch.
Variable respond : nat -> string -> option (list Q).
Variable texts : list string.

Lemma initialPool_inv concurrency :
  poolInv respond texts (initialPool texts concurrency).
Proof.
  unfold initialPool. split; simpl.
  - apply length_replicate.
  - lia.
  - intros i r [Hr _]%lookup_replicate. done.
  - intros i Hi. lia.
  - intros w idx [Hw _]%lookup_replicate. done.
  - intros w [Hw _]%lookup_replicate. done.
Qed.

Lemma step_inv w p :
  poolInv respond texts p -> poolInv respond texts (stepWorker respond texts w p).
Proof.
  intros [Hlen Hcur Hwr Htk Haw Hret]. unfold stepWorker.
  destruct (workers p !! w) as [[|idx|]|] eqn:Hw; [| |by split|by split].
  - destruct (cursor p <? length texts) eqn:Hlt.
    + apply Nat.ltb_lt in Hlt. split; simpl; try done.
      * intros i Hi. destruct (decide (i = cursor p)) as [->|Hne].
        -- right. exists w. apply list_lookup_insert_eq. by eapply lookup_lt_Some.
        -- destruct (Htk i) as [Hl|[w' Hw']]; [lia|by left|].
           right. exists w'. rewrite list_lookup_insert_ne; [done|congruence].
      * intros w' idx. destruct (decide (w = w')) as [<-|Hne].
        -- rewrite list_lookup_insert_eq by (by eapply lookup_lt_Some).
           intros [= <-]. lia.
        -- rewrite list_lookup_insert_ne by done. intros Hw'%Haw. lia.
      * intros w'. destruct (decide (w = w')) as [<-|Hne].
        -- rewrite list_lookup_insert_eq by (by eapply lookup_lt_Some). done.
        -- rewrite list_lookup_insert_ne by done. intros Hw'%Hret. lia.
    + apply Nat.ltb_ge in Hlt. split; simpl; try done.
      * intros i Hi. destruct (Htk i Hi) as [Hl|[w' Hw']]; [by left|].
        right. exists w'. rewrite list_lookup_insert_ne; [done|congruence].
      * intros w' idx. destruct (decide (w = w')) as [<-|Hne].
        -- rewrite list_lookup_insert_eq by (by eapply lookup_lt_Some). done.
        -- rewrite list_lookup_insert_ne by done. apply Haw.
      * intros _ _. lia.
  - pose proof (Haw _ _ Hw) as Hidx.
    destruct (lookup_lt_is_Some_2 texts idx) as [text Htext]; [lia|].
    rewrite Htext. split; simpl; try done.
    + by rewrite length_insert.
    + intros i r. destruct (decide (idx = i)) as [<-|Hne].
      * rewrite list_lookup_insert_eq by lia. intros [= <-]. eauto.
      * rewrite list_lookup_insert_ne by done. apply Hwr.
    + intros i Hi. destruct (decide (idx = i)) as [<-|Hne].
      * left. eexists. apply list_lookup_insert_eq. lia.
      * destruct (Htk i Hi) as [[r Hr]|[w' Hw']].
        -- left. exists r. by rewrite list_lookup_insert_ne.
        -- right. exists w'. rewrite list_lookup_insert_ne; [done|congruence].
    + intros w' idx'. destruct (decide (w = w')) as [<-|Hne].
      * rewrite list_lookup_insert_eq by (by eapply lookup_lt_Some). done.
      * rewrite list_lookup_insert_ne by done. apply Haw.
    + intros w'. destruct (decide (w = w')) as [<-|Hne].
      * rewrite list_lookup_insert_eq by (by eapply lookup_lt_Some). done.
      * rewrite list_lookup_insert_ne by done. apply Hret.
Qed.

Lemma run_inv schedule p :
  poolInv respond texts p -> poolInv respond texts (run respond texts schedule p).
Proof.
  revert p; induction schedule as [|w schedule IH]; intros p Hinv; [done|].
  simpl. apply IH. by apply step_inv.
Qed.

(** A resolved batch holds, at every index, what the [try]/[catch] of
    the worker stores for that text. *)
Lemma finished_results p :
  poolInv respond texts p -> workers p <> [] -> allReturned p ->
  forall i text, texts !! i = Some text ->
                 results p !! i = Some (Some (settle respond i text)).
Proof.
  intros [Hlen Hcur Hwr Htk Haw Hret] Hne Hall i text Htext.
  assert (cursor p = length texts) as Hfull.
  { unfold allReturned in Hall.
    destruct (workers p) as [|w0 ws]; [done|].
    apply (Hret 0). simpl. f_equal. by inversion Hall. }
  destruct (Htk i) as [[r Hr]|[w Hw]].
  - rewrite Hfull. by eapply lookup_lt_Some.
  - rewrite Hr. destruct (Hwr _ _ Hr) as (text' & Htext' & ->). congruence.
  - unfold allReturned in Hall. rewrite Forall_lookup in Hall.
    specialize (Hall _ _ Hw). done.
Qed.

(** *** Termination *)

Lemma totalWeight_insert ws w old new :
  ws !! w = Some old ->
  totalWeight (<[w := new]> ws) + weight old = totalWeight ws + weight new.
Proof.
  unfold totalWeight. revert w; induction ws as [|x ws IH]; intros w Hw; [done|].
  destruct w as [|w]; simpl in *.
  - inversion Hw; subst. lia.
  - specialize (IH _ Hw). lia.
Qed.

Lemma firstActive_spec ws i w :
  firstActive i ws = Some w ->
  exists k, w = i + k /\ ws !! k <> Some Returned /\ is_Some (ws !! k).
Proof.
  revert i; induction ws as [|x ws IH]; intros i; simpl; [done|].
  destruct x.
  - intros [= <-]. exists 0. split; [lia|]. split; [done|eauto].
  - intros [= <-]. exists 0. split; [lia|]. split; [done|eauto].
  - intros (k & -> & Hk & Hs)%IH. exists (S k). split; [lia|done].
Qed.

Lemma firstActive_none ws i :
  firstActive i ws = None -> Forall (fun w => w = Returned) ws.
Proof.
  revert i; induction ws as [|x ws IH]; intros i; simpl; [constructor|].
  destruct x; try done. intros H%IH. by constructor.
Qed.

Lemma step_decreases w p :
  poolInv respond texts p -> is_Some (workers p !! w) -> workers p !! w <> Some Returned ->
  workLeft (length texts) (stepWorker respond texts w p)
  < workLeft (length texts) p.
Proof.
  intros Hinv [x Hw] Hnr. unfold stepWorker, workLeft. rewrite Hw.
  destruct x as [|idx|]; [| |done].
  - destruct (cursor p <? length texts) eqn:Hlt; simpl.
    + apply Nat.ltb_lt in Hlt.
      pose proof (totalWeight_insert _ _ _ (Awaiting (cursor p)) Hw). simpl in *. lia.
    + pose proof (totalWeight_insert _ _ _ Returned Hw). simpl in *. lia.
  - pose proof (inv_awaiting _ _ _ Hinv _ _ Hw) as Hidx.
    pose proof (inv_cursor _ _ _ Hinv).
    destruct (lookup_lt_is_Some_2 texts idx) as [text Htext]; [lia|].
    rewrite Htext. simpl.
    pose proof (totalWeight_insert _ _ _ AtLoopHead Hw). simpl in *. lia.
Qed.

Lemma runEager_finishes fuel :
  forall p, poolInv respond texts p -> workLeft (length texts) p <= fuel ->
            allReturned (runEager respond texts fuel p).
Proof.
  induction fuel as [|fuel IH]; intros p Hinv Hfuel; simpl.
  - unfold allReturned, workLeft, totalWeight in *.
    assert (sum_list (map weight (workers p)) = 0) as Hz by lia.
    pose proof (inv_returned _ _ _ Hinv) as _.
    clear -Hz. induction (workers p) as [|x ws IHw]; [constructor|].
    simpl in Hz. destruct x; simpl in Hz; try lia.
    constructor; [done|]. apply IHw. lia.
  - destruct (firstActive 0 (workers p)) as [w|] eqn:Hfa.
    + apply firstActive_spec in Hfa as (k & -> & Hk & Hs). simpl.
      apply IH; [by apply step_inv|].
      pose proof (step_decreases k p Hinv Hs Hk). lia.
    + by apply firstActive_none in Hfa.
Qed.

Lemma runEager_is_run fuel :
  forall p, exists schedule,
    runEager respond texts fuel p = run respond texts schedule p.
Proof.
  induction fuel as [|fuel IH]; intros p; simpl.
  - by exists [].
  - destruct (firstActive 0 (workers p)) as [w|]; [|by exists []].
    destruct (IH (stepWorker respond texts w p)) as [schedule Hs].
    exists (w :: schedule). by rewrite Hs.
Qed.

(** C9: for every list of texts and every concurrency of at least one,
    [embedBatch] resolves, and whatever order the requests settle in it
    resolves to one result per text, the result for text [i] at index
    [i]: the vector returned for it with the token estimate of the text,
    or, when its request failed, 768 zeros with a token count of 0. The
    entry at [i] depends on the request for [i] alone. *)
Theorem embedBatch_results_mirror_inputs concurrency :
  1 <= concurrency ->
  (exists schedule,
      allReturned (run respond texts schedule (initialPool texts concurrency)))
  /\ forall schedule,
      allReturned (run respond texts schedule (initialPool texts concurrency)) ->
      length (results (run respond texts schedule (initialPool texts concurrency)))
      = length texts
      /\ forall i text,
          texts !! i = Some text ->
          results (run respond texts schedule (initialPool texts concurrency)) !! i
          = Some (Some match respond i text with
                       | Some vector => mkEmbedding vector (estimateTokens text)
                       | None => mkEmbedding (replicate 768 0%Q) 0
                       end).
Proof.
  intros Hc. split.
  - destruct (runEager_is_run (workLeft (length texts) (initialPool texts concurrency))
                              (initialPool texts concurrency)) as [schedule Hs].
    exists schedule. rewrite <- Hs.
    apply runEager_finishes; [apply initialPool_inv|done].
  - intros schedule Hall.
    pose proof (run_inv schedule _ (initialPool_inv concurrency)) as Hinv.
    split; [apply (inv_length _ _ _ Hinv)|].
    intros i text Htext.
    assert (workers (run respond texts schedule (initialPool texts concurrency)) <> [])
      as Hne.
    { intros Hnil. apply (f_equal length) in Hnil.
      assert (forall s p, length (workers (run respond texts s p)) = length (workers p))
        as Hwl.
      { clear. induction s as [|w s IH]; intros p; [done|]. simpl. rewrite IH.
        unfold stepWorker. destruct (workers p !! w) as [[|idx|]|]; try done.
        - destruct (cursor p <? length texts); simpl; by rewrite length_insert.
        - destruct (texts !! idx); simpl; [by rewrite length_insert|done]. }
      rewrite Hwl in Hnil. simpl in Hnil. rewrite length_replicate in Hnil.
      apply lookup_lt_Some in Htext. lia. }
    rewrite (finished_results _ Hinv Hne Hall i text Htext).
    unfold settle, embed. by destruct (respond i text).
Qed.

End Batch.

(** Two workers; the request for entry 1 fails and settles before the
    request for entry 0. *)
Example embedBatch_out_of_order :
  results (run exRespond exTexts [0; 1; 1; 1; 0; 0; 1; 0] (initialPool exTexts 2))
  = [ Some (mkEmbedding [0 # 1; 1 # 2] 2);
      Some zeroEmbedding;
      Some (mkEmbedding [2 # 1; 1 # 2] 2) ].
Proof. vm_compute. reflexivity. Qed.

(** Three texts, two workers, the request for the second text failing. *)
Lemma embedBatch_witness :
  1 <= 2
  /\ (exists schedule,
        allReturned (run exRespond exTexts schedule (initialPool exTexts 2)))
  /\ forall schedule,
      allReturned (run exRespond exTexts schedule (initialPool exTexts 2)) ->
      length (results (run exRespond exTexts schedule (initialPool exTexts 2)))
      = length exTexts
      /\ forall i text,
          exTexts !! i = Some text ->
          results (run exRespond exTexts schedule (initialPool exTexts 2)) !! i
          = Some (Some match exRespond i text with
                       | Some vector => mkEmbedding vector (estimateTokens text)
                       | None => mkEmbedding (replicate 768 0%Q) 0
                       end).
Proof.
  split; [lia|].
  apply (embedBatch_results_mirror_inputs exRespond exTexts 2). lia.
Defined.

End EmbeddingFacts.

Module ChunkIndexerFacts.
Import ChunkIndexer Examples.

Section Indexer.
Variable getTime : string -> option Z.
Variable clock : nat -> string.
Variable findAll : outcome (list Session).
Variable findBySession : string -> outcome (list Message).
Variable upsertChunks : list ChunkDocument -> nat -> outcome nat.
Variable onProgress : option (nat -> nat -> string -> outcome unit).
Variable nowIso : nat -> string.
Variable batchSize : nat.
Variable concurrency : nat.
Variable freshStart : bool.


(** The loop never needs more fuel than there are sessions left: any
    two such amounts give the same run. *)
Lemma batchLoop_fuel writeSucceeds :
  1 <= batchSize ->
  forall fuel fuel' allSessions i r file,
    length allSessions - i <= fuel ->
    length allSessions - i <= fuel' ->
    batchLoop getTime clock findBySession upsertChunks writeSucceeds onProgress
              nowIso batchSize concurrency fuel allSessions i r file
    = batchLoop getTime clock findBySession upsertChunks writeSucceeds onProgress
                nowIso batchSize concurrency fuel' allSessions i r file.
Proof.
  intros Hbs. induction fuel as [|fuel IH];
    intros fuel' allSessions i r file Hfuel Hfuel'.
  - destruct fuel' as [|fuel']; simpl; [done|].
    rewrite (proj2 (Nat.leb_le _ _)) by lia. done.
  - destruct fuel' as [|fuel']; simpl.
    + rewrite (proj2 (Nat.leb_le _ _)) by lia. done.
    + destruct (length allSessions <=? i) eqn:Hle; [done|].
      apply Nat.leb_gt in Hle.
      destruct (List.last _ None); [|done].
      destruct (callProgress _ _ _ _); [|done].
      apply IH; lia.
Qed.


(** Failing to enumerate the sessions does abort the run. *)
Lemma enumeration_failure_fatal writeSucceeds unlinkSucceeds file elapsed e :
  findAll = Err e ->
  indexAll getTime clock findAll findBySession upsertChunks writeSucceeds
           unlinkSucceeds onProgress nowIso batchSize concurrency freshStart
           file elapsed
  = (Err e, file).
Proof. unfold indexAll. by intros ->. Qed.

End Indexer.


End ChunkIndexerFacts.

(** * Further properties *)

(** ** Strings as lists of code units *)

Module StringFacts.

Import Text.

Lemma chars_inj s t : list_ascii_of_string s = list_ascii_of_string t -> s = t.
Proof.
  intros H. rewrite <- (string_of_list_ascii_of_string s),
              <- (string_of_list_ascii_of_string t). by rewrite H.
Qed.

Lemma chars_length s : length (list_ascii_of_string s) = String.length s.
Proof. induction s as [|c s IH]; simpl; [done|]. by rewrite IH. Qed.

Lemma chars_append s t : list_ascii_of_string (s +:+ t) = list_ascii_of_string s ++ list_ascii_of_string t.
Proof. induction s as [|c s IH]; simpl; [done|]. by rewrite IH. Qed.

Lemma length_append s t : String.length (s +:+ t) = String.length s + String.length t.
Proof. by rewrite <- !chars_length, chars_append, length_app. Qed.

Lemma append_cons c s t : String c s +:+ t = String c (s +:+ t).
Proof. reflexivity. Qed.

Lemma append_nil_r s : s +:+ "" = s.
Proof. induction s as [|c s IH]; [done|]. by rewrite append_cons, IH. Qed.

Lemma append_assoc s t u : (s +:+ t) +:+ u = s +:+ t +:+ u.
Proof. induction s as [|c s IH]; [done|]. by rewrite !append_cons, IH. Qed.

Lemma append_inj_r s t u : s +:+ t = s +:+ u -> t = u.
Proof.
  induction s as [|c s IH]; [done|]. rewrite !append_cons. intros [= H]. by apply IH.
Qed.

Lemma chars_prefix n s : list_ascii_of_string (JS.prefix n s) = take n (list_ascii_of_string s).
Proof.
  unfold JS.prefix. revert n; induction s as [|c s IH]; intros [|n]; simpl; try done.
  by rewrite IH.
Qed.

Lemma length_prefix n s : String.length (JS.prefix n s) = Nat.min n (String.length s).
Proof. by rewrite <- !chars_length, chars_prefix, length_take. Qed.

Lemma prefix_prefix a b s : JS.prefix a (JS.prefix b s) = JS.prefix (Nat.min a b) s.
Proof. apply chars_inj. by rewrite !chars_prefix, take_take. Qed.

Lemma prefix_all n s : String.length s <= n -> JS.prefix n s = s.
Proof.
  intros H. apply chars_inj. rewrite chars_prefix, take_ge; [done|].
  by rewrite chars_length.
Qed.

Lemma chars_rev_string acc s :
  list_ascii_of_string (JS.rev_string acc s) = rev (list_ascii_of_string s) ++ list_ascii_of_string acc.
Proof.
  revert acc; induction s as [|c s IH]; intros acc; simpl; [done|].
  rewrite IH. simpl. by rewrite <- app_assoc.
Qed.

(** *** Trimming *)

Lemma chars_trimStart s : list_ascii_of_string (JS.trimStart s) = dropSpaces (list_ascii_of_string s).
Proof. induction s as [|c s IH]; simpl; [done|]. by destruct (JS.is_space c). Qed.

Lemma chars_trimEnd s : list_ascii_of_string (JS.trimEnd s) = rev (dropSpaces (rev (list_ascii_of_string s))).
Proof.
  unfold JS.trimEnd.
  by rewrite chars_rev_string, chars_trimStart, chars_rev_string, !app_nil_r.
Qed.

Lemma chars_trim s :
  list_ascii_of_string (JS.trim s) = rev (dropSpaces (rev (dropSpaces (list_ascii_of_string s)))).
Proof. unfold JS.trim. by rewrite chars_trimEnd, chars_trimStart. Qed.

Lemma dropSpaces_spec l :
  exists pre, l = pre ++ dropSpaces l
              /\ Forall (fun c => JS.is_space c = true) pre
              /\ headNotSpace (dropSpaces l).
Proof.
  induction l as [|c l (pre & Hl & Hpre & Hhd)]; simpl.
  - by exists [].
  - destruct (JS.is_space c) eqn:Hc.
    + exists (c :: pre). split; [simpl; by f_equal|]. split; [by constructor|done].
    + exists []. by repeat split.
Qed.

Lemma dropSpaces_fix l : headNotSpace l -> dropSpaces l = l.
Proof. destruct l as [|c l]; simpl; [done|]. by intros ->. Qed.

Lemma dropSpaces_length l : length (dropSpaces l) <= length l.
Proof.
  induction l as [|c l IH]; simpl; [done|].
  destruct (JS.is_space c); simpl; lia.
Qed.

Lemma dropSpaces_all l :
  Forall (fun c => JS.is_space c = true) l -> dropSpaces l = [].
Proof. induction 1 as [|c l Hc _ IH]; simpl; [done|]. by rewrite Hc. Qed.

Lemma dropSpaces_app_all pre l :
  Forall (fun c => JS.is_space c = true) pre -> dropSpaces (pre ++ l) = dropSpaces l.
Proof. induction 1 as [|c pre Hc _ IH]; simpl; [done|]. by rewrite Hc. Qed.

Lemma dropSpaces_nil_all l :
  dropSpaces l = [] -> Forall (fun c => JS.is_space c = true) l.
Proof.
  induction l as [|c l IH]; simpl; [constructor|].
  destruct (JS.is_space c) eqn:Hc; [|done]. intros H. constructor; auto.
Qed.

Lemma dropEnd_spec l :
  exists post, l = dropEnd l ++ post
               /\ Forall (fun c => JS.is_space c = true) post
               /\ lastNotSpace (dropEnd l).
Proof.
  unfold dropEnd, lastNotSpace.
  destruct (dropSpaces_spec (rev l)) as (pre & Hl & Hpre & Hhd).
  exists (rev pre). split; [|split].
  - rewrite <- rev_app_distr, <- Hl. by rewrite rev_involutive.
  - by apply Forall_rev.
  - by rewrite rev_involutive.
Qed.

Lemma dropEnd_head l : headNotSpace l -> headNotSpace (dropEnd l).
Proof.
  intros Hhd. destruct (dropEnd_spec l) as (post & Hl & Hpost & _).
  destruct (dropEnd l) as [|c r] eqn:He; [done|].
  rewrite Hl in Hhd. done.
Qed.

Lemma dropEnd_fix l : lastNotSpace l -> dropEnd l = l.
Proof.
  unfold lastNotSpace, dropEnd. intros H.
  by rewrite dropSpaces_fix, rev_involutive.
Qed.

Lemma trim_trimmed s : trimmed (list_ascii_of_string (JS.trim s)).
Proof.
  rewrite chars_trim. fold (dropEnd (dropSpaces (list_ascii_of_string s))).
  destruct (dropSpaces_spec (list_ascii_of_string s)) as (pre & _ & _ & Hhd).
  split; [by apply dropEnd_head|].
  by destruct (dropEnd_spec (dropSpaces (list_ascii_of_string s))) as (post & _ & _ & Hlast).
Qed.

Lemma trim_fix s : trimmed (list_ascii_of_string s) -> JS.trim s = s.
Proof.
  intros [Hhd Hlast]. apply chars_inj. rewrite chars_trim.
  rewrite (dropSpaces_fix _ Hhd). by apply dropEnd_fix.
Qed.

Lemma trim_idempotent s : JS.trim (JS.trim s) = JS.trim s.
Proof. apply trim_fix, trim_trimmed. Qed.

Lemma length_trim s : String.length (JS.trim s) <= String.length s.
Proof.
  rewrite <- !chars_length, chars_trim, length_rev.
  etransitivity; [apply dropSpaces_length|]. rewrite length_rev.
  apply dropSpaces_length.
Qed.

(** A string is blank when it holds white space only. *)
Lemma trim_blank s :
  JS.trim s = "" <-> Forall (fun c => JS.is_space c = true) (list_ascii_of_string s).
Proof.
  split.
  - intros H. apply (f_equal list_ascii_of_string) in H. rewrite chars_trim in H. simpl in H.
    apply (f_equal (@rev ascii)) in H. rewrite rev_involutive in H. simpl in H.
    apply dropSpaces_nil_all in H. apply Forall_rev in H.
    rewrite rev_involutive in H.
    destruct (dropSpaces_spec (list_ascii_of_string s)) as (pre & Hl & Hpre & _).
    rewrite Hl. apply Forall_app. by split.
  - intros H. apply chars_inj. rewrite chars_trim.
    by rewrite (dropSpaces_all _ H).
Qed.

(** *** lastIndexOf *)

Lemma lastIndexOf_from_bounds s : forall i c found,
  (found < i)%Z ->
  let r := JS.lastIndexOf_from i c s found in
  (r = found \/ (i <= r < i + Z.of_nat (String.length s))%Z).
Proof.
  induction s as [|d s IH]; intros i c found Hf; simpl; [by left|].
  destruct (Ascii.eqb c d).
  - destruct (IH (i + 1)%Z c i ltac:(lia)) as [->|H]; right; lia.
  - destruct (IH (i + 1)%Z c found ltac:(lia)) as [->|H]; [by left|right; lia].
Qed.

Lemma lastIndexOf_bounds s c :
  (-1 <= JS.lastIndexOf s c < Z.of_nat (String.length s))%Z.
Proof.
  unfold JS.lastIndexOf.
  destruct (lastIndexOf_from_bounds s 0%Z c (-1)%Z ltac:(lia)) as [->|H]; lia.
Qed.

(** *** Equality test *)

Lemma streq_eq s t : JS.streq s t = true <-> s = t.
Proof. unfold JS.streq. apply String.eqb_eq. Qed.

Lemma streq_refl s : JS.streq s s = true.
Proof. by apply streq_eq. Qed.

Lemma streq_sym s t : JS.streq s t = JS.streq t s.
Proof. unfold JS.streq. apply String.eqb_sym. Qed.

Lemma streq_neq s t : JS.streq s t = false <-> s <> t.
Proof. unfold JS.streq. apply String.eqb_neq. Qed.

Lemma truthy_ne s : JS.truthy s = true <-> s <> "".
Proof.
  unfold JS.truthy. rewrite negb_true_iff. apply streq_neq.
Qed.

Lemma truthy_false s : JS.truthy s = false <-> s = "".
Proof.
  unfold JS.truthy. rewrite negb_false_iff. apply streq_eq.
Qed.

End StringFacts.

Module PairingFacts.
Import ChunkManager Conversation Text StringFacts.

Lemma createMessagePairs_spec ms :
  (concat (map pairMessages (createMessagePairs ms)) = List.filter isConversational ms
   /\ Forall wellFormedPair (createMessagePairs ms))
  /\ forall m,
      concat (map pairMessages (createMessagePairs (m :: ms)))
      = List.filter isConversational (m :: ms)
      /\ Forall wellFormedPair (createMessagePairs (m :: ms)).
Proof.
  induction ms as [|m' ms [IH0 IH1]].
  - split; [by split|]. intros m. simpl. unfold isConversational.
    destruct (JS.streq (m_role m) "user") eqn:Hu; simpl.
    + split; [done|]. repeat constructor. by apply streq_eq.
    + destruct (JS.streq (m_role m) "assistant") eqn:Ha; simpl; [|by split].
      split; [done|]. repeat constructor. by apply streq_eq.
  - split; [apply IH1|]. intros m.
    specialize (IH1 m') as [IHc IHw]. destruct IH0 as [IH0c IH0w].
    change (createMessagePairs (m :: m' :: ms)) with
      (if JS.streq (m_role m) "user" then
         if JS.streq (m_role m') "assistant" then
           mkPair (Some m) (Some m')
                  (JS.or_else (m_timestamp m') (m_timestamp m))
           :: createMessagePairs ms
         else mkPair (Some m) None (m_timestamp m) :: createMessagePairs (m' :: ms)
       else if JS.streq (m_role m) "assistant" then
         mkPair None (Some m) (m_timestamp m) :: createMessagePairs (m' :: ms)
       else createMessagePairs (m' :: ms)).
    change (List.filter isConversational (m :: m' :: ms)) with
      (if isConversational m then m :: List.filter isConversational (m' :: ms)
       else List.filter isConversational (m' :: ms)).
    unfold isConversational at 1.
    destruct (JS.streq (m_role m) "user") eqn:Hu; simpl orb; cbv iota.
    + destruct (JS.streq (m_role m') "assistant") eqn:Ha.
      * split.
        -- cbn [map concat pairMessages userMessage assistantMessage option_list app].
           rewrite IH0c. simpl. unfold isConversational at 2. rewrite Ha.
           by rewrite orb_true_r.
        -- constructor; [|done]. simpl. split; [by apply streq_eq|].
           split; [by apply streq_eq|done].
      * split.
        -- cbn [map concat pairMessages userMessage assistantMessage option_list app].
           by rewrite IHc.
        -- constructor; [|done]. simpl. split; [by apply streq_eq|done].
    + destruct (JS.streq (m_role m) "assistant") eqn:Ha; [|by split].
      split.
      * cbn [map concat pairMessages userMessage assistantMessage option_list app].
        by rewrite IHc.
      * constructor; [|done]. simpl. split; [by apply streq_eq|done].
Qed.

(** X1: [createMessagePairs] loses and invents nothing: read in order, the
    messages of its pairs are exactly the user and assistant messages of
    the input, and every pair holds a question, an answer or both, with
    the roles in their places and the timestamp of the answer (of the
    question when the answer has none). *)
Theorem createMessagePairs_conserves_messages ms :
  concat (map pairMessages (createMessagePairs ms)) = List.filter isConversational ms
  /\ Forall wellFormedPair (createMessagePairs ms).
Proof. apply createMessagePairs_spec. Qed.

Lemma filter_conversational ms :
  List.filter isConversational
    (List.filter (fun m => negb (JS.streq (m_role m) "system")) ms)
  = List.filter isConversational ms.
Proof.
  induction ms as [|m ms IH]; simpl; [done|].
  destruct (JS.streq (m_role m) "system") eqn:Hs; simpl.
  - rewrite IH. apply streq_eq in Hs. unfold isConversational. by rewrite Hs.
  - by rewrite IH.
Qed.

Section Chunks.
Variable getTime : string -> option Z.
Variable clock : nat -> string.
Variable session : Session.

Lemma present_length (p : MessagePair) :
  present (userMessage p) + present (assistantMessage p) = length (pairMessages p).
Proof. unfold pairMessages. by destruct (userMessage p), (assistantMessage p). Qed.

Lemma emitPairs_view g flag ps n :
  map chunkView (emitPairs clock session g flag ps n) = map pairView ps.
Proof.
  revert n; induction ps as [|p ps IH]; intros n; simpl; [done|].
  rewrite IH. f_equal. unfold chunkView, pairView. simpl.
  by rewrite present_length.
Qed.

Lemma emitGroups_view groups n :
  map chunkView (emitGroups clock session groups n)
  = map pairView (concat (map pairs groups)).
Proof.
  revert n; induction groups as [|g gs IH]; intros n; simpl; [done|].
  by rewrite !map_app, emitPairs_view, IH.
Qed.

Lemma processSession_view messages :
  map chunkView (processSession getTime clock session messages)
  = map pairView (conversationPairs messages).
Proof.
  rewrite ChunkManagerFacts.processSession_emit, emitGroups_view.
  by rewrite ChunkManagerFacts.detectTopicGroups_flatten.
Qed.

Lemma sum_lengths {A} (ls : list (list A)) :
  sum_list (map length ls) = length (concat ls).
Proof. induction ls as [|l ls IH]; simpl; [done|]. by rewrite length_app, IH. Qed.

(** X2: [processSession] emits one chunk per message pair, in the order of
    the pairs, each showing the texts, the timestamp and the number of
    messages of its pair; the message counts of the chunks add up to the
    number of user and assistant messages, and there is no chunk exactly
    when there is no such message. *)
Theorem processSession_one_chunk_per_pair messages :
  map chunkView (processSession getTime clock session messages)
  = map pairView (createMessagePairs
                    (List.filter (fun m => negb (JS.streq (m_role m) "system"))
                                 messages))
  /\ sum_list (map message_count (processSession getTime clock session messages))
     = length (List.filter isConversational messages)
  /\ (processSession getTime clock session messages = []
      <-> List.filter isConversational messages = []).
Proof.
  pose proof (processSession_view messages) as Hview. unfold conversationPairs in Hview.
  destruct (createMessagePairs_spec
              (List.filter (fun m => negb (JS.streq (m_role m) "system")) messages))
    as [[Hcons Hwf] _].
  rewrite filter_conversational in Hcons.
  split; [exact Hview|]. split.
  - assert (map message_count (processSession getTime clock session messages)
            = map length (map pairMessages
                (createMessagePairs
                   (List.filter (fun m => negb (JS.streq (m_role m) "system")) messages))))
      as Hc.
    { apply (f_equal (map snd)) in Hview.
      rewrite (map_map chunkView), (map_map pairView) in Hview.
      rewrite map_map. exact Hview. }
    by rewrite Hc, <- Hcons, <- sum_lengths.
  - rewrite <- Hcons. split.
    + intros Hnil. rewrite Hnil in Hview. simpl in Hview.
      symmetry in Hview. apply map_eq_nil in Hview. by rewrite Hview.
    + intros Hnil.
      destruct (createMessagePairs _) as [|p ps] eqn:Hps.
      * simpl in Hview. by apply map_eq_nil in Hview.
      * exfalso. inversion Hwf as [|? ? Hp _]; subst.
        simpl in Hnil. unfold wellFormedPair in Hp. unfold pairMessages in Hnil.
        destruct (userMessage p), (assistantMessage p); simpl in *; done.
Qed.

End Chunks.

(** *** Truncation *)

Lemma get_chars s k : String.get k s = list_ascii_of_string s !! k.
Proof.
  revert k; induction s as [|c s IH]; intros [|k]; simpl; try done.
Qed.

Lemma lastIndexOf_from_get s : forall i c found,
  let r := JS.lastIndexOf_from i c s found in
  r = found \/ ((i <= r)%Z /\ String.get (Z.to_nat (r - i)) s = Some c).
Proof.
  induction s as [|d s IH]; intros i c found; simpl; [by left|].
  destruct (Ascii.eqb_spec c d) as [->|Hne].
  - destruct (IH (i + 1)%Z d i) as [->|[Hle Hget]].
    + right. split; [lia|]. by rewrite Z.sub_diag.
    + right. split; [lia|].
      replace (Z.to_nat (JS.lastIndexOf_from (i + 1) d s i - i))
        with (S (Z.to_nat (JS.lastIndexOf_from (i + 1) d s i - (i + 1)))) by lia.
      done.
  - destruct (IH (i + 1)%Z c found) as [->|[Hle Hget]]; [by left|].
    right. split; [lia|].
    replace (Z.to_nat (JS.lastIndexOf_from (i + 1) c s found - i))
      with (S (Z.to_nat (JS.lastIndexOf_from (i + 1) c s found - (i + 1)))) by lia.
    done.
Qed.

Lemma lastIndexOf_get s c :
  (0 <= JS.lastIndexOf s c)%Z ->
  String.get (Z.to_nat (JS.lastIndexOf s c)) s = Some c.
Proof.
  unfold JS.lastIndexOf. intros Hpos.
  destruct (lastIndexOf_from_get s 0%Z c (-1)%Z) as [Heq|[_ Hget]]; [lia|].
  by rewrite Z.sub_0_r in Hget.
Qed.

(** X3: [truncateIfNeeded] returns a text within the limit unchanged;
    a longer text is cut to a prefix of at most [maxChars] characters
    and at least four fifths of that, ending at a full stop or a line
    break unless none lies that far, followed by the truncation marker;
    the result is never longer than [maxChars + 14]. *)
Theorem truncateIfNeeded_keeps_a_prefix text maxChars :
  (String.length text <= maxChars -> truncateIfNeeded text maxChars = text)
  /\ (maxChars < String.length text ->
      exists n,
        n <= maxChars /\ 4 * maxChars <= 5 * n
        /\ truncateIfNeeded text maxChars = JS.prefix n text +:+ truncationMarker
        /\ (n = maxChars
            \/ String.get (n - 1) text = Some "."%char
            \/ String.get (n - 1) text = Some (ascii_of_nat 10)))
  /\ String.length (truncateIfNeeded text maxChars) <= maxChars + 14.
Proof.
  unfold truncateIfNeeded.
  destruct (String.length text <=? maxChars) eqn:Hle.
  { apply Nat.leb_le in Hle. split; [done|]. split; [lia|lia]. }
  apply Nat.leb_gt in Hle.
  set (truncated := JS.prefix maxChars text).
  assert (String.length truncated = maxChars) as Hlen.
  { unfold truncated. rewrite length_prefix. lia. }
  pose proof (lastIndexOf_bounds truncated "."%char) as Hp.
  pose proof (lastIndexOf_bounds truncated (ascii_of_nat 10)) as Hn.
  rewrite Hlen in Hp, Hn.
  set (cutPoint := Z.max (JS.lastIndexOf truncated ".") (JS.lastIndexOf truncated (ascii_of_nat 10))).
  assert (-1 <= cutPoint < Z.of_nat maxChars)%Z as Hcut by (unfold cutPoint; lia).
  split; [lia|].
  destruct (4 * Z.of_nat maxChars <? 5 * cutPoint)%Z eqn:Hcmp.
  - apply Z.ltb_lt in Hcmp.
    assert (JS.prefix (Z.to_nat (cutPoint + 1)) truncated
            = JS.prefix (Z.to_nat (cutPoint + 1)) text) as Hpre.
    { unfold truncated. rewrite prefix_prefix. f_equal. lia. }
    rewrite Hpre. split.
    + intros _. exists (Z.to_nat (cutPoint + 1)).
      split; [lia|]. split; [lia|]. split; [done|]. right.
      replace (Z.to_nat (cutPoint + 1) - 1) with (Z.to_nat cutPoint) by lia.
      assert (forall c, (0 <= JS.lastIndexOf truncated c)%Z ->
                        String.get (Z.to_nat (JS.lastIndexOf truncated c)) text = Some c)
        as Hget.
      { intros c Hc. pose proof (lastIndexOf_get truncated c Hc) as Hg.
        pose proof (lastIndexOf_bounds truncated c) as Hb. rewrite Hlen in Hb.
        rewrite get_chars in Hg |- *. unfold truncated in Hg, Hb.
        rewrite chars_prefix, lookup_take_lt in Hg by lia. done. }
      unfold cutPoint in *.
      destruct (Z.max_spec (JS.lastIndexOf truncated ".")
                           (JS.lastIndexOf truncated (ascii_of_nat 10)))
        as [[_ Hmax]|[_ Hmax]]; rewrite Hmax in *; [right|left]; apply Hget; lia.
    + rewrite length_append, length_prefix. simpl. lia.
  - split.
    + intros _. exists maxChars. split; [lia|]. split; [lia|]. split; [done|by left].
    + rewrite length_append, Hlen. simpl. lia.
Qed.

(** The text of a chunk stays within the limit of [formatChunkContent]. *)
Lemma formatChunkContent_length pair topic :
  String.length (formatChunkContent pair topic) <= 20000 + 14.
Proof.
  unfold formatChunkContent. cbv zeta.
  etransitivity; [apply length_trim|].
  match goal with |- context [if ?b then _ else _] => destruct b eqn:Hlt end.
  - rewrite length_append, length_prefix. simpl String.length. lia.
  - apply Nat.ltb_ge in Hlt. lia.
Qed.

Section Content.
Variable getTime : string -> option Z.
Variable clock : nat -> string.
Variable session : Session.

Lemma emitPairs_content g flag ps n :
  Forall (fun c => String.length (content c) <= 20000 + 14)
         (emitPairs clock session g flag ps n).
Proof.
  revert n; induction ps as [|p ps IH]; intros n; cbn [emitPairs]; [constructor|].
  constructor; [apply formatChunkContent_length|apply IH].
Qed.

Lemma emitGroups_content groups n :
  Forall (fun c => String.length (content c) <= 20000 + 14)
         (emitGroups clock session groups n).
Proof.
  revert n; induction groups as [|g gs IH]; intros n; cbn [emitGroups]; [constructor|].
  apply Forall_app. split; [apply emitPairs_content|apply IH].
Qed.

(** X4: whatever the length of the messages, the content of every chunk
    [processSession] emits is at most 20014 characters long. *)
Theorem processSession_content_within_limit messages :
  Forall (fun c => String.length (content c) <= 20000 + 14)
         (processSession getTime clock session messages).
Proof.
  rewrite ChunkManagerFacts.processSession_emit.
  apply emitGroups_content.
Qed.

End Content.

End PairingFacts.

Module TopicFacts.
Import ChunkManager Conversation Text StringFacts.

(** *** Keyword counts *)

Lemma bump_countOf keyword k acc :
  countOf k (bump keyword acc)
  = countOf k acc + (if JS.streq keyword k then 1 else 0).
Proof.
  unfold countOf. induction acc as [|[k0 n] acc IH]; simpl.
  - destruct (JS.streq keyword k); simpl; lia.
  - destruct (JS.streq k0 keyword) eqn:Hk0; simpl.
    + apply streq_eq in Hk0. subst k0.
      destruct (JS.streq keyword k); simpl; lia.
    + destruct (JS.streq k0 k) eqn:Hk; simpl; [|apply IH].
      apply streq_eq in Hk. subst k0. rewrite (streq_sym keyword k), Hk0. lia.
Qed.

Lemma fold_bump_countOf keywords : forall k acc,
  countOf k (fold_left (fun acc keyword => bump keyword acc) keywords acc)
  = countOf k acc + occurrences k keywords.
Proof.
  unfold occurrences.
  induction keywords as [|kw kws IH]; intros k acc; simpl; [lia|].
  rewrite IH, bump_countOf, (streq_sym kw k).
  destruct (JS.streq k kw); simpl; lia.
Qed.

Lemma keywordCounts_countOf k keywords :
  countOf k (keywordCounts keywords) = occurrences k keywords.
Proof. unfold keywordCounts. by rewrite fold_bump_countOf. Qed.

Lemma bump_keys keyword acc :
  NoDup (map fst acc) ->
  NoDup (map fst (bump keyword acc))
  /\ forall k, k ∈ map fst (bump keyword acc) <-> k = keyword \/ k ∈ map fst acc.
Proof.
  induction acc as [|[k0 n] acc IH]; simpl; intros Hnd.
  - split; [apply NoDup_singleton|]. intros k. rewrite list_elem_of_singleton, elem_of_nil. tauto.
  - apply NoDup_cons in Hnd as [Hk0 Hnd]. specialize (IH Hnd) as [IHnd IHk].
    destruct (JS.streq k0 keyword) eqn:Hk; simpl.
    + apply streq_eq in Hk. subst k0. split; [by apply NoDup_cons|].
      intros k. rewrite !elem_of_cons. tauto.
    + apply streq_neq in Hk. split.
      * apply NoDup_cons. split; [|done]. rewrite IHk. intros [?|?]; done.
      * intros k. rewrite !elem_of_cons, IHk. tauto.
Qed.

Lemma fold_bump_keys keywords : forall acc,
  NoDup (map fst acc) ->
  NoDup (map fst (fold_left (fun acc keyword => bump keyword acc) keywords acc))
  /\ forall k,
      k ∈ map fst (fold_left (fun acc keyword => bump keyword acc) keywords acc)
      <-> k ∈ keywords \/ k ∈ map fst acc.
Proof.
  induction keywords as [|kw kws IH]; intros acc Hnd; simpl.
  - split; [done|]. intros k. rewrite elem_of_nil. tauto.
  - destruct (bump_keys kw acc Hnd) as [Hnd' Hk'].
    destruct (IH _ Hnd') as [Hnd'' Hk'']. split; [done|].
    intros k. rewrite Hk'', Hk', elem_of_cons. tauto.
Qed.

Lemma countOf_elem k n acc :
  NoDup (map fst acc) -> (k, n) ∈ acc -> countOf k acc = n.
Proof.
  unfold countOf. induction acc as [|[k0 n0] acc IH]; simpl; intros Hnd Hin.
  - by apply elem_of_nil in Hin.
  - apply NoDup_cons in Hnd as [Hk0 Hnd].
    apply elem_of_cons in Hin as [[= <- <-]|Hin].
    + by rewrite streq_refl.
    + destruct (JS.streq k0 k) eqn:Hk; [|by apply IH].
      apply streq_eq in Hk. subst k0. exfalso. apply Hk0.
      apply list_elem_of_fmap. by exists (k, n).
Qed.

(** *** The stable sort *)

Lemma insertDesc_elem e l x : x ∈ insertDesc e l <-> x = e \/ x ∈ l.
Proof.
  induction l as [|y l IH]; simpl.
  { rewrite list_elem_of_singleton, elem_of_nil. tauto. }
  destruct (e.2 <? y.2); [|by rewrite !elem_of_cons].
  rewrite !elem_of_cons, IH. tauto.
Qed.

Lemma sortDesc_elem l x : x ∈ sortDesc l <-> x ∈ l.
Proof.
  unfold sortDesc. induction l as [|y l IH]; simpl; [done|].
  rewrite insertDesc_elem, elem_of_cons, IH. tauto.
Qed.

Lemma insertDesc_headMax e l : headMax l -> headMax (insertDesc e l).
Proof.
  destruct l as [|x r]; simpl; [by constructor|]. intros Hmax.
  destruct (e.2 <? x.2) eqn:Hlt; simpl.
  - apply Nat.ltb_lt in Hlt. apply Forall_forall. intros y Hy.
    apply insertDesc_elem in Hy as [->|Hy]; [lia|].
    by eapply Forall_forall in Hmax.
  - apply Nat.ltb_ge in Hlt. constructor; [done|].
    eapply Forall_impl; [exact Hmax|]. intros y Hy. simpl in *. lia.
Qed.

Lemma sortDesc_headMax l : headMax (sortDesc l).
Proof.
  unfold sortDesc. induction l as [|y l IH]; simpl; [done|].
  by apply insertDesc_headMax.
Qed.

Lemma matchKeywords_vocabulary text k :
  k ∈ matchKeywords text -> includes vocabulary k = true.
Proof.
  unfold matchKeywords. rewrite list_elem_of_In, filter_In. by intros [_ H].
Qed.

(** X5: [extractTopic] is ["general"] when no topic keyword occurs in the
    pair; otherwise it is one of the keywords that occur, and no keyword
    occurs more often than it does. *)
Theorem extractTopic_most_frequent pair :
  (matchKeywords (pairText pair) = [] -> extractTopic pair = "general")
  /\ (matchKeywords (pairText pair) <> [] ->
      extractTopic pair ∈ matchKeywords (pairText pair)
      /\ includes vocabulary (extractTopic pair) = true
      /\ forall k,
          occurrences k (matchKeywords (pairText pair))
          <= occurrences (extractTopic pair) (matchKeywords (pairText pair))).
Proof.
  unfold extractTopic.
  set (kws := matchKeywords (pairText pair)).
  split; [by intros ->|]. intros Hne.
  destruct (fold_bump_keys kws [] (NoDup_nil_2)) as [Hnd Hkeys].
  fold (keywordCounts kws) in Hnd, Hkeys.
  pose proof (sortDesc_headMax (keywordCounts kws)) as Hmax.
  destruct (sortDesc (keywordCounts kws)) as [|[top n] rest] eqn:Hsort.
  { exfalso. destruct kws as [|kw kws']; [done|].
    assert (kw ∈ map fst (keywordCounts (kw :: kws'))) as Hin
      by (apply Hkeys; left; apply elem_of_cons; by left).
    apply list_elem_of_fmap in Hin as (e & _ & He).
    apply sortDesc_elem in He. rewrite Hsort in He. by apply elem_of_nil in He. }
  assert ((top, n) ∈ keywordCounts kws) as Htop.
  { apply sortDesc_elem. rewrite Hsort. apply elem_of_cons. by left. }
  assert (top ∈ kws) as Hin.
  { assert (top ∈ map fst (keywordCounts kws)) as H
        by (apply list_elem_of_fmap; by exists (top, n)).
    apply Hkeys in H as [H|H]; [done|]. simpl in H. by apply elem_of_nil in H. }
  split; [done|]. split; [by eapply matchKeywords_vocabulary|].
  intros k. rewrite <- !keywordCounts_countOf.
  rewrite (countOf_elem top n _ Hnd Htop).
  unfold countOf.
  destruct (List.find (fun e => JS.streq e.1 k) (keywordCounts kws)) as [e|] eqn:Hfind;
    [|lia].
  apply find_some in Hfind as [He _]. apply list_elem_of_In in He.
  apply sortDesc_elem in He. rewrite Hsort in He.
  apply elem_of_cons in He as [->|He]; [done|].
  simpl in Hmax. by eapply Forall_forall in Hmax.
Qed.

(** *** Similar topics *)

Lemma includes_In l s : includes l s = true <-> In s l.
Proof.
  unfold includes. rewrite existsb_exists. split.
  - intros (x & Hx & ->%streq_eq). done.
  - intros H. exists s. split; [done|apply streq_refl].
Qed.

Lemma isTopicSimilar_spec a b :
  isTopicSimilar a b = true
  <-> a = b \/ exists g, In g relatedGroups /\ In a g /\ In b g.
Proof.
  unfold isTopicSimilar. destruct (JS.streq a b) eqn:Hab.
  - apply streq_eq in Hab. tauto.
  - apply streq_neq in Hab. rewrite existsb_exists. split.
    + intros (g & Hg & [Ha Hb]%andb_true_iff). right. exists g.
      by rewrite <- !includes_In.
    + intros [?|(g & Hg & Ha & Hb)]; [done|]. exists g. split; [done|].
      apply andb_true_iff. by rewrite !includes_In.
Qed.

(** No topic belongs to two of the groups of related topics. *)
Lemma relatedGroups_disjoint :
  forallb (fun g1 =>
    forallb (fun g2 =>
      forallb (fun b =>
        implb (includes g2 b) (forallb (fun a => includes g2 a) g1)) g1)
      relatedGroups) relatedGroups = true.
Proof. vm_compute. reflexivity. Qed.

Lemma relatedGroups_shared g1 g2 a b :
  In g1 relatedGroups -> In g2 relatedGroups ->
  In a g1 -> In b g1 -> In b g2 -> In a g2.
Proof.
  intros Hg1 Hg2 Ha Hb Hb2.
  pose proof relatedGroups_disjoint as H.
  rewrite forallb_forall in H. specialize (H g1 Hg1).
  rewrite forallb_forall in H. specialize (H g2 Hg2).
  rewrite forallb_forall in H. specialize (H b Hb).
  rewrite (proj2 (includes_In g2 b) Hb2) in H. simpl in H.
  rewrite forallb_forall in H. specialize (H a Ha). by apply includes_In.
Qed.

(** X6: [isTopicSimilar] is reflexive, symmetric and transitive: topics
    fall into classes of similar topics. *)
Theorem isTopicSimilar_equivalence :
  (forall a, isTopicSimilar a a = true)
  /\ (forall a b, isTopicSimilar a b = isTopicSimilar b a)
  /\ (forall a b c,
        isTopicSimilar a b = true -> isTopicSimilar b c = true ->
        isTopicSimilar a c = true).
Proof.
  split; [|split].
  - intros a. apply isTopicSimilar_spec. by left.
  - intros a b. apply eq_true_iff_eq. rewrite !isTopicSimilar_spec.
    split; (intros [->|(g & Hg & Ha & Hb)]; [by left|right; by exists g]).
  - intros a b c. rewrite !isTopicSimilar_spec.
    intros [->|(g1 & Hg1 & Ha & Hb)]; [done|].
    intros [<-|(g2 & Hg2 & Hb2 & Hc)]; [right; by exists g1|].
    right. exists g2. split; [done|]. split; [|done].
    by apply (relatedGroups_shared g1 g2 a b).
Qed.

End TopicFacts.

Module GroupFacts.
Import ChunkManager Conversation Text StringFacts.

Section Groups.
Variable getTime : string -> option Z.

Lemma boundary_false cur p :
  boundary getTime cur p = false ->
  gapExceeds30 (getTimeGapMinutes getTime (pair_timestamp (lastPair cur p))
                                  (pair_timestamp p)) = false
  /\ isTopicSimilar (topic cur) (extractTopic p) = true.
Proof.
  unfold boundary. intros [Hgap Hsim]%orb_false_elim.
  by apply negb_false_iff in Hsim.
Qed.

(** The first group of the loop's result extends the group the loop
    starts with. *)
Lemma detectLoop_first rest : forall cur,
  exists g0 gs more,
    detectLoop getTime [] cur rest = g0 :: gs
    /\ topic g0 = topic cur /\ pairs g0 = pairs cur ++ more.
Proof.
  induction rest as [|p rest IH]; intros cur.
  - exists cur, [], []. simpl. by rewrite app_nil_r.
  - rewrite ChunkManagerFacts.detectLoop_step.
    destruct (boundary getTime cur p).
    + exists cur, (detectLoop getTime [] (mkGroup (extractTopic p) [p]) rest), [].
      by rewrite app_nil_r.
    + destruct (IH (mkGroup (topic cur) (pairs cur ++ [p]))) as (g0 & gs & more & -> & Ht & Hp).
      exists g0, gs, (p :: more). simpl in *. by rewrite Hp, <- app_assoc.
Qed.

Lemma cohesive_singleton p : cohesive getTime (mkGroup (extractTopic p) [p]).
Proof.
  split; [by exists p, []|]. split.
  - constructor; [|constructor]. simpl.
    unfold isTopicSimilar. by rewrite streq_refl.
  - intros i p' q Hp Hq. destruct i; simpl in *; done.
Qed.

Lemma cohesive_snoc cur p :
  cohesive getTime cur -> boundary getTime cur p = false ->
  cohesive getTime (mkGroup (topic cur) (pairs cur ++ [p])).
Proof.
  intros ((p0 & rest & Hpairs & Htopic) & Hall & Hclose) [Hgap Hsim]%boundary_false.
  split; [|split]; simpl.
  - exists p0, (rest ++ [p]). by rewrite Hpairs.
  - apply Forall_app. split; [done|]. by constructor.
  - intros i a b Ha Hb. simpl in Ha, Hb.
    destruct (decide (S i < length (pairs cur))) as [Hlt|Hge].
    + rewrite lookup_app_l in Ha by lia. rewrite lookup_app_l in Hb by lia.
      by eapply Hclose.
    + pose proof (lookup_lt_Some _ _ _ Hb) as Hlen.
      rewrite length_app in Hlen. simpl in Hlen.
      assert (S i = length (pairs cur)) as Hi by lia.
      rewrite lookup_app_r in Hb by lia. rewrite Hi, Nat.sub_diag in Hb.
      injection Hb as <-.
      rewrite lookup_app_l in Ha by lia.
      assert (lastPair cur p = a) as <-; [|done].
      unfold lastPair. apply ChunkManagerFacts.last_snoc_lookup.
      * rewrite Hpairs. done.
      * by replace (length (pairs cur) - 1) with i by lia.
Qed.

Lemma detectLoop_groups rest : forall cur,
  cohesive getTime cur ->
  Forall (cohesive getTime) (detectLoop getTime [] cur rest)
  /\ separated getTime (detectLoop getTime [] cur rest).
Proof.
  induction rest as [|p rest IH]; intros cur Hcur.
  - simpl. split; [by constructor|].
    intros i g g' q Hg Hg'. by destruct i.
  - rewrite ChunkManagerFacts.detectLoop_step.
    destruct (boundary getTime cur p) eqn:Hb.
    + destruct (IH _ (cohesive_singleton p)) as [Hall Hsep].
      split; [by constructor|].
      intros i g g' q Hg Hg' Hq. destruct i as [|i].
      * simpl in Hg, Hg'. injection Hg as <-.
        destruct (detectLoop_first rest (mkGroup (extractTopic p) [p]))
          as (g0 & gs & more & Heq & _ & Hpairs).
        rewrite Heq in Hg'. simpl in Hg'. injection Hg' as <-.
        rewrite Hpairs in Hq. simpl in Hq. by injection Hq as <-.
      * by eapply (Hsep i).
    + apply IH. by apply cohesive_snoc.
Qed.

(** X7: [detectTopicGroups] cuts the pairs into consecutive groups without
    losing or reordering any: every group carries the topic of its first
    pair, holds only pairs on a similar topic, each no more than thirty
    minutes after the one before, and every group after the first starts
    at a pair that breaks one of these conditions. *)
Theorem detectTopicGroups_maximal_runs ps :
  concat (map pairs (detectTopicGroups getTime ps)) = ps
  /\ Forall (cohesive getTime) (detectTopicGroups getTime ps)
  /\ separated getTime (detectTopicGroups getTime ps).
Proof.
  split; [apply ChunkManagerFacts.detectTopicGroups_flatten|].
  destruct ps as [|p0 rest].
  - split; [constructor|]. intros i g g' q Hg. by destruct i.
  - apply detectLoop_groups, cohesive_singleton.
Qed.

End Groups.

(** *** Context windows *)

Lemma findIndexFrom_none {A} (f : A -> bool) l n :
  Forall (fun x => f x = false) l -> findIndexFrom f n l = None.
Proof.
  intros H; revert n; induction H as [|x l Hx _ IH]; intros n; simpl; [done|].
  by rewrite Hx.
Qed.

Lemma findIndexFrom_first {A} (f : A -> bool) l : forall n k x,
  l !! k = Some x -> f x = true ->
  (forall i y, i < k -> l !! i = Some y -> f y = false) ->
  findIndexFrom f n l = Some (n + k).
Proof.
  induction l as [|y l IH]; intros n k x Hk Hx Hfirst; [done|].
  destruct k as [|k]; simpl in *.
  - injection Hk as ->. rewrite Hx. f_equal. lia.
  - rewrite (Hfirst 0 y ltac:(lia) eq_refl).
    rewrite (IH (S n) k x Hk Hx); [f_equal; lia|].
    intros i z Hi Hz. apply (Hfirst (S i) z); [lia|done].
Qed.

Lemma chunkIdOf_inj session a b :
  chunkIdOf session a = chunkIdOf session b -> a = b.
Proof.
  unfold chunkIdOf, JS.num. intros H.
  do 3 apply append_inj_r in H. by apply (inj pretty) in H.
Qed.

Lemma slice_window {A} (l : list A) (k n : nat) :
  k < length l ->
  slice l (Z.max 0 (Z.of_nat k - Z.of_nat n))
          (Z.min (Z.of_nat (length l)) (Z.of_nat k + Z.of_nat n + 1))
  = take (k + n + 1 - (k - n)) (drop (k - n) l).
Proof.
  intros Hk. unfold slice.
  rewrite (proj2 (Z.ltb_ge _ 0)) by lia.
  rewrite (proj2 (Z.ltb_ge _ 0)) by lia.
  replace (Z.to_nat (Z.min (Z.max 0 (Z.of_nat k - Z.of_nat n)) (Z.of_nat (length l))))
    with (k - n) by lia.
  destruct (decide (k + n + 1 <= length l)) as [Hle|Hgt].
  - f_equal. lia.
  - rewrite !take_ge; [done| |]; rewrite length_drop; lia.
Qed.

Section Window.
Variable getTime : string -> option Z.
Variable clock : nat -> string.
Variable session : Session.

Lemma processSession_ids messages k c :
  processSession getTime clock session messages !! k = Some c ->
  chunk_id c = chunkIdOf session (S k).
Proof.
  intros Hc.
  destruct (ChunkManagerFacts.processSession_linked _ _ _ _ _ _ Hc) as (_ & Hid & _).
  rewrite Hid. f_equal. lia.
Qed.

(** X8: on the chunks of a conversation [getAdjacentChunks] returns
    nothing for an id that no chunk has, and for the chunk at position
    [k] the chunks at positions [k - n] to [k + n], cut at both ends of
    the list, where [n] is the context (two by default). *)
Theorem getAdjacentChunks_window messages :
  (forall target context,
      (forall c, c ∈ processSession getTime clock session messages ->
                 chunk_id c <> target) ->
      getAdjacentChunks (processSession getTime clock session messages) target context
      = [])
  /\ (forall k c n context,
        processSession getTime clock session messages !! k = Some c ->
        default 2%Z context = Z.of_nat n ->
        getAdjacentChunks (processSession getTime clock session messages)
                          (chunk_id c) context
        = take (k + n + 1 - (k - n))
               (drop (k - n) (processSession getTime clock session messages))).
Proof.
  split.
  - intros target context Hnone. unfold getAdjacentChunks.
    rewrite findIndexFrom_none; [done|].
    apply Forall_forall. intros c Hc. apply streq_neq. by apply Hnone.
  - intros k c n context Hc Hctx. unfold getAdjacentChunks.
    rewrite (findIndexFrom_first _ _ 0 k c Hc (streq_refl _)).
    + simpl. rewrite Hctx. apply slice_window. by eapply lookup_lt_Some.
    + intros i y Hi Hy. apply streq_neq.
      rewrite (processSession_ids _ _ _ Hc), (processSession_ids _ _ _ Hy).
      intros Heq%chunkIdOf_inj. lia.
Qed.

End Window.

End GroupFacts.

Module ParserFacts.
Import JsonlParser Transcript Text StringFacts.

Lemma parseMessage_cases raw sessionId :
  match parseMessage raw sessionId with
  | Some m =>
      r_uuid raw = Some (pm_uuid m) /\ pm_uuid m <> ""
      /\ r_timestamp raw = Some (pm_timestamp m) /\ pm_timestamp m <> ""
      /\ pm_content m = rawContent raw /\ ~ blank (pm_content m)
      /\ pm_role m <> ""
      /\ pm_session_id m = sessionId
  | None =>
      JS.otruthy (r_uuid raw) = false \/ JS.otruthy (r_timestamp raw) = false
      \/ blank (rawContent raw)
  end.
Proof.
  unfold parseMessage, rawContent, blank.
  destruct (r_uuid raw) as [uuid|]; [|by left].
  destruct (r_timestamp raw) as [ts|]; [|by right; left].
  simpl JS.otruthy.
  destruct (JS.truthy uuid) eqn:Hu; [|by left].
  destruct (JS.truthy ts) eqn:Ht; [|by right; left].
  simpl negb. simpl orb. cbv iota.
  apply truthy_ne in Hu, Ht.
  assert ((if typeIs raw "assistant" then "assistant" else "user") <> "") as Hrole0
    by (by destruct (typeIs raw "assistant")).
  destruct (r_message raw) as [inner|]; lazy beta iota zeta.
  - destruct (JS.truthy (JS.trim (extractContent (i_content inner)))) eqn:Hc; simpl.
    + apply truthy_ne in Hc. repeat split; try done.
      * intros Hb. apply Hc. by apply trim_blank.
      * unfold JS.or_else.
        destruct (JS.truthy (default "" (i_role inner))) eqn:Hr; [|done].
        by apply truthy_ne.
    + right; right. apply trim_blank.
      by apply truthy_false in Hc.
  - right; right. constructor.
Qed.

(** X9: [parseMessage] drops a record exactly when it has no id, no
    timestamp or only white space for text; a record it keeps gives a
    message with that id and timestamp, the extracted text, a role and
    the session id passed in. *)
Theorem parseMessage_result raw sessionId :
  (parseMessage raw sessionId = None
   <-> JS.otruthy (r_uuid raw) = false \/ JS.otruthy (r_timestamp raw) = false
       \/ blank (rawContent raw))
  /\ forall m,
       parseMessage raw sessionId = Some m ->
       r_uuid raw = Some (pm_uuid m) /\ r_timestamp raw = Some (pm_timestamp m)
       /\ pm_content m = rawContent raw /\ pm_role m <> ""
       /\ pm_session_id m = sessionId.
Proof.
  pose proof (parseMessage_cases raw sessionId) as H.
  destruct (parseMessage raw sessionId) as [m|].
  - destruct H as (Hu & Hune & Ht & Htne & Hc & Hnb & Hr & Hs). split.
    + split; [done|]. intros [H|[H|H]].
      * rewrite Hu in H. simpl in H. by apply truthy_false in H.
      * rewrite Ht in H. simpl in H. by apply truthy_false in H.
      * rewrite <- Hc in H. done.
    + by intros m' [= <-].
  - split; [done|]. by intros m' Hm.
Qed.

(** *** Titles *)

Lemma collapseSpaces_blank s : forall inRun,
  Forall (fun c => JS.is_space c = true) (list_ascii_of_string (collapseSpaces inRun s))
  <-> Forall (fun c => JS.is_space c = true) (list_ascii_of_string s).
Proof.
  induction s as [|c s IH]; intros inRun; simpl; [done|].
  destruct (JS.is_space c) eqn:Hc.
  - destruct inRun; simpl.
    + rewrite IH. split; [by constructor|by inversion 1].
    + rewrite !Forall_cons, IH. split; intros [_ H]; done.
  - simpl. rewrite !Forall_cons, IH. done.
Qed.

Lemma collapseSpaces_singleLine s : forall inRun,
  singleLine (collapseSpaces inRun s).
Proof.
  unfold singleLine.
  induction s as [|c s IH]; intros inRun; simpl; [constructor|].
  destruct (JS.is_space c) eqn:Hc.
  - destruct inRun; simpl; [apply IH|]. constructor; [done|apply IH].
  - simpl. constructor; [|apply IH]. by rewrite Hc.
Qed.

Lemma Forall_dropSpaces (P : ascii -> Prop) l : Forall P l -> Forall P (dropSpaces l).
Proof.
  induction 1 as [|c l Hc Hl IH]; simpl; [constructor|].
  destruct (JS.is_space c); [done|by constructor].
Qed.

Lemma trim_singleLine s : singleLine s -> singleLine (JS.trim s).
Proof.
  unfold singleLine. rewrite chars_trim. intros H.
  apply Forall_rev, Forall_dropSpaces, Forall_rev, Forall_dropSpaces, H.
Qed.

Lemma prefix_singleLine n s : singleLine s -> singleLine (JS.prefix n s).
Proof.
  unfold singleLine. rewrite chars_prefix. apply Forall_take.
Qed.

Lemma prefix_nil n s : 0 < n -> JS.prefix n s = "" -> s = "".
Proof.
  unfold JS.prefix. destruct n; [lia|]. by destruct s.
Qed.

(** X10: [generateTitle] gives no title exactly for a text of white space
    only; a title it gives has between 1 and 83 characters and no white
    space other than plain spaces. *)
Theorem generateTitle_short_single_line content :
  match generateTitle content with
  | Some title =>
      1 <= String.length title <= 83 /\ singleLine title /\ ~ blank content
  | None => blank content
  end.
Proof.
  unfold generateTitle.
  destruct (JS.truthy content) eqn:Hc; simpl.
  2:{ apply truthy_false in Hc. subst. constructor. }
  set (cleaned := JS.prefix 100 (JS.trim (collapseSpaces false content))).
  assert (singleLine cleaned) as Hsl.
  { apply prefix_singleLine, trim_singleLine, collapseSpaces_singleLine. }
  assert (String.length cleaned <= 100) as Hlen.
  { unfold cleaned. rewrite length_prefix. lia. }
  assert (cleaned <> "" -> ~ blank content) as Hnb.
  { intros Hne Hb. apply Hne. unfold cleaned.
    assert (JS.trim (collapseSpaces false content) = "") as ->; [|done].
    apply trim_blank. by apply collapseSpaces_blank. }
  destruct (80 <? String.length cleaned) eqn:Hlong.
  - apply Nat.ltb_lt in Hlong. split; [|split].
    + rewrite length_append, length_prefix.
      change (String.length "...") with 3. lia.
    + unfold singleLine. rewrite chars_append. apply Forall_app. split.
      * by apply prefix_singleLine.
      * repeat constructor; intros H; vm_compute in H; discriminate.
    + apply Hnb. intros Heq. rewrite Heq in Hlong. simpl in Hlong. lia.
  - apply Nat.ltb_ge in Hlong.
    destruct (JS.truthy cleaned) eqn:Ht.
    + apply truthy_ne in Ht. split; [|split; [done|by apply Hnb]].
      destruct cleaned; [done|simpl in *; lia].
    + apply truthy_false in Ht.
      apply prefix_nil in Ht; [|lia].
      apply trim_blank in Ht. by apply collapseSpaces_blank in Ht.
Qed.

(** *** Lines that do not count *)

Lemma parseLine_ignorable st line : ignorable line = true -> parseLine st line = st.
Proof.
  destruct line as [parsed|]; simpl; [|done].
  destruct (typeIs parsed "summary"); simpl; [done|]. by intros ->.
Qed.

Lemma fold_parseLine_filter lines : forall st,
  fold_left parseLine (List.filter (fun line => negb (ignorable line)) lines) st
  = fold_left parseLine lines st.
Proof.
  induction lines as [|line lines IH]; intros st; simpl; [done|].
  destruct (ignorable line) eqn:Hi; simpl.
  - by rewrite IH, parseLine_ignorable.
  - apply IH.
Qed.

(** X11: blank and malformed lines and system and meta records (summary
    lines apart) have no effect on [parseFile]: the file without them
    parses to the same session. *)
Theorem parseFile_ignores_lines filePath lines :
  parseFile filePath (List.filter (fun line => negb (ignorable line)) lines)
  = parseFile filePath lines.
Proof.
  unfold parseFile.
  pose proof (fold_parseLine_filter lines initialState) as Hfold.
  destruct (List.filter _ lines) as [|l0 ls] eqn:Hf.
  - simpl in Hfold. destruct lines as [|l lines']; [done|].
    rewrite <- Hfold. done.
  - rewrite Hfold. by destruct lines.
Qed.

(** *** Every message lies within the session span *)

Lemma retained_mono seen seen' m :
  retained seen m -> retained (seen ++ seen') m.
Proof. intros (Hin & Hu & Hc). split; [|done]. apply elem_of_app. by left. Qed.

Lemma parseLine_retained st seen line :
  Forall (retained seen) (st_messages st) ->
  Forall (retained (seen ++ match trackedOf line with Some ts => [ts] | None => [] end))
         (st_messages (parseLine st line)).
Proof.
  intros Hall.
  assert (forall extra, Forall (retained (seen ++ extra)) (st_messages st)) as Hmono.
  { intros extra. eapply Forall_impl; [exact Hall|]. intros m. apply retained_mono. }
  destruct line as [parsed|]; simpl; [|apply Hmono].
  unfold skipped.
  destruct (typeIs parsed "summary") eqn:Hsum; simpl; [apply Hmono|].
  destruct (typeIs parsed "system" || r_isMeta parsed) eqn:Hsys; simpl; [apply Hmono|].
  set (sid' := if negb (JS.otruthy (st_sessionId st)) && JS.otruthy (r_sessionId parsed)
               then r_sessionId parsed else st_sessionId st).
  assert (Forall (retained (seen ++ match r_timestamp parsed with
                                    | Some ts => if JS.truthy ts then [ts] else []
                                    | None => []
                                    end))
                 (if typeIs parsed "user" || typeIs parsed "assistant"
                  then match parseMessage parsed sid' with
                       | Some message => st_messages st ++ [message]
                       | None => st_messages st
                       end
                  else st_messages st)) as Hgoal.
  { destruct (typeIs parsed "user" || typeIs parsed "assistant"); [|apply Hmono].
    pose proof (parseMessage_cases parsed sid') as Hres.
    destruct (parseMessage parsed sid') as [m|]; [|apply Hmono].
    destruct Hres as (_ & Hu & Hts & Htne & _ & Hc & _).
    apply Forall_app. split; [apply Hmono|]. constructor; [|constructor].
    rewrite Hts. rewrite (proj2 (truthy_ne _) Htne).
    split; [|done]. apply elem_of_app. right. by apply list_elem_of_singleton. }
  destruct (r_timestamp parsed) as [ts|]; [destruct (JS.truthy ts)|]; simpl; exact Hgoal.
Qed.

Lemma fold_parseLine_retained lines : forall st seen,
  Forall (retained seen) (st_messages st) ->
  Forall (retained (seen ++ trackedTimestamps lines))
         (st_messages (fold_left parseLine lines st)).
Proof.
  induction lines as [|line lines IH]; intros st seen Hall; simpl.
  - by rewrite app_nil_r.
  - apply (parseLine_retained _ _ line) in Hall. apply IH in Hall.
    unfold trackedTimestamps. simpl.
    destruct (trackedOf line); simpl in *.
    + by rewrite <- app_assoc in Hall.
    + by rewrite app_nil_r in Hall.
Qed.

(** X12: a session returned by [parseFile] has a non-empty id, the path of
    the file, at least one message, a start no later than its end, and
    only messages with an id, text that is not blank and a timestamp
    from start to end. *)
Theorem parseFile_session_well_formed filePath lines session :
  parseFile filePath lines = Some session ->
  ps_id session <> "" /\ ps_file_path session = filePath
  /\ ps_messages session <> []
  /\ exists lo hi,
      ps_started_at session = Some lo /\ ps_ended_at session = Some hi
      /\ String.ltb hi lo = false
      /\ Forall (fun m =>
                   pm_uuid m <> "" /\ ~ blank (pm_content m)
                   /\ String.ltb (pm_timestamp m) lo = false
                   /\ String.ltb hi (pm_timestamp m) = false)
                (ps_messages session).
Proof.
  unfold parseFile. destruct lines as [|l0 lines]; [done|].
  set (st := fold_left parseLine (l0 :: lines) initialState).
  pose proof (JsonlParserFacts.fold_parseLine_inv (l0 :: lines) _ _
                JsonlParserFacts.initialState_inv) as [Hs He Hm].
  pose proof (fold_parseLine_retained (l0 :: lines) initialState []
                (Forall_nil_2 _)) as Hret.
  fold st in Hs, He, Hm, Hret. simpl app in *.
  destruct (st_sessionId st) as [sid|]; [|done].
  destruct (negb (JS.truthy sid) || bool_decide (st_messages st = [])) eqn:Hguard; [done|].
  apply orb_false_elim in Hguard as [Hsid Hmsgs].
  apply negb_false_iff, truthy_ne in Hsid.
  apply bool_decide_eq_false in Hmsgs. specialize (Hm Hmsgs).
  intros [= <-]. simpl.
  split; [done|]. split; [done|]. split; [done|].
  destruct (st_startedAt st) as [lo|]; [|done].
  destruct (st_endedAt st) as [hi|]; [|done].
  destruct Hs as [_ [Hlo Hmin]]. destruct He as [_ [Hhi Hmax]].
  exists lo, hi. split; [done|]. split; [done|]. split; [by apply Hmax|].
  eapply Forall_impl; [exact Hret|].
  intros m (Hin & Hu & Hc). split; [done|]. split; [done|].
  split; [by apply Hmin|by apply Hmax].
Qed.

Lemma parseFile_well_formed_witness :
  ps_file_path Examples.exParsed = "/logs/s1.jsonl"
  /\ exists lo hi,
      ps_started_at Examples.exParsed = Some lo /\ ps_ended_at Examples.exParsed = Some hi
      /\ String.ltb hi lo = false
      /\ Forall (fun m =>
                   pm_uuid m <> "" /\ ~ blank (pm_content m)
                   /\ String.ltb (pm_timestamp m) lo = false
                   /\ String.ltb hi (pm_timestamp m) = false)
                (ps_messages Examples.exParsed).
Proof.
  pose proof (parseFile_session_well_formed "/logs/s1.jsonl" Examples.exLines
                Examples.exParsed eq_refl) as (_ & Hpath & _ & Hspan).
  split; [exact Hpath|exact Hspan].
Defined.

End ParserFacts.

Module RepositoryFacts.
Import Store Integrity Text StringFacts.

Section Facts.
Variable now : string.
Variable md5 : string -> string.

Lemma uuidExists_false db u :
  uuidExists db u = false -> u ∉ map m_uuid (messages db).
Proof.
  unfold uuidExists. intros Hex Hin.
  apply list_elem_of_fmap in Hin as (m & -> & Hm).
  apply not_true_iff_false in Hex. apply Hex.
  apply existsb_exists. exists m. split; [by apply list_elem_of_In|apply streq_refl].
Qed.

(** What a successful INSERT adds. *)
Lemma messageCreate_row db input db' :
  messageCreate now md5 db input = Ok db' ->
  exists row,
    messages db' = messages db ++ [row]
    /\ m_uuid row = mi_uuid input
    /\ m_id row = S (message_seq db)
    /\ message_seq db' = S (message_seq db)
    /\ sessions db' = sessions db
    /\ sessionExists db (m_session_id row) = true
    /\ mi_uuid input ∉ map m_uuid (messages db).
Proof.
  unfold messageCreate. destruct (mi_session_id input) as [sid|]; [|done].
  destruct (uuidExists db (mi_uuid input)) eqn:Hu; [done|].
  destruct (sessionExists db sid) eqn:Hs; [|done]. simpl.
  intros [= <-]. eexists. repeat split; simpl; try done.
  by apply uuidExists_false.
Qed.

Lemma createManyLoop_appends inputs : forall db created db' created',
  createManyLoop now md5 db inputs created = Ok (db', created') ->
  exists rows,
    messages db' = messages db ++ rows
    /\ created' = created + length rows
    /\ length rows <= length inputs
    /\ map m_id rows = List.seq (S (message_seq db)) (length rows)
    /\ message_seq db' = message_seq db + length rows
    /\ Forall (fun row => m_uuid row ∈ map mi_uuid inputs
                           /\ sessionExists db (m_session_id row) = true) rows
    /\ sessions db' = sessions db
    /\ (NoDup (map m_uuid (messages db)) -> NoDup (map m_uuid (messages db'))).
Proof.
  induction inputs as [|input inputs IH]; intros db created db' created'; simpl.
  - intros [= <- <-]. exists []. rewrite app_nil_r. simpl.
    repeat split; try done; try lia.
  - destruct (messageCreate now md5 db input) as [db1|msg] eqn:Hc.
    + apply messageCreate_row in Hc
        as (row & Hrows & Huuid & Hid & Hseq & Hsess & Hfk & Hfresh).
      intros (rows & -> & -> & Hlen & Hids & Hseq' & Hin & Hsess' & Hnd)%IH.
      exists (row :: rows). rewrite Hrows, <- app_assoc. simpl.
      split; [done|]. split; [lia|]. split; [lia|]. split.
      { rewrite Hid, Hids, Hseq. done. }
      split; [lia|]. split.
      { constructor.
        - split; [|exact Hfk]. rewrite Huuid. apply elem_of_cons. by left.
        - eapply Forall_impl; [exact Hin|]. intros r [Hr Hex].
          split; [apply elem_of_cons; by right|].
          revert Hex. unfold sessionExists. by rewrite Hsess. }
      split; [congruence|].
      intros Hnd0.
      assert (NoDup (map m_uuid (messages db1))) as Hnd1; [|
        apply Hnd in Hnd1; by rewrite Hrows, <- app_assoc in Hnd1].
      rewrite Hrows, map_app. simpl.
      apply NoDup_app. split; [done|]. split.
      * intros u Hu ->%list_elem_of_singleton. by rewrite Huuid in Hu.
      * apply NoDup_singleton.
    + destruct (includesAt uniqueFailed msg); [|done].
      intros (rows & -> & -> & Hlen & Hids & Hseq' & Hin & Hsess' & Hnd)%IH.
      exists rows. repeat split; try done; try lia.
      eapply Forall_impl; [exact Hin|]. intros r [Hr Hex].
      split; [apply elem_of_cons; by right|done].
Qed.

Lemma createMany_outcome db inputs :
  match createMany now md5 db inputs with
  | (db', Ok created) =>
      exists rows,
        messages db' = messages db ++ rows
        /\ created <= length inputs
        /\ Forall (fun row => sessionExists db (m_session_id row) = true) rows
        /\ sessions db' = sessions db
  | (db', Err _) => db' = db
  end.
Proof.
  unfold createMany.
  destruct (createManyLoop now md5 db inputs 0) as [[db' created]|msg] eqn:Hloop; [|done].
  apply createManyLoop_appends in Hloop
    as (rows & Hrows & -> & Hlen & _ & _ & Hin & Hsess & _).
  exists rows. simpl. split; [done|]. split; [done|]. split; [|done].
  eapply Forall_impl; [exact Hin|]. by intros row [_ H].
Qed.

(** X13: [createMany] returns the number of rows it added, at most one per
    input: the rows are appended with consecutive ids, each carries the
    uuid of an input and the id of a stored session, the rows and
    sessions that were there are untouched and uuids stay unique; when
    it throws the store is as before. *)
Theorem createMany_appends_what_it_counts db inputs :
  match createMany now md5 db inputs with
  | (db', Ok created) =>
      exists rows,
        messages db' = messages db ++ rows
        /\ length rows = created
        /\ created <= length inputs
        /\ map m_id rows = List.seq (S (message_seq db)) created
        /\ Forall (fun row => m_uuid row ∈ map mi_uuid inputs
                               /\ sessionExists db (m_session_id row) = true) rows
        /\ sessions db' = sessions db
        /\ (NoDup (map m_uuid (messages db)) -> NoDup (map m_uuid (messages db')))
  | (db', Err _) => db' = db
  end.
Proof.
  unfold createMany.
  destruct (createManyLoop now md5 db inputs 0) as [[db' created]|msg] eqn:Hloop; [|done].
  apply createManyLoop_appends in Hloop
    as (rows & Hrows & -> & Hlen & Hids & _ & Hin & Hsess & Hnd).
  exists rows. simpl. repeat split; done.
Qed.

(** X14: after a [createMany] that succeeded, the same batch inserted
    again adds nothing and returns 0. *)
Theorem createMany_idempotent db inputs db' created :
  createMany now md5 db inputs = (db', Ok created) ->
  createMany now md5 db' inputs = (db', Ok 0).
Proof.
  unfold createMany.
  destruct (createManyLoop now md5 db inputs 0) as [[db1 n]|msg] eqn:Hloop; [|done].
  intros [= <- <-].
  apply ImportFacts.createManyLoop_stores in Hloop as [_ Hall].
  by rewrite (ImportFacts.createManyLoop_duplicates now md5 inputs db1 0 Hall).
Qed.

(** *** Projects *)

Lemma find_app_none {A} (f : A -> bool) l x :
  List.find f l = None -> List.find f (l ++ [x]) = if f x then Some x else None.
Proof.
  induction l as [|y l IH]; simpl; [done|].
  destruct (f y); [done|apply IH].
Qed.

(** X15: [getOrCreate] returns a project with the path asked for, which
    [findByPath] then finds; a second call returns the same project and
    changes nothing; no project is removed and paths stay unique. *)
Theorem getOrCreate_idempotent db path :
  p_path (getOrCreate db path).2 = path
  /\ findByPath (getOrCreate db path).1 path = Some (getOrCreate db path).2
  /\ getOrCreate (getOrCreate db path).1 path = getOrCreate db path
  /\ (exists added, projects (getOrCreate db path).1 = projects db ++ added)
  /\ (NoDup (map p_path (projects db)) ->
      NoDup (map p_path (projects (getOrCreate db path).1))).
Proof.
  destruct (findByPath db path) as [existing|] eqn:Hfind.
  - assert (getOrCreate db path = (db, existing)) as Hg
      by (unfold getOrCreate; by rewrite Hfind).
    rewrite Hg. cbn [fst snd]. rewrite Hg. split.
    { unfold findByPath in Hfind. apply find_some in Hfind as [_ H].
      by apply streq_eq in H. }
    split; [done|]. split; [done|].
    split; [exists []; by rewrite app_nil_r|done].
  - set (p := mkProject (S (project_seq db)) path (projectName path)).
    set (db' := mkDb (sessions db) (messages db) (message_seq db)
                     (projects db ++ [p]) (S (project_seq db)) (tags db)
                     (session_tags db)).
    assert (getOrCreate db path = (db', p)) as Hg
      by (unfold getOrCreate; by rewrite Hfind).
    assert (findByPath db' path = Some p) as Hfound.
    { unfold findByPath, db'. simpl. unfold findByPath in Hfind.
      rewrite (find_app_none _ _ _ Hfind). simpl. by rewrite streq_refl. }
    rewrite Hg. cbn [fst snd].
    split; [done|]. split; [done|]. split.
    { unfold getOrCreate. by rewrite Hfound. }
    split; [by exists [p]|].
    intros Hnd. simpl. rewrite map_app. simpl.
    apply NoDup_app. split; [done|]. split; [|apply NoDup_singleton].
    intros q Hq ->%list_elem_of_singleton.
    apply list_elem_of_fmap in Hq as (pr & Hpath & Hpr).
    unfold findByPath in Hfind.
    apply list_elem_of_In in Hpr.
    pose proof (find_none _ _ Hfind pr Hpr) as Hne. simpl in Hne.
    apply streq_neq in Hne. by symmetry in Hpath.
Qed.

End Facts.

(** *** Project names *)

Lemma rev_string_eq acc s :
  list_ascii_of_string (JS.rev_string acc s)
  = rev (list_ascii_of_string s) ++ list_ascii_of_string acc.
Proof. apply chars_rev_string. Qed.

Lemma noSlash_rev cur : noSlash cur -> noSlash (JS.rev_string "" cur).
Proof.
  unfold noSlash. rewrite chars_rev_string, app_nil_r. apply Forall_rev.
Qed.

Lemma splitSlash_noSlash s : forall cur,
  noSlash cur -> Forall noSlash (splitSlash cur s).
Proof.
  induction s as [|c s IH]; intros cur Hcur; simpl.
  - constructor; [by apply noSlash_rev|constructor].
  - destruct (Ascii.eqb_spec c "/") as [->|Hne].
    + constructor; [by apply noSlash_rev|]. apply IH. constructor.
    + apply IH. by constructor.
Qed.

Lemma splitSlash_app a b : forall cur,
  splitSlash cur (a +:+ String "/" b) = splitSlash cur a ++ splitSlash "" b.
Proof.
  induction a as [|c a IH]; intros cur.
  - simpl. done.
  - rewrite append_cons. simpl. destruct (Ascii.eqb c "/").
    + by rewrite IH.
    + apply IH.
Qed.

Lemma splitSlash_segment name : forall cur,
  noSlash name ->
  splitSlash cur name = [JS.rev_string "" cur +:+ name].
Proof.
  unfold noSlash.
  induction name as [|c name IH]; intros cur Hname; simpl.
  - by rewrite append_nil_r.
  - inversion Hname as [|? ? Hc Hrest]; subst.
    destruct (Ascii.eqb_spec c "/") as [->|_]; [done|].
    rewrite (IH _ Hrest). f_equal. apply chars_inj.
    rewrite !chars_append, !chars_rev_string. simpl.
    by rewrite !app_nil_r, <- app_assoc.
Qed.

Lemma last_In_or_default {A} (l : list A) d : List.last l d = d \/ In (List.last l d) l.
Proof.
  induction l as [|x l IH]; [by left|].
  destruct l as [|y l]; [right; by left|].
  destruct IH as [IH|IH]; [left|right; right]; done.
Qed.

(** X16: the name [getOrCreate] gives a new project is the last segment of
    the path; it is never empty and never contains a slash. *)
Theorem projectName_last_segment :
  (forall dir name,
      name <> "" -> noSlash name -> projectName (dir +:+ "/" +:+ name) = name)
  /\ (forall path, projectName path <> "" /\ noSlash (projectName path)).
Proof.
  split.
  - intros dir name Hne Hns. unfold projectName.
    change (dir +:+ "/" +:+ name) with (dir +:+ String "/" name).
    rewrite splitSlash_app, (splitSlash_segment name "" Hns). simpl JS.rev_string.
    change ("" +:+ name) with name.
    rewrite List.filter_app. simpl.
    rewrite (proj2 (truthy_ne name) Hne). rewrite List.last_last.
    unfold JS.or_else. by rewrite (proj2 (truthy_ne name) Hne).
  - intros path. unfold projectName.
    set (segments := List.filter JS.truthy (splitSlash "" path)).
    assert (Forall (fun s => JS.truthy s = true /\ noSlash s) segments) as Hseg.
    { apply Forall_forall. intros s Hs. apply list_elem_of_In in Hs.
      apply filter_In in Hs as [Hin Ht]. split; [done|].
      pose proof (splitSlash_noSlash path "" (Forall_nil_2 _)) as Hall.
      rewrite Forall_forall in Hall. apply Hall. by apply list_elem_of_In. }
    unfold JS.or_else.
    destruct (JS.truthy (List.last segments "")) eqn:Ht.
    + split; [by apply truthy_ne|].
      destruct (last_In_or_default segments "") as [Heq|Hin].
      * rewrite Heq. constructor.
      * rewrite Forall_forall in Hseg. apply Hseg. by apply list_elem_of_In.
    + split; [done|]. unfold noSlash. simpl.
      repeat constructor; intros H; discriminate H.
Qed.

End RepositoryFacts.

Module ImportFileFacts.
Import Store JsonlParser ImportService Integrity StringFacts Examples MoreExamples.

Section Facts.
Variable now : string.
Variable md5 : string -> string.
Variable nowIso : string.
Variable hasProjectRepo : bool.

Lemma projectStep_frame db session :
  sessions (projectStep hasProjectRepo db session).1 = sessions db
  /\ messages (projectStep hasProjectRepo db session).1 = messages db
  /\ projectExists (projectStep hasProjectRepo db session).1 (projectStep hasProjectRepo db session).2 = true.
Proof.
  unfold projectStep. destruct (hasProjectRepo && _); [|done].
  pose proof (ImportFacts.getOrCreate_frame db (default "" (ps_project_path session)))
    as (? & ? & _).
  pose proof (ImportFacts.getOrCreate_exists db (default "" (ps_project_path session))).
  by destruct (getOrCreate db _).
Qed.

Lemma importSession_unfold db session skipExisting :
  importSession now md5 nowIso hasProjectRepo db session skipExisting
  = let existingSession := sessionExists db (ps_id session) in
    let stub := existingSession && isStub db (ps_id session) in
    if skipExisting && existingSession && negb stub then (db, Ok (Some 0))
    else
      let db1 := (projectStep hasProjectRepo db session).1 in
      let input := sessionInput nowIso session (projectStep hasProjectRepo db session).2 in
      let step :=
        if stub then updateFromImport now db1 (ps_id session) input
        else if negb existingSession then sessionCreate now db1 input
        else Ok db1 in
      match step with
      | Err msg => (db1, Err msg)
      | Ok db2 =>
          match createMany now md5 db2 (map messageInput (ps_messages session)) with
          | (db3, Err msg) => (db3, Err msg)
          | (db3, Ok created) =>
              (sessionUpdate now db3 (ps_id session)
                             (mkUpdateInput None (Some created) None None None),
               Ok (Some created))
          end
      end.
Proof.
  unfold importSession, projectStep. cbv zeta.
  destruct (skipExisting && _ && _); [done|].
  destruct (hasProjectRepo && _); [|done].
  by destruct (getOrCreate db _).
Qed.

(** The session step of [importFile] keeps the message rows and every
    session that was there. *)
Lemma sessionStep_frame db1 session projectId (stub existing : bool) db2 :
  (if stub then updateFromImport now db1 (ps_id session)
                                 (sessionInput nowIso session projectId)
   else if negb existing then sessionCreate now db1 (sessionInput nowIso session projectId)
        else Ok db1) = Ok db2 ->
  messages db2 = messages db1
  /\ forall id, sessionExists db1 id = true -> sessionExists db2 id = true.
Proof.
  unfold updateFromImport, sessionCreate, sessionExists.
  destruct stub; [|destruct existing; simpl].
  - destruct (sessions db1 !! ps_id session) as [s|] eqn:Hs; [|by intros [= <-]].
    destruct (negb _); [done|]. intros [= <-]. simpl. split; [done|].
    intros id Hid. apply bool_decide_eq_true. apply bool_decide_eq_true in Hid.
    destruct (decide (id = ps_id session)) as [->|Hne].
    + rewrite lookup_insert_eq. eauto.
    + by rewrite lookup_insert_ne.
  - by intros [= <-].
  - destruct (bool_decide _); [done|]. destruct (negb _); [done|].
    intros [= <-]. simpl. split; [done|].
    intros id Hid. apply bool_decide_eq_true. apply bool_decide_eq_true in Hid.
    destruct (decide (id = ps_id session)) as [->|Hne].
    + rewrite lookup_insert_eq. eauto.
    + by rewrite lookup_insert_ne.
Qed.

Lemma sessionUpdate_grows db id input id' :
  sessionExists db id' = true -> sessionExists (sessionUpdate now db id input) id' = true.
Proof.
  unfold sessionUpdate, sessionExists. destruct (noFields input); [done|].
  destruct (sessions db !! id) as [s|] eqn:Hs; [|done]. simpl.
  intros Hid. apply bool_decide_eq_true. apply bool_decide_eq_true in Hid.
  destruct (decide (id' = id)) as [->|Hne].
  - rewrite lookup_insert_eq. eauto.
  - by rewrite lookup_insert_ne.
Qed.

(** X17: when [importFile] gets past the [skipExisting] guard and returns a
    count, the session is stored and is no stub, every message of the
    transcript is in the store, and the count is at most the number of
    messages. *)
Theorem importFile_stores_every_message
        db filePath lines skipExisting session db' n :
  parseFile filePath lines = Some session ->
  reachesInsertion db session skipExisting = true ->
  importFile now md5 nowIso hasProjectRepo db filePath lines skipExisting
  = (db', Ok (Some n)) ->
  sessionExists db' (ps_id session) = true
  /\ isStub db' (ps_id session) = false
  /\ Forall (fun m => uuidExists db' (pm_uuid m) = true) (ps_messages session)
  /\ n <= length (ps_messages session).
Proof.
  intros Hparse Hreach. unfold importFile. rewrite Hparse. intros Hrun.
  destruct (ImportFacts.importSession_leaves _ _ _ _ _ _ _ _ _ Hreach Hrun)
    as (Hex & Hstub & Hall & _).
  split; [done|]. split; [done|]. split.
  - unfold allStored in Hall. rewrite Forall_map in Hall.
    eapply Forall_impl; [exact Hall|]. by intros m [Hu _].
  - revert Hrun. rewrite importSession_unfold. cbv zeta.
    unfold reachesInsertion in Hreach. apply negb_true_iff in Hreach. rewrite Hreach.
    destruct (if _ : bool then _ else _) as [db2|e]; [|done].
    pose proof (RepositoryFacts.createMany_outcome now md5 db2
                  (map messageInput (ps_messages session))) as Hcm.
    destruct (createMany now md5 db2 _) as [db3 [created|e]]; [|done].
    destruct Hcm as (rows & _ & Hle & _). rewrite length_map in Hle.
    by intros [= _ <-].
Qed.

(** X18: [importFile] is not atomic: when the import of a conversation that
    was not stored throws, no message has been added, but the session
    row stays, with the message count of the transcript. *)
Theorem importFile_failure_keeps_session_row
        db filePath lines skipExisting session db' msg :
  parseFile filePath lines = Some session ->
  sessionExists db (ps_id session) = false ->
  importFile now md5 nowIso hasProjectRepo db filePath lines skipExisting
  = (db', Err msg) ->
  messages db' = messages db
  /\ exists row,
      sessions db' !! ps_id session = Some row
      /\ s_message_count row = length (ps_messages session)
      /\ s_is_stub row = false.
Proof.
  intros Hparse Hnew. unfold importFile. rewrite Hparse.
  rewrite importSession_unfold. cbv zeta. rewrite Hnew.
  rewrite andb_false_r. simpl negb. cbv iota. simpl andb. cbv iota.
  destruct (projectStep_frame db session) as (Hs1 & Hm1 & Hpe).
  unfold sessionCreate.
  assert (sessionExists (projectStep hasProjectRepo db session).1
                        (in_id (sessionInput nowIso session (projectStep hasProjectRepo db session).2))
          = false) as ->.
  { unfold sessionExists in *. simpl. by rewrite Hs1. }
  simpl in_project_id. rewrite Hpe. simpl negb. cbv iota.
  set (db2 := setSessions _ _).
  pose proof (RepositoryFacts.createMany_outcome now md5 db2
                (map messageInput (ps_messages session))) as Hcm.
  destruct (createMany now md5 db2 _) as [db3 [created|e]]; [done|].
  subst db3. intros [= <- <-]. split; [done|].
  eexists. split; [apply lookup_insert_eq|]. by split.
Qed.

(** X19: [importFile] keeps every message row attached to a stored session,
    whatever it returns or throws. *)
Theorem importFile_preserves_references db filePath lines skipExisting :
  messagesReferSessions db ->
  messagesReferSessions
    (importFile now md5 nowIso hasProjectRepo db filePath lines skipExisting).1.
Proof.
  intros Hinv. unfold importFile.
  destruct (parseFile filePath lines) as [session|]; [|done].
  rewrite importSession_unfold. cbv zeta.
  destruct (skipExisting && _ && _); [done|].
  destruct (projectStep_frame db session) as (Hs1 & Hm1 & _).
  assert (messagesReferSessions (projectStep hasProjectRepo db session).1) as Hinv1.
  { unfold messagesReferSessions, sessionExists in *. by rewrite Hm1, Hs1. }
  destruct (if _ : bool then _ else _) as [db2|e] eqn:Hstep; [|done].
  apply sessionStep_frame in Hstep as [Hm2 Hgrow].
  assert (messagesReferSessions db2) as Hinv2.
  { unfold messagesReferSessions in *. rewrite Hm2.
    eapply Forall_impl; [exact Hinv1|]. intros m. apply Hgrow. }
  pose proof (RepositoryFacts.createMany_outcome now md5 db2
                (map messageInput (ps_messages session))) as Hcm.
  destruct (createMany now md5 db2 _) as [db3 [created|e]]; simpl.
  - destruct Hcm as (rows & Hrows & _ & Hall & Hs3).
    unfold messagesReferSessions.
    rewrite (ImportFacts.sessionUpdate_messages now db3 (ps_id session)), Hrows.
    apply Forall_app. split.
    + eapply Forall_impl; [exact Hinv2|]. intros m Hm.
      apply sessionUpdate_grows. unfold sessionExists in *. by rewrite Hs3.
    + eapply Forall_impl; [exact Hall|]. intros m Hm.
      apply sessionUpdate_grows. unfold sessionExists in *. by rewrite Hs3.
  - by subst db3.
Qed.

End Facts.

(** Session [s2] is created, then the message that carries no session id
    makes the insertion fail. *)
Lemma importFile_failure_witness :
  parseFile "/logs/o.jsonl" exOrphaned = Some exOrphanedParsed
  /\ sessionExists emptyDb (ps_id exOrphanedParsed) = false
  /\ exists db' msg,
      exImportFile emptyDb "/logs/o.jsonl" exOrphaned true = (db', Err msg)
      /\ messages db' = messages emptyDb
      /\ exists row,
          sessions db' !! ps_id exOrphanedParsed = Some row
          /\ s_message_count row = length (ps_messages exOrphanedParsed)
          /\ s_is_stub row = false.
Proof.
  split; [reflexivity|]. split; [reflexivity|].
  eexists _, _. split; [vm_compute; reflexivity|].
  eapply (importFile_failure_keeps_session_row exNow exDigest exNowIso true emptyDb
            "/logs/o.jsonl" exOrphaned true exOrphanedParsed).
  - reflexivity.
  - reflexivity.
  - vm_compute. reflexivity.
Defined.

(** The question and its answer imported into an empty store. *)
Lemma importFile_stores_witness :
  parseFile "/logs/s2.jsonl" exDialogue
  = Some (default exParsed (parseFile "/logs/s2.jsonl" exDialogue))
  /\ reachesInsertion emptyDb (default exParsed (parseFile "/logs/s2.jsonl" exDialogue))
                       true = true
  /\ exists db',
      exImportFile emptyDb "/logs/s2.jsonl" exDialogue true = (db', Ok (Some 2))
      /\ sessionExists db' "s2" = true
      /\ isStub db' "s2" = false
      /\ Forall (fun m => uuidExists db' (pm_uuid m) = true)
                (ps_messages (default exParsed (parseFile "/logs/s2.jsonl" exDialogue)))
      /\ 2 <= length (ps_messages
                         (default exParsed (parseFile "/logs/s2.jsonl" exDialogue))).
Proof.
  split; [reflexivity|]. split; [reflexivity|].
  eexists. split; [vm_compute; reflexivity|].
  apply (importFile_stores_every_message exNow exDigest exNowIso true emptyDb
           "/logs/s2.jsonl" exDialogue true
           (default exParsed (parseFile "/logs/s2.jsonl" exDialogue)) _ 2).
  - reflexivity.
  - reflexivity.
  - vm_compute. reflexivity.
Defined.

(** The store left by the first import satisfies the invariant, and so
    does the store after a second file. *)
Lemma importFile_references_witness :
  messagesReferSessions emptyDb
  /\ messagesReferSessions (exImportFile emptyDb "/logs/s2.jsonl" exDialogue true).1.
Proof.
  split; [constructor|].
  apply (importFile_preserves_references exNow exDigest exNowIso true emptyDb
           "/logs/s2.jsonl" exDialogue true).
  constructor.
Defined.

(** Two new messages for session [s2], inserted twice. *)
Lemma createMany_idempotent_witness :
  exists db',
    createMany exNow exDigest exSessionOnly [exInput "m1" "one"; exInput "m2" "two"]
    = (db', Ok 2)
    /\ createMany exNow exDigest db' [exInput "m1" "one"; exInput "m2" "two"]
       = (db', Ok 0).
Proof.
  eexists. split; [vm_compute; reflexivity|].
  apply (RepositoryFacts.createMany_idempotent exNow exDigest exSessionOnly
           [exInput "m1" "one"; exInput "m2" "two"] _ 2).
  vm_compute. reflexivity.
Defined.

End ImportFileFacts.

Module ImportAllFailures.
Import ImportService Integrity Examples MoreExamples.

Section Loop.
Context {St : Type}.
Variable importFileFn : St -> string -> bool -> St * outcome (option nat).
Variable onProgress : option (St -> nat -> nat -> string -> St * outcome unit).
Variable onError : option (St -> string -> string -> St * outcome unit).
Variable skipExistingOpt : option bool.

Lemma catchFile_returns st r file msg :
  errorReturns onError ->
  exists st', catchFile onError st r file msg = (st', Ok (countFailed r file msg)).
Proof.
  intros Hret. unfold catchFile, callError.
  destruct onError as [f|] eqn:Hf; [|by eexists].
  specialize (Hret f st file msg eq_refl).
  destruct (f st file msg) as [st' [[]|e]]; simpl in Hret; [by eexists|done].
Qed.

Lemma importOne_returns st r i total file :
  errorReturns onError ->
  exists st' r',
    importOne importFileFn onProgress onError skipExistingOpt st r i total file
    = (st', Ok r').
Proof.
  intros Hret. unfold importOne.
  destruct (importFileFn st file _) as [st1 [res|msg]].
  - destruct (callProgress onProgress st1 (i + 1) total file) as [st2 [u|e]].
    + by eexists _, _.
    + destruct (catchFile_returns st2
                  match res with
                  | Some 0 => countSkipped r
                  | Some (S _ as n) => countImported r n
                  | None => countSkipped r
                  end file e Hret) as [st' ->]. by eexists _, _.
  - destruct (catchFile_returns st1 r file msg Hret) as [st' ->]. by eexists _, _.
Qed.

Lemma importLoop_returns files : forall st r i total,
  errorReturns onError ->
  exists st' r',
    importLoop importFileFn onProgress onError skipExistingOpt st r i total files
    = (st', Ok r').
Proof.
  induction files as [|file files IH]; intros st r i total Hret; simpl.
  - by eexists _, _.
  - destruct (importOne_returns st r i total file Hret) as (st1 & r1 & ->).
    by apply IH.
Qed.

(** X20: [importAll] never throws on account of a file or of the progress
    callback: as long as the error callback (if any) returns, the run
    goes through all files and returns its result. *)
Theorem importAll_survives_failing_files st files elapsed :
  errorReturns onError ->
  exists st' r,
    importAll importFileFn onProgress onError skipExistingOpt st files elapsed
    = (st', Ok r).
Proof.
  intros Hret. unfold importAll.
  destruct (importLoop_returns files st (initialResult (length files)) 0
                               (length files) Hret) as (st' & r & ->).
  by eexists _, _.
Qed.

End Loop.

(** Two files that cannot be read, a progress callback that throws, no
    error callback. *)
Lemma importAll_survives_witness :
  exists st' r,
    importAll exAlwaysFails (Some exThrowingProgress) None None Store.emptyDb
              ["/logs/a.jsonl"; "/logs/b.jsonl"] 7%Z
    = (st', Ok r).
Proof.
  apply (importAll_survives_failing_files exAlwaysFails (Some exThrowingProgress) None
           None Store.emptyDb ["/logs/a.jsonl"; "/logs/b.jsonl"] 7%Z).
  intros f st file msg Hf. discriminate Hf.
Defined.

End ImportAllFailures.

Module TagFacts.

Import TagRepository TagTables Text StringFacts.

Lemma lowerLatin1_idempotent c : lowerLatin1 (lowerLatin1 c) = lowerLatin1 c.
Proof. destruct c as [[] [] [] [] [] [] [] []]; vm_compute; reflexivity. Qed.

Lemma is_space_lowerLatin1 c : JS.is_space (lowerLatin1 c) = JS.is_space c.
Proof. destruct c as [[] [] [] [] [] [] [] []]; vm_compute; reflexivity. Qed.

Lemma chars_toLowerCase s :
  list_ascii_of_string (toLowerCase s) = map lowerLatin1 (list_ascii_of_string s).
Proof. induction s as [|c s IH]; simpl; [done|]. by rewrite IH. Qed.

Lemma dropSpaces_lower l :
  dropSpaces (map lowerLatin1 l) = map lowerLatin1 (dropSpaces l).
Proof.
  induction l as [|c l IH]; simpl; [done|].
  rewrite is_space_lowerLatin1. by destruct (JS.is_space c).
Qed.

Lemma toLowerCase_trim s : toLowerCase (JS.trim s) = JS.trim (toLowerCase s).
Proof.
  apply chars_inj.
  rewrite chars_toLowerCase, !chars_trim, chars_toLowerCase.
  by rewrite dropSpaces_lower, <- map_rev, dropSpaces_lower, <- map_rev.
Qed.

Lemma toLowerCase_idempotent s : toLowerCase (toLowerCase s) = toLowerCase s.
Proof.
  induction s as [|c s IH]; simpl; [done|].
  by rewrite lowerLatin1_idempotent, IH.
Qed.

Lemma normalizeName_idempotent name :
  normalizeName (normalizeName name) = normalizeName name.
Proof.
  unfold normalizeName.
  by rewrite toLowerCase_trim, toLowerCase_idempotent, trim_idempotent.
Qed.

Lemma find_existsb {A} (f : A -> bool) l :
  List.find f l = None <-> List.existsb f l = false.
Proof.
  induction l as [|x l IH]; simpl; [done|].
  destruct (f x); simpl; [split; discriminate|exact IH].
Qed.

Lemma find_snoc_new {A} (f : A -> bool) l x :
  List.find f l = None -> f x = true -> List.find f (l ++ [x]) = Some x.
Proof.
  induction l as [|y l IH]; simpl; intros Hn Hx.
  - by rewrite Hx.
  - destruct (f y); [done|]. by apply IH.
Qed.

Lemma find_holds {A} (f : A -> bool) l x : List.find f l = Some x -> f x = true.
Proof. intros H. by apply List.find_some in H as [_ H]. Qed.

(** X21: [findOrCreate] never fails; the tag it returns carries the
    normalized name, is found again under that name, and every spelling
    with the same normalized form gets the same tag without another
    change of the tables. *)
Theorem findOrCreate_resolves_spellings now t name color description :
  exists t' tag,
    findOrCreate now t name color description = Ok (t', tag)
    /\ t_name tag = normalizeName name
    /\ findByName t' (t_name tag) = Some tag
    /\ forall spelling c d,
         normalizeName spelling = normalizeName name ->
         findOrCreate now t' spelling c d = Ok (t', tag).
Proof.
  assert (Hgen : exists t' tag,
    findOrCreate now t name color description = Ok (t', tag)
    /\ t_name tag = normalizeName name
    /\ List.find (hasName (normalizeName name)) (tags t') = Some tag).
  { unfold findOrCreate, findByName.
    destruct (List.find (hasName (normalizeName name)) (tags t)) as [existing|] eqn:Hf.
    - exists t, existing. split; [done|]. split; [|done].
      apply find_holds in Hf. by apply streq_eq in Hf.
    - unfold create. simpl.
      rewrite (proj1 (find_existsb _ _) Hf).
      eexists _, _. split; [reflexivity|]. split; [done|]. simpl.
      apply find_snoc_new; [done|]. apply streq_refl. }
  destruct Hgen as (t' & tag & Hrun & Hname & Hfind).
  exists t', tag. split; [done|]. split; [done|]. split.
  - unfold findByName. by rewrite Hname, normalizeName_idempotent.
  - intros spelling c d Hsp. unfold findOrCreate, findByName.
    by rewrite Hsp, Hfind.
Qed.

(** *** Consistency of the tables *)

Lemma existsb_hasId t id :
  List.existsb (hasId id) t = true <-> id ∈ map t_id t.
Proof.
  rewrite List.existsb_exists, list_elem_of_fmap. split.
  - intros (tag & Hin & Hid). exists tag. apply Nat.eqb_eq in Hid.
    split; [done|]. by apply list_elem_of_In.
  - intros (tag & -> & Hin). exists tag. split; [by apply list_elem_of_In|].
    apply Nat.eqb_refl.
Qed.

Lemma existsb_hasName t n :
  List.existsb (hasName n) t = true <-> n ∈ map t_name t.
Proof.
  rewrite List.existsb_exists, list_elem_of_fmap. split.
  - intros (tag & Hin & Hid). exists tag. apply streq_eq in Hid.
    split; [done|]. by apply list_elem_of_In.
  - intros (tag & -> & Hin). exists tag. split; [by apply list_elem_of_In|].
    apply streq_refl.
Qed.

Lemma foldr_max_ge l x : x ∈ l -> x <= foldr Nat.max 0 l.
Proof.
  induction l as [|y l IH]; simpl; [by intros ?%elem_of_nil|].
  intros [->|H]%elem_of_cons; [lia|]. specialize (IH H). lia.
Qed.

Lemma nextId_fresh t : nextId t ∉ map t_id (tags t).
Proof.
  intros H%foldr_max_ge. unfold nextId in H. lia.
Qed.

Lemma create_consistent now t input t' tag :
  consistent t -> create now t input = Ok (t', tag) -> consistent t'.
Proof.
  intros [[Hn Hi Hnorm] Href]. unfold create.
  destruct (List.existsb _ (tags t)) eqn:He; [done|]. intros [= <- <-].
  split; [split|]; simpl.
  - rewrite map_app. simpl. apply NoDup_app. split; [done|]. split.
    + intros x Hx [->|[]%elem_of_nil]%elem_of_cons.
      apply existsb_hasName in Hx. congruence.
    + apply NoDup_singleton.
  - rewrite map_app. simpl. apply NoDup_app. split; [done|]. split.
    + intros x Hx [->|[]%elem_of_nil]%elem_of_cons.
      by apply nextId_fresh in Hx.
    + apply NoDup_singleton.
  - apply Forall_app. split; [done|]. constructor; [|constructor].
    simpl. apply normalizeName_idempotent.
  - intros s g Hsg. destruct (Href s g Hsg) as [Hs Hg]. split; [done|].
    simpl. rewrite List.existsb_app, Hg. done.
Qed.

Lemma map_replace_ids id row (l : list Tag) :
  t_id row = id ->
  map t_id (map (fun other => if hasId id other then row else other) l) = map t_id l.
Proof.
  intros Hrow. rewrite map_map. apply map_ext. intros other. unfold hasId.
  destruct (t_id other =? id) eqn:E; [|done]. apply Nat.eqb_eq in E. congruence.
Qed.

Lemma NoDup_replace_names id row (l : list Tag) :
  NoDup (map t_id l) -> NoDup (map t_name l) ->
  List.existsb (fun other => negb (hasId id other) && hasName (t_name row) other) l = false ->
  NoDup (map t_name (map (fun other => if hasId id other then row else other) l)).
Proof.
  induction l as [|x l IH]; simpl; [constructor|].
  intros Hi Hn He. apply NoDup_cons in Hi as [Hxi Hi]. apply NoDup_cons in Hn as [Hxn Hn].
  apply orb_false_iff in He as [Hx He].
  apply NoDup_cons. split; [|by apply IH].
  rewrite list_elem_of_fmap. intros (y & Hy & Hin).
  apply list_elem_of_fmap in Hin as (z & -> & Hz).
  assert (Hzi : t_id z <> t_id x).
  { intros E. apply Hxi. rewrite <- E. apply list_elem_of_fmap. by exists z. }
  assert (Hzn : t_name z <> t_name x).
  { intros E. apply Hxn. rewrite <- E. apply list_elem_of_fmap. by exists z. }
  assert (Hzrow : negb (hasId id z) && hasName (t_name row) z = false).
  { destruct (negb (hasId id z) && hasName (t_name row) z) eqn:E; [|done].
    assert (List.existsb
              (fun other => negb (hasId id other) && hasName (t_name row) other) l = true)
      by (apply List.existsb_exists; exists z; split; [by apply list_elem_of_In|done]).
    congruence. }
  unfold hasId, hasName in *.
  destruct (t_id x =? id) eqn:Ex; destruct (t_id z =? id) eqn:Ez; simpl in *.
  - apply Nat.eqb_eq in Ex, Ez. congruence.
  - apply streq_neq in Hzrow. congruence.
  - apply streq_neq in Hx. congruence.
  - congruence.
Qed.

Lemma existsb_replace id row (l : list Tag) g :
  t_id row = id ->
  List.existsb (hasId g) (map (fun other => if hasId id other then row else other) l)
  = List.existsb (hasId g) l.
Proof.
  intros Hrow. apply eq_true_iff_eq.
  by rewrite !existsb_hasId, map_replace_ids.
Qed.

Lemma update_consistent t id input t' r :
  consistent t -> update t id input = Ok (t', r) -> consistent t'.
Proof.
  intros Hc. unfold update.
  destruct (noTagFields input); [by intros [= <- _]|].
  destruct (findById t id) as [tag|] eqn:Hf; [|by intros [= <- _]].
  destruct (List.existsb _ (tags t)) eqn:He; [done|]. intros [= <- _].
  destruct Hc as [[Hn Hi Hnorm] Href].
  assert (Hid : t_id (updatedTag tag input) = id).
  { simpl. apply find_holds in Hf. by apply Nat.eqb_eq in Hf. }
  split; [split|]; simpl.
  - by apply NoDup_replace_names.
  - by rewrite map_replace_ids.
  - apply Forall_map. eapply Forall_impl; [exact Hnorm|]. intros other Ho. simpl.
    destruct (hasId id other); [|done]. simpl.
    destruct (ut_name input); [apply normalizeName_idempotent|].
    rewrite Forall_forall in Hnorm. apply Hnorm.
    apply List.find_some in Hf as [Hf _]. by apply list_elem_of_In.
  - intros s g Hsg. destruct (Href s g Hsg) as [Hs Hg]. split; [done|].
    simpl. by rewrite existsb_replace.
Qed.

Lemma NoDup_map_filter {A B} (f : A -> B) (p : A -> bool) l :
  NoDup (map f l) -> NoDup (map f (List.filter p l)).
Proof.
  induction l as [|x l IH]; simpl; [done|].
  intros [Hx Hl]%NoDup_cons. destruct (p x); simpl; [|by apply IH].
  apply NoDup_cons. split; [|by apply IH].
  intros (y & Hy & Hin)%list_elem_of_fmap. apply Hx.
  apply list_elem_of_fmap. exists y. split; [done|].
  apply list_elem_of_In in Hin. apply List.filter_In in Hin as [Hin _].
  by apply list_elem_of_In.
Qed.

Lemma delete_consistent t id : consistent t -> consistent (delete t id).1.
Proof.
  intros [[Hn Hi Hnorm] Href]. split; [split|]; simpl.
  - by apply NoDup_map_filter.
  - by apply NoDup_map_filter.
  - rewrite Forall_forall in Hnorm. apply Forall_forall. intros x Hx.
    apply Hnorm. apply list_elem_of_In in Hx. apply List.filter_In in Hx as [Hx _].
    by apply list_elem_of_In.
  - intros s g [Hg Hsg]%elem_of_filter. simpl in Hg.
    destruct (Href s g Hsg) as [Hs He]. split; [done|].
    apply List.existsb_exists in He as (tag & Hin & Htag).
    apply List.existsb_exists. exists tag. split; [|done].
    apply List.filter_In. split; [done|]. unfold hasId in *.
    apply Nat.eqb_eq in Htag. apply negb_true_iff, Nat.eqb_neq. congruence.
Qed.

Lemma addToSession_consistent t s g : consistent t -> consistent (addToSession t s g).1.
Proof.
  intros [Hwf Href]. unfold addToSession.
  destruct (bool_decide ((s, g) ∈ session_tags t)); [done|].
  destruct (bool_decide (s ∈ session_ids t) && List.existsb (hasId g) (tags t)) eqn:E;
    [|done].
  apply andb_true_iff in E as [Hs Hg]. apply bool_decide_eq_true in Hs.
  split; [by destruct Hwf|]. simpl.
  intros s' g' [[= -> ->]%elem_of_singleton|Hin]%elem_of_union; [done|].
  by apply Href.
Qed.

Lemma removeFromSession_consistent t s g :
  consistent t -> consistent (removeFromSession t s g).1.
Proof.
  intros [Hwf Href]. split; [by destruct Hwf|]. simpl.
  intros s' g' [Hin _]%elem_of_difference. by apply Href.
Qed.

Lemma insertTags_spec s ids : forall t,
  match insertTags t s ids with
  | Ok t' =>
      NoDup ids
      /\ (forall g, g ∈ ids -> (s, g) ∉ session_tags t)
      /\ (ids = [] \/ s ∈ session_ids t)
      /\ Forall (fun g => List.existsb (hasId g) (tags t) = true) ids
      /\ session_ids t' = session_ids t /\ tags t' = tags t /\ tag_seq t' = tag_seq t
      /\ forall st, st ∈ session_tags t'
                    <-> (st.1 = s /\ st.2 ∈ ids) \/ st ∈ session_tags t
  | Err _ =>
      ~ (NoDup ids
         /\ (forall g, g ∈ ids -> (s, g) ∉ session_tags t)
         /\ (ids = [] \/ s ∈ session_ids t)
         /\ Forall (fun g => List.existsb (hasId g) (tags t) = true) ids)
  end.
Proof.
  induction ids as [|g ids IH]; intros t; simpl.
  - split; [constructor|]. split; [by intros g ?%elem_of_nil|]. split; [by left|].
    split; [constructor|]. repeat split; try done.
    + intros H. by right.
    + intros [[_ ?%elem_of_nil]|H]; done.
  - destruct (bool_decide ((s, g) ∈ session_tags t)) eqn:Hdup.
    { apply bool_decide_eq_true in Hdup. intros (_ & Hfresh & _).
      apply (Hfresh g); [left|done]. }
    apply bool_decide_eq_false in Hdup.
    destruct (bool_decide (s ∈ session_ids t) && List.existsb (hasId g) (tags t)) eqn:Hfk;
      simpl.
    2:{ intros (_ & _ & Hs & Hg). apply Forall_cons in Hg as [Hg _].
        destruct Hs as [?|Hs]; [done|].
        apply andb_false_iff in Hfk as [Hfk|Hfk]; [|congruence].
        by apply bool_decide_eq_false in Hfk. }
    apply andb_true_iff in Hfk as [Hs Hg]. apply bool_decide_eq_true in Hs.
    specialize (IH (mkTables (session_ids t) (tags t) (tag_seq t)
                             ({[ (s, g) ]} ∪ session_tags t))).
    destruct (insertTags _ s ids) as [t'|msg]; simpl in IH.
    + destruct IH as (Hnd & Hfresh & _ & Hall & Hsid & Htags & Hseq & Hmem).
      split.
      { apply NoDup_cons. split; [|done]. intros Hin.
        apply (Hfresh g Hin). apply elem_of_union. left. by apply elem_of_singleton. }
      split.
      { intros g' [->|Hin]%elem_of_cons; [done|].
        intros Hc. apply (Hfresh g' Hin). apply elem_of_union. by right. }
      split; [by right|]. split; [by constructor|].
      split; [done|]. split; [done|]. split; [done|].
      intros [s' g']. rewrite Hmem. simpl. rewrite elem_of_union, elem_of_singleton,
        elem_of_cons. split.
      * intros [[-> Hin]|[[= -> ->]|Hin]]; [left|left|right]; auto.
      * intros [[-> [->|Hin]]|Hin]; [right; left|left|right; right]; auto.
    + intros (Hnd & Hfresh & _ & Hall). apply IH.
      apply NoDup_cons in Hnd as [Hg' Hnd]. apply Forall_cons in Hall as [_ Hall].
      split; [done|]. split.
      { intros g' Hin [[= ->]%elem_of_singleton|Hc]%elem_of_union; [done|].
        apply (Hfresh g'); [by right|done]. }
      split; [by right|done].
Qed.

Lemma setSessionTags_consistent t s ids :
  consistent t -> consistent (setSessionTags t s ids).1.
Proof.
  intros [Hwf Href]. unfold setSessionTags.
  pose proof (insertTags_spec s ids
    (mkTables (session_ids t) (tags t) (tag_seq t)
              (filter (fun st : string * nat => st.1 <> s) (session_tags t)))) as H.
  destruct (insertTags _ s ids) as [t'|msg]; simpl; [|done].
  simpl in H. destruct H as (_ & _ & Hs & Hall & Hsid & Htags & _ & Hmem).
  split.
  - destruct Hwf as [Hn Hi Hnorm]. split; by rewrite Htags.
  - intros s' g' Hin. apply Hmem in Hin. simpl in Hin. rewrite Hsid, Htags.
    destruct Hin as [[-> Hin]|[_ Hin]%elem_of_filter]; [|by apply Href].
    rewrite Forall_forall in Hall. split; [|by apply Hall].
    destruct Hs as [->|Hs]; [by apply elem_of_nil in Hin|done].
Qed.

Lemma addToSessionByName_consistent now t s name t' tag :
  consistent t -> addToSessionByName now t s name = Ok (t', tag) -> consistent t'.
Proof.
  intros Hc. unfold addToSessionByName, findOrCreate.
  destruct (findByName t name) as [existing|].
  - intros [= <- _]. by apply addToSession_consistent.
  - destruct (create now t _) as [[t1 tag1]|msg] eqn:Hcreate; [|done].
    intros [= <- _]. apply addToSession_consistent. by eapply create_consistent.
Qed.

(** X22: the operations that change the tag tables keep them consistent:
    tag names stay unique and normalized, tag ids unique, and every
    session-tag pair names a session and a tag that exist. *)
Theorem tag_operations_keep_consistency now t :
  consistent t ->
  (forall input t' tag, create now t input = Ok (t', tag) -> consistent t')
  /\ (forall id input t' r, update t id input = Ok (t', r) -> consistent t')
  /\ (forall id, consistent (delete t id).1)
  /\ (forall s g, consistent (addToSession t s g).1)
  /\ (forall s name t' tag,
        addToSessionByName now t s name = Ok (t', tag) -> consistent t')
  /\ (forall s g, consistent (removeFromSession t s g).1)
  /\ (forall s ids, consistent (setSessionTags t s ids).1).
Proof.
  intros Hc. split; [|split; [|split; [|split; [|split; [|split]]]]].
  - intros input t' tag H. by eapply create_consistent.
  - intros id input t' r H. by eapply update_consistent.
  - intros id. by apply delete_consistent.
  - intros s g. by apply addToSession_consistent.
  - intros s name t' tag H. by eapply addToSessionByName_consistent.
  - intros s g. by apply removeFromSession_consistent.
  - intros s ids. by apply setSessionTags_consistent.
Qed.

Lemma exTags_consistent : consistent exTags.
Proof.
  split; [split|].
  - apply (bool_decide_unpack _). by vm_compute.
  - apply (bool_decide_unpack _). by vm_compute.
  - repeat constructor.
  - intros s g Hin. simpl in Hin. apply elem_of_singleton in Hin as [= -> ->].
    split; [|done]. change ("s1" ∈ ({[ "s1" ]} : gset string)).
    by apply elem_of_singleton.
Qed.

Lemma tag_operations_witness :
  consistent exTags /\ consistent (delete exTags 1).1.
Proof.
  split; [exact exTags_consistent|].
  apply (tag_operations_keep_consistency "" exTags exTags_consistent).
Defined.

(** X23: [setSessionTags] replaces the tags of the session by exactly the
    given ids and touches no other session when the ids are distinct,
    the tags exist and (for a non-empty list) the session exists; in
    every other case it throws and leaves the tables as they were. *)
Theorem setSessionTags_all_or_nothing t s ids :
  match setSessionTags t s ids with
  | (t', Ok _) =>
      assignable t s ids
      /\ session_ids t' = session_ids t /\ tags t' = tags t
      /\ forall s' g, (s', g) ∈ session_tags t'
                      <-> (s' = s /\ g ∈ ids) \/ (s' <> s /\ (s', g) ∈ session_tags t)
  | (t', Err _) => ~ assignable t s ids /\ t' = t
  end.
Proof.
  unfold assignable, setSessionTags.
  pose proof (insertTags_spec s ids
    (mkTables (session_ids t) (tags t) (tag_seq t)
              (filter (fun st : string * nat => st.1 <> s) (session_tags t)))) as H.
  assert (Hfresh : forall g, g ∈ ids ->
            (s, g) ∉ filter (fun st : string * nat => st.1 <> s) (session_tags t)).
  { intros g _ [Hne _]%elem_of_filter. by apply Hne. }
  destruct (insertTags _ s ids) as [t'|msg]; simpl in H.
  - destruct H as (Hnd & _ & Hs & Hall & Hsid & Htags & _ & Hmem).
    split; [by repeat split|]. split; [done|]. split; [done|].
    intros s' g. rewrite Hmem, elem_of_filter. simpl. tauto.
  - split; [|done]. intros (Hnd & Hs & Hall). apply H. by repeat split.
Qed.

End TagFacts.

Module MigrationFacts.

Import MigrationRunner Migrations.

Section Runner.

Context {Schema : Type}.
Variable exec : Schema -> string -> outcome Schema.
Variable now : string.

Lemma applyMigration_records db m db' :
  applyMigration exec now db m = Ok db' ->
  schema_migrations db' = schema_migrations db ++ [recordOf now m].
Proof.
  unfold applyMigration. destruct (exec _ _); [|done].
  destruct (isMigrationApplied _ _); [done|]. by intros [= <-].
Qed.

Lemma migrateLoop_spec cv ms : forall db r db' r',
  migrateLoop exec now cv db r ms = (db', r') ->
  exists rest,
    List.filter (fun m => cv <? version m) ms = skipn (length (applied r)) (applied r') ++ rest
    /\ firstn (length (applied r)) (applied r') = applied r
    /\ schema_migrations db'
       = schema_migrations db
         ++ map (recordOf now) (skipn (length (applied r)) (applied r'))
    /\ ((rest = [] /\ errors r' = errors r
         /\ skipped r'
            = skipped r + length (List.filter (fun m => version m <=? cv) ms))
        \/ (exists m message rest',
              rest = m :: rest'
              /\ errors r' = errors r ++ [(version m, message)]
              /\ applyMigration exec now db' m = Err message)).
Proof.
  induction ms as [|m ms IH]; intros db r db' r'; simpl.
  - intros [= <- <-]. exists []. rewrite skipn_all, firstn_all, !app_nil_r.
    split; [done|]. split; [done|]. split; [done|]. left.
    split; [done|]. split; [done|]. lia.
  - destruct (version m <=? cv) eqn:Hv.
    + assert (Hlt : (cv <? version m) = false)
        by (apply Nat.ltb_ge; by apply Nat.leb_le in Hv).
      rewrite Hlt.
      intros Hrun. apply IH in Hrun as (rest & Hf & Hpre & Hrows & Hend). simpl in *.
      exists rest. split; [done|]. split; [done|]. split; [done|].
      destruct Hend as [(-> & He & Hs)|Hend]; [left|by right].
      split; [done|]. split; [done|]. lia.
    + assert (Hlt : (cv <? version m) = true)
        by (apply Nat.ltb_lt; apply Nat.leb_gt in Hv; lia).
      rewrite Hlt.
      destruct (applyMigration exec now db m) as [db1|message] eqn:Happly.
      * intros Hrun. apply IH in Hrun as (rest & Hf & Hpre & Hrows & Hend). simpl in *.
        rewrite length_app in Hf, Hpre, Hrows. simpl in *.
        assert (Hr' : applied r' = applied r ++ m :: skipn (length (applied r) + 1) (applied r')).
        { rewrite <- (firstn_skipn (length (applied r) + 1) (applied r')) at 1.
          rewrite Hpre, <- app_assoc. done. }
        assert (Hskip : skipn (length (applied r)) (applied r')
                        = m :: skipn (length (applied r) + 1) (applied r')).
        { rewrite Hr' at 1. rewrite skipn_app, skipn_all, Nat.sub_diag. done. }
        exists rest. rewrite Hskip. simpl. rewrite Hf. split; [done|]. split.
        { rewrite Hr'. rewrite firstn_app, firstn_all, Nat.sub_diag. simpl.
          by rewrite app_nil_r. }
        split.
        { rewrite Hrows, (applyMigration_records _ _ _ Happly), <- app_assoc. done. }
        destruct Hend as [(-> & He & Hs)|Hend]; [left|by right].
        split; [done|]. split; [done|]. done.
      * intros [= <- <-]. simpl. exists (m :: List.filter (fun m => cv <? version m) ms).
        rewrite skipn_all, firstn_all, app_nil_r.
        split; [done|]. split; [done|]. split; [done|].
        right. by exists m, message, (List.filter (fun m => cv <? version m) ms).
Qed.

(** X24: [migrate] applies the migrations above the current version in
    the order given, up to the first one that fails: those before it
    stay applied and recorded, the failing one is the only error and
    none after it is tried; without a failure every pending migration is
    applied and all others are counted as skipped. *)
Theorem migrate_applies_pending_in_order db migrations :
  let (db', result) := migrate exec now db migrations in
  exists rest,
    pending db migrations = applied result ++ rest
    /\ schema_migrations db'
       = schema_migrations db ++ map (recordOf now) (applied result)
    /\ ((rest = [] /\ errors result = []
         /\ skipped result + length (applied result) = length migrations)
        \/ (exists m message rest',
              rest = m :: rest'
              /\ errors result = [(version m, message)]
              /\ applyMigration exec now db' m = Err message)).
Proof.
  destruct (migrate exec now db migrations) as [db' result] eqn:Hrun.
  unfold migrate in Hrun.
  apply migrateLoop_spec in Hrun as (rest & Hf & _ & Hrows & Hend). simpl in *.
  rewrite drop_0 in Hf, Hrows.
  exists rest. split; [done|]. split; [done|].
  destruct Hend as [(-> & He & Hs)|Hend]; [left|by right].
  split; [done|]. split; [done|]. rewrite Hs.
  rewrite app_nil_r in Hf. rewrite <- Hf.
  clear. induction migrations as [|m ms IH]; simpl; [done|].
  destruct (version m <=? getCurrentVersion db) eqn:E.
  - assert (Hlt : (getCurrentVersion db <? version m) = false)
      by (apply Nat.ltb_ge; by apply Nat.leb_le in E).
    rewrite Hlt.
    simpl. lia.
  - assert (Hlt : (getCurrentVersion db <? version m) = true)
      by (apply Nat.ltb_lt; apply Nat.leb_gt in E; lia).
    rewrite Hlt.
    simpl. lia.
Qed.

Lemma foldr_max_app l1 l2 :
  foldr Nat.max 0 (l1 ++ l2) = Nat.max (foldr Nat.max 0 l1) (foldr Nat.max 0 l2).
Proof. induction l1 as [|x l1 IH]; simpl; [done|]. rewrite IH. lia. Qed.

Lemma foldr_max_bound l x : In x l -> x <= foldr Nat.max 0 l.
Proof.
  induction l as [|y l IH]; simpl; [done|].
  intros [->|H]; [lia|]. specialize (IH H). lia.
Qed.

Lemma migrateLoop_all_skipped cv db r ms :
  Forall (fun m => version m <= cv) ms ->
  migrateLoop exec now cv db r ms
  = (db, mkMigrationResult (applied r) (skipped r + length ms) (errors r)).
Proof.
  intros H. revert r. induction H as [|m ms Hm _ IH]; intros r; simpl.
  - rewrite Nat.add_0_r. by destruct r.
  - apply Nat.leb_le in Hm. rewrite Hm, IH. simpl. do 2 f_equal. lia.
Qed.

(** X25: after a run of [migrate] without an error, a second run on the
    same migrations applies nothing: it skips every one of them and
    leaves the database as it is. *)
Theorem migrate_twice_applies_nothing db migrations db' result :
  migrate exec now db migrations = (db', result) ->
  errors result = [] ->
  migrate exec now db' migrations
  = (db', mkMigrationResult [] (length migrations) []).
Proof.
  intros Hrun Herr. unfold migrate in Hrun.
  apply migrateLoop_spec in Hrun as (rest & Hf & _ & Hrows & Hend). simpl in *.
  rewrite drop_0 in Hf, Hrows.
  destruct Hend as [(-> & _ & _)|(m & message & rest' & _ & He & _)];
    [|rewrite He in Herr; done].
  rewrite app_nil_r in Hf.
  unfold migrate. rewrite migrateLoop_all_skipped; [done|].
  apply Forall_forall. intros m Hm. apply list_elem_of_In in Hm.
  unfold getCurrentVersion at 1. rewrite Hrows, map_app, foldr_max_app.
  fold (getCurrentVersion db).
  destruct (getCurrentVersion db <? version m) eqn:E.
  - assert (Hin : In m (applied result)).
    { rewrite <- Hf. apply List.filter_In. by split. }
    assert (In (version m) (map am_version (map (recordOf now) (applied result)))).
    { rewrite map_map. simpl. apply (List.in_map version _ _ Hin). }
    apply foldr_max_bound in H. lia.
  - apply Nat.ltb_ge in E. lia.
Qed.

End Runner.

Lemma migrate_twice_witness :
  migrate exExec "2025-02-02 00:00:00" exMigrated exMigrations
  = (mkDatabase ["CREATE TABLE sessions (id TEXT)"; "CREATE TABLE projects (id INTEGER)"]
       [mkApplied 1 "initial_schema" "2025-01-01 00:00:00" (Some "c1");
        mkApplied 2 "add_projects" "2025-02-02 00:00:00" (Some "c2")],
     mkMigrationResult [mkMigration 2 "add_projects" "CREATE TABLE projects (id INTEGER)" "c2"]
       1 [])
  /\ migrate exExec "2025-02-02 00:00:00"
       (mkDatabase ["CREATE TABLE sessions (id TEXT)"; "CREATE TABLE projects (id INTEGER)"]
          [mkApplied 1 "initial_schema" "2025-01-01 00:00:00" (Some "c1");
           mkApplied 2 "add_projects" "2025-02-02 00:00:00" (Some "c2")])
       exMigrations
     = (mkDatabase ["CREATE TABLE sessions (id TEXT)"; "CREATE TABLE projects (id INTEGER)"]
          [mkApplied 1 "initial_schema" "2025-01-01 00:00:00" (Some "c1");
           mkApplied 2 "add_projects" "2025-02-02 00:00:00" (Some "c2")],
        mkMigrationResult [] 2 []).
Proof.
  split; [reflexivity|].
  apply (migrate_twice_applies_nothing exExec "2025-02-02 00:00:00" exMigrated exMigrations
           _ _ eq_refl eq_refl).
Defined.

End MigrationFacts.

Module QueryFacts.

Import MessageRepository Text StringFacts.

Lemma endsWith_chars c s :
  endsWith c s = true <-> exists r, list_ascii_of_string s = r ++ [c].
Proof.
  unfold endsWith.
  assert (Hrev : list_ascii_of_string (JS.rev_string "" s) = rev (list_ascii_of_string s))
    by (by rewrite chars_rev_string, app_nil_r).
  destruct (JS.rev_string "" s) as [|d u] eqn:Hu; simpl in *.
  - split; [done|]. intros [r Hr]. rewrite Hr, rev_app_distr in Hrev. done.
  - split.
    + intros ->%Ascii.eqb_eq. exists (rev (list_ascii_of_string u)).
      rewrite <- (rev_involutive (list_ascii_of_string s)), <- Hrev. done.
    + intros [r Hr]. rewrite Hr, rev_app_distr in Hrev. simpl in Hrev.
      injection Hrev as -> _. apply Ascii.eqb_refl.
Qed.

Lemma wrapped_trimmed inner :
  JS.trim (String dquote inner +:+ String dquote "")
  = String dquote inner +:+ String dquote "".
Proof.
  apply trim_fix. rewrite append_cons. simpl. rewrite chars_append. simpl.
  split; [done|]. unfold lastNotSpace.
  rewrite app_comm_cons, rev_app_distr. done.
Qed.

Lemma wrapped_delimited inner :
  delimitedBy dquote (String dquote inner +:+ String dquote "").
Proof.
  split; [done|]. apply endsWith_chars.
  exists (dquote :: list_ascii_of_string inner).
  rewrite append_cons. simpl. by rewrite chars_append.
Qed.

(** X26: [escapeFtsQuery] always returns a string that starts and ends
    with the same quote character, and escaping an escaped query changes
    nothing. *)
Theorem escapeFtsQuery_idempotent query :
  (delimitedBy dquote (escapeFtsQuery query) \/ delimitedBy squote (escapeFtsQuery query))
  /\ escapeFtsQuery (escapeFtsQuery query) = escapeFtsQuery query.
Proof.
  assert (Hcases :
    (escapeFtsQuery query = JS.trim query
     /\ (startsWith dquote (JS.trim query) && endsWith dquote (JS.trim query))
        || (startsWith squote (JS.trim query) && endsWith squote (JS.trim query)) = true)
    \/ escapeFtsQuery query
       = String dquote (doubleQuotes (JS.trim query)) +:+ String dquote "").
  { unfold escapeFtsQuery.
    destruct ((startsWith dquote (JS.trim query) && endsWith dquote (JS.trim query))
              || (startsWith squote (JS.trim query) && endsWith squote (JS.trim query)));
      [left|right]; done. }
  destruct Hcases as [[He Hq]|He]; rewrite He.
  - split.
    + apply orb_true_iff in Hq as [[H1 H2]%andb_true_iff|[H1 H2]%andb_true_iff];
        [left|right]; by split.
    + unfold escapeFtsQuery. by rewrite trim_idempotent, Hq.
  - split; [left; apply wrapped_delimited|].
    unfold escapeFtsQuery. rewrite wrapped_trimmed.
    destruct (wrapped_delimited (doubleQuotes (JS.trim query))) as [-> ->]. reflexivity.
Qed.

End QueryFacts.

Module DeletionFacts.

Import Store JsonlParser ImportService MessageRepository Integrity StringFacts Examples MoreExamples.

Section Facts.
Variable now : string.
Variable md5 : string -> string.
Variable nowIso : string.
Variable hasProjectRepo : bool.

(** The rows the loop of [createMany] adds carry the session id of the
    inputs. *)
Lemma createManyLoop_session id inputs :
  Forall (fun i => mi_session_id i = None \/ mi_session_id i = Some id) inputs ->
  forall db created db' created',
    createManyLoop now md5 db inputs created = Ok (db', created') ->
    exists rows,
      messages db' = messages db ++ rows
      /\ Forall (fun m => m_session_id m = id) rows
      /\ sessions db' = sessions db.
Proof.
  induction 1 as [|input inputs Hin Hall IH]; intros db created db' created'; simpl.
  - intros [= <- <-]. exists []. by rewrite app_nil_r.
  - unfold messageCreate.
    destruct (mi_session_id input) as [sid|] eqn:Hsid; [|done].
    destruct Hin as [Hin|Hin]; [done|]. injection Hin as ->.
    destruct (uuidExists db (mi_uuid input)); [apply IH|].
    destruct (negb (sessionExists db id)); [done|].
    intros (rows & Hrows & Hids & Hsess)%IH. simpl in *.
    eexists (_ :: rows). rewrite Hrows, <- app_assoc. split; [done|].
    split; [by constructor|done].
Qed.

Lemma filter_other_sessions db id :
  messagesReferSessions db -> sessionExists db id = false ->
  List.filter (fun m => negb (JS.streq (m_session_id m) id)) (messages db) = messages db.
Proof.
  unfold messagesReferSessions. intros Hall Hnew.
  induction Hall as [|m ms Hm _ IH]; simpl; [done|].
  destruct (JS.streq (m_session_id m) id) eqn:E; simpl; [|by rewrite IH].
  apply streq_eq in E. congruence.
Qed.

Lemma filter_own_session id (rows : list Message) :
  Forall (fun m => m_session_id m = id) rows ->
  List.filter (fun m => negb (JS.streq (m_session_id m) id)) rows = [].
Proof.
  induction 1 as [|m ms Hm _ IH]; simpl; [done|].
  by rewrite Hm, streq_refl.
Qed.

Lemma sessionDelete_restores db db4 id row rows :
  sessions db4 = <[id := row]> (sessions db) ->
  messages db4 = messages db ++ rows ->
  Forall (fun m => m_session_id m = id) rows ->
  messagesReferSessions db -> sessionExists db id = false ->
  (sessionDelete db4 id).2 = true
  /\ sessions (sessionDelete db4 id).1 = sessions db
  /\ messages (sessionDelete db4 id).1 = messages db.
Proof.
  intros Hs Hm Hrows Hinv Hnew. unfold sessionDelete.
  assert (Hnone : sessions db !! id = None).
  { unfold sessionExists in Hnew. apply bool_decide_eq_false in Hnew.
    by apply eq_None_not_Some. }
  rewrite Hs, lookup_insert_eq. simpl. split; [done|]. split.
  - rewrite delete_insert_eq. by apply delete_id.
  - rewrite Hm, List.filter_app, (filter_own_session _ _ Hrows), app_nil_r.
    by apply filter_other_sessions.
Qed.

(** X27: deleting a conversation that [importFile] has just brought in
    takes back every row the import added to [sessions] and [messages],
    whether the import succeeded or failed half way. *)
Theorem delete_takes_back_import db filePath lines skipExisting session :
  parseFile filePath lines = Some session ->
  sessionExists db (ps_id session) = false ->
  messagesReferSessions db ->
  let db' := (importFile now md5 nowIso hasProjectRepo db filePath lines skipExisting).1 in
  (sessionDelete db' (ps_id session)).2 = true
  /\ sessions (sessionDelete db' (ps_id session)).1 = sessions db
  /\ messages (sessionDelete db' (ps_id session)).1 = messages db.
Proof.
  intros Hparse Hnew Hinv. unfold importFile. rewrite Hparse.
  rewrite ImportFileFacts.importSession_unfold. cbv zeta. rewrite Hnew.
  rewrite andb_false_r. simpl negb. cbv iota. simpl andb. cbv iota.
  destruct (ImportFileFacts.projectStep_frame hasProjectRepo db session) as (Hs1 & Hm1 & Hpe).
  unfold sessionCreate.
  assert (Hnew1 : sessionExists (projectStep hasProjectRepo db session).1
                    (in_id (sessionInput nowIso session
                                         (projectStep hasProjectRepo db session).2))
                  = false).
  { unfold sessionExists in *. simpl. by rewrite Hs1. }
  rewrite Hnew1.
  simpl in_project_id. rewrite Hpe. simpl negb. cbv iota.
  set (db2 := setSessions _ _).
  assert (Hs2 : exists row, sessions db2 = <[ps_id session := row]> (sessions db)).
  { eexists. unfold db2. simpl. by rewrite Hs1. }
  destruct Hs2 as [row Hs2].
  assert (Hm2 : messages db2 = messages db) by (unfold db2; simpl; by rewrite Hm1).
  unfold createMany.
  destruct (createManyLoop now md5 db2 _ 0) as [[db3 created]|msg] eqn:Hloop.
  - apply (createManyLoop_session (ps_id session)) in Hloop
      as (rows & Hrows & Hids & Hs3);
      [|by apply (ImportFacts.parseFile_session_ids filePath lines)].
    cbn [fst].
    eapply (sessionDelete_restores db _ (ps_id session) _ rows); try done.
    + unfold sessionUpdate. simpl noFields. cbv iota.
      rewrite Hs3, Hs2, lookup_insert_eq. simpl.
      rewrite insert_insert_eq. done.
    + rewrite (ImportFacts.sessionUpdate_messages now db3 (ps_id session)).
      by rewrite Hrows, Hm2.
  - cbn [fst].
    eapply (sessionDelete_restores db _ (ps_id session) row []); try done.
    by rewrite app_nil_r.
Qed.

End Facts.

Lemma delete_takes_back_witness :
  sessions (sessionDelete
              (importFile exNow exDigest exNowIso true emptyDb "/logs/s1.jsonl" exLines true).1
              (ps_id exParsed)).1 = sessions emptyDb.
Proof.
  apply (delete_takes_back_import exNow exDigest exNowIso true emptyDb
           "/logs/s1.jsonl" exLines true exParsed).
  - reflexivity.
  - reflexivity.
  - constructor.
Defined.

End DeletionFacts.

Module VectorStoreFacts.

Import ChunkIndexer EmbeddingService VectorStore.

Lemma sliceNat_length {A} (l : list A) i :
  i < length l ->
  1 <= length (sliceNat l i (Nat.min (i + UPSERT_BATCH_SIZE) (length l)))
    <= UPSERT_BATCH_SIZE.
Proof.
  intros Hi. unfold sliceNat, UPSERT_BATCH_SIZE.
  rewrite length_take, length_drop. lia.
Qed.

Lemma sliceNat_step {A} (l : list A) n i stop :
  length l = n -> i < n -> Nat.min (i + UPSERT_BATCH_SIZE) n <= stop ->
  sliceNat l i (Nat.min (i + UPSERT_BATCH_SIZE) n)
  ++ sliceNat l (i + UPSERT_BATCH_SIZE) stop
  = sliceNat l i stop.
Proof.
  intros Hn Hi Hstop. unfold sliceNat, UPSERT_BATCH_SIZE in *.
  destruct (Nat.le_gt_cases (i + 50) n) as [Hle|Hgt].
  - rewrite Nat.min_l in * by done.
    replace (i + 50 - i) with 50 by lia.
    replace (stop - i) with (50 + (stop - (i + 50))) by lia.
    rewrite <- take_take_drop, drop_drop. done.
  - rewrite Nat.min_r in * by lia.
    rewrite (drop_ge l (i + 50)) by lia. rewrite take_nil, app_nil_r.
    rewrite !take_ge; [done| |]; rewrite length_drop; lia.
Qed.

Section Store.

Variable upsert : UpsertRequest -> outcome unit.
Variable chunks : list ChunkDocument.
Variable embeddings : list (option EmbeddingResult).

Lemma requestAt_wellSized i :
  i < length chunks -> upsert (requestAt chunks embeddings i) = Ok tt ->
  wellSized upsert chunks embeddings (requestAt chunks embeddings i).
Proof.
  intros Hi Hacc. split; [done|]. unfold requestAt. simpl.
  rewrite !length_map.
  pose proof (sliceNat_length chunks i Hi) as Hc.
  split; [done|]. split.
  - unfold sliceNat. rewrite !length_take, !length_drop, length_map. done.
  - split; [done|]. intros He.
    unfold sliceNat. rewrite !length_take, !length_drop, He. done.
Qed.

Lemma upsertLoop_spec fuel : forall i sent,
  length chunks <= i + UPSERT_BATCH_SIZE * fuel ->
  exists new stop result,
    upsertLoop upsert fuel chunks embeddings i sent = (sent ++ new, result)
    /\ Forall (wellSized upsert chunks embeddings) new
    /\ concat (map rq_ids new) = map doc_id (sliceNat chunks i stop)
    /\ concat (map rq_documents new) = map doc_content (sliceNat chunks i stop)
    /\ concat (map rq_metadatas new) = map doc_metadata (sliceNat chunks i stop)
    /\ (length embeddings = length chunks ->
        concat (map rq_embeddings new)
        = map (fmap embedding) (sliceNat embeddings i stop))
    /\ ((result = Ok tt /\ stop = Nat.max i (length chunks))
        \/ (i <= stop < length chunks
            /\ exists msg, result = Err msg
                           /\ upsert (requestAt chunks embeddings stop) = Err msg)).
Proof.
  induction fuel as [|fuel IH]; intros i sent Hfuel; simpl.
  - exists [], (Nat.max i (length chunks)), (Ok tt).
    assert (Hnil : forall A (l : list A), length l = length chunks ->
              sliceNat l i (Nat.max i (length chunks)) = []).
    { intros A l Hl. unfold sliceNat. rewrite drop_ge by lia. apply take_nil. }
    rewrite app_nil_r, (Hnil _ chunks eq_refl). simpl.
    split; [done|]. split; [constructor|]. split; [done|]. split; [done|].
    split; [done|]. split; [|by left].
    intros He. by rewrite (Hnil _ embeddings He).
  - destruct (length chunks <=? i) eqn:Hdone.
    + apply Nat.leb_le in Hdone.
      exists [], (Nat.max i (length chunks)), (Ok tt).
      assert (Hnil : forall A (l : list A), length l = length chunks ->
                sliceNat l i (Nat.max i (length chunks)) = []).
      { intros A l Hl. unfold sliceNat. rewrite drop_ge by lia. apply take_nil. }
      rewrite app_nil_r, (Hnil _ chunks eq_refl). simpl.
      split; [done|]. split; [constructor|]. split; [done|]. split; [done|].
      split; [done|]. split; [|by left].
      intros He. by rewrite (Hnil _ embeddings He).
    + apply Nat.leb_gt in Hdone.
      destruct (upsert (requestAt chunks embeddings i)) as [[]|msg] eqn:Hacc.
      * destruct (IH (i + UPSERT_BATCH_SIZE) (sent ++ [requestAt chunks embeddings i]))
          as (new & stop & result & Hrun & Hwell & Hids & Hdocs & Hmeta & Hemb & Hend);
          [unfold UPSERT_BATCH_SIZE in *; lia|].
        assert (Hstop : Nat.min (i + UPSERT_BATCH_SIZE) (length chunks) <= stop
                        /\ (stop = Nat.max (i + UPSERT_BATCH_SIZE) (length chunks) ->
                            length chunks <= stop)).
        { destruct Hend as [[_ ->]|(Hs & _)]; lia. }
        destruct Hstop as [Hstop Hmax].
        set (stop' := if decide (stop = Nat.max (i + UPSERT_BATCH_SIZE) (length chunks))
                      then Nat.max i (length chunks) else stop).
        assert (Hsame : forall A (l : list A), length l = length chunks ->
                  sliceNat l i stop' = sliceNat l i stop).
        { intros A l Hl. unfold stop'. destruct (decide _) as [Heq|]; [|done].
          specialize (Hmax Heq). unfold sliceNat.
          rewrite !take_ge; [done| |]; rewrite length_drop; lia. }
        exists (requestAt chunks embeddings i :: new), stop', result.
        rewrite Hrun, <- app_assoc. split; [done|].
        split; [constructor; [by apply requestAt_wellSized|done]|].
        cbn [map concat]. rewrite Hids, Hdocs, Hmeta.
        rewrite !(Hsame _ chunks eq_refl).
        unfold requestAt at 1 2 3. cbn [rq_ids rq_documents rq_metadatas].
        split; [by rewrite <- map_app, (sliceNat_step chunks (length chunks))|].
        split.
        { rewrite <- (sliceNat_step chunks (length chunks) i stop) by done.
          rewrite map_app. f_equal. unfold sliceNat.
          by rewrite List.skipn_map, List.firstn_map. }
        split; [by rewrite <- map_app, (sliceNat_step chunks (length chunks))|].
        split.
        { intros He. rewrite (Hemb He), (Hsame _ embeddings He).
          unfold requestAt. cbn [rq_embeddings].
          rewrite <- map_app. f_equal.
          by apply (sliceNat_step embeddings (length chunks)). }
        destruct Hend as [[-> ->]|(Hs & Hrej)].
        -- left. split; [done|]. unfold stop'. by rewrite decide_True.
        -- right. unfold stop'.
           rewrite decide_False by (unfold UPSERT_BATCH_SIZE in *; lia).
           split; [unfold UPSERT_BATCH_SIZE in *; lia|done].
      * exists [], i, (Err msg).
        assert (Hnil : forall A (l : list A), sliceNat l i i = []).
        { intros A l. unfold sliceNat. rewrite Nat.sub_diag. apply take_0. }
        rewrite app_nil_r, !Hnil. simpl.
        split; [done|]. split; [constructor|]. split; [done|]. split; [done|].
        split; [done|]. split; [done|]. right. split; [lia|]. by exists msg.
Qed.

(** X28: [upsertChunks] sends the chunks to the collection in consecutive
    requests of at most 50, each with ids, documents, metadata and
    embeddings of the same chunks; when all are accepted the requests
    together hold every chunk once, in order, and the count returned is
    the number of chunks. A rejected request stops the call with the
    earlier requests already in the collection. *)
Theorem upsertChunks_sends_runs_of_fifty :
  let (sent, result) := upsertChunks true upsert chunks embeddings in
  Forall (wellSized upsert chunks embeddings) sent
  /\ exists stop,
       concat (map rq_ids sent) = map doc_id (take stop chunks)
       /\ concat (map rq_documents sent) = map doc_content (take stop chunks)
       /\ concat (map rq_metadatas sent) = map doc_metadata (take stop chunks)
       /\ (length embeddings = length chunks ->
           concat (map rq_embeddings sent) = map (fmap embedding) (take stop embeddings))
       /\ ((result = Ok (length chunks) /\ stop = length chunks)
           \/ (stop < length chunks
               /\ exists msg, result = Err msg
                              /\ upsert (requestAt chunks embeddings stop) = Err msg)).
Proof.
  unfold upsertChunks. simpl negb. cbv iota.
  destruct (upsertLoop_spec (length chunks) 0 [])
    as (new & stop & result & Hrun & Hwell & Hids & Hdocs & Hmeta & Hemb & Hend);
    [unfold UPSERT_BATCH_SIZE; lia|].
  rewrite Hrun. simpl app.
  assert (Hslice : forall A (l : list A), sliceNat l 0 stop = take stop l).
  { intros A l. unfold sliceNat. by rewrite Nat.sub_0_r, drop_0. }
  rewrite !Hslice in *.
  destruct Hend as [[-> ->]|(Hs & msg & -> & Hrej)].
  - split; [done|]. exists (length chunks). rewrite Nat.max_0_l in *.
    split; [done|]. split; [done|]. split; [done|]. split; [done|]. by left.
  - split; [done|]. exists stop.
    split; [done|]. split; [done|]. split; [done|]. split; [done|].
    right. split; [lia|]. by exists msg.
Qed.

End Store.

End VectorStoreFacts.

Module IndexerAccounting.
Import ChunkIndexer Examples.

Section Indexer.
Variable getTime : string -> option Z.
Variable clock : nat -> string.
Variable findAll : outcome (list Session).
Variable findBySession : string -> outcome (list Message).
Variable upsertChunks : list ChunkDocument -> nat -> outcome nat.
Variable writeSucceeds : nat -> bool.
Variable unlinkSucceeds : bool.
Variable onProgress : option (nat -> nat -> string -> outcome unit).
Variable nowIso : nat -> string.
Variable batchSize : nat.
Variable concurrency : nat.
Variable freshStart : bool.

(** What one session adds to the counters. *)
Lemma indexOne_counts r session :
  let r' := indexOne getTime clock findBySession upsertChunks concurrency r session in
  totalSessions r' = totalSessions r
  /\ processedSessions r <= processedSessions r'
  /\ skippedSessions r <= skippedSessions r'
  /\ processedSessions r' + skippedSessions r'
     <= processedSessions r + skippedSessions r + 1
  /\ processedSessions r + skippedSessions r + errors r + 1
     <= processedSessions r' + skippedSessions r' + errors r'.
Proof.
  unfold indexOne.
  destruct (findBySession (s_id session)) as [[|m ms]|e]; simpl; try lia.
  destruct (ChunkManager.processSession getTime clock session (m :: ms)) as [|c cs];
    simpl; try lia.
  destruct (upsertChunks _ concurrency); simpl; lia.
Qed.

Lemma fold_indexOne_counts batch : forall r,
  let r' := fold_left (indexOne getTime clock findBySession upsertChunks concurrency)
                      batch r in
  totalSessions r' = totalSessions r
  /\ processedSessions r <= processedSessions r'
  /\ skippedSessions r <= skippedSessions r'
  /\ processedSessions r' + skippedSessions r'
     <= processedSessions r + skippedSessions r + length batch
  /\ processedSessions r + skippedSessions r + errors r + length batch
     <= processedSessions r' + skippedSessions r' + errors r'.
Proof.
  induction batch as [|session batch IH]; intros r; simpl; [lia|].
  pose proof (indexOne_counts r session) as H1. simpl in H1.
  specialize (IH (indexOne getTime clock findBySession upsertChunks concurrency r session)).
  simpl in IH. lia.
Qed.

Lemma batchLoop_counts fuel : forall allSessions i r file r' file',
  length allSessions - i <= fuel ->
  batchLoop getTime clock findBySession upsertChunks writeSucceeds onProgress
            nowIso batchSize concurrency fuel allSessions i r file = (Ok r', file') ->
  totalSessions r' = totalSessions r
  /\ processedSessions r <= processedSessions r'
  /\ processedSessions r' + skippedSessions r'
     <= processedSessions r + skippedSessions r + (length allSessions - i)
  /\ processedSessions r + skippedSessions r + errors r + (length allSessions - i)
     <= processedSessions r' + skippedSessions r' + errors r'
  /\ (i < length allSessions -> 1 <= batchSize).
Proof.
  induction fuel as [|fuel IH]; intros allSessions i r file r' file' Hfuel; simpl.
  - intros [= <- _]. lia.
  - destruct (length allSessions <=? i) eqn:Hle.
    { apply Nat.leb_le in Hle. intros [= <- _]. lia. }
    apply Nat.leb_gt in Hle.
    pose proof (fold_indexOne_counts (take batchSize (drop i allSessions)) r) as Hb.
    simpl in Hb. rewrite length_take, length_drop in Hb.
    destruct (List.last (map Some (take batchSize (drop i allSessions))) None)
      as [lastSession|] eqn:Hlast; [|done].
    assert (Hbs : 1 <= batchSize).
    { destruct batchSize; [|lia]. by rewrite take_0 in Hlast. }
    destruct (callProgress onProgress _ _ _); [|done].
    intros Hrun. apply IH in Hrun; [|lia]. lia.
Qed.

Lemma findIndex_bound id l : forall i idx,
  findIndex id i l = Some idx -> idx < i + length l.
Proof.
  induction l as [|s l IH]; intros i idx; simpl; [done|].
  destruct (JS.streq (s_id s) id).
  - intros [= <-]. lia.
  - intros H%IH. lia.
Qed.

Lemma resume_bound allSessions file :
  (resume freshStart allSessions file).1 <= length allSessions.
Proof.
  unfold resume. destruct (negb freshStart && existsSync file); simpl; [|lia].
  destruct file as [| |c]; simpl; try lia.
  destruct (lastProcessedSessionId c) as [id|]; simpl; [|lia].
  destruct (JS.truthy id); simpl; [|lia].
  destruct (findIndex id 0 allSessions) as [idx|] eqn:Hf; simpl; [|lia].
  apply findIndex_bound in Hf. lia.
Qed.

(** X29: a run of [indexAll] that returns has gone through every session
    after the resume point exactly once: each one was processed, skipped
    or counted among the errors, so the processed and skipped sessions
    of the run are at most the sessions left and, with the errors, at
    least that many. The checkpoint file is gone, and unless no session
    was left the batch size was at least one. *)
Theorem indexAll_accounts_for_every_session allSessions file elapsed r file' :
  findAll = Ok allSessions ->
  indexAll getTime clock findAll findBySession upsertChunks writeSucceeds
           unlinkSucceeds onProgress nowIso batchSize concurrency freshStart
           file elapsed = (Ok r, file') ->
  let start := (resume freshStart allSessions file).1 in
  let resumed := (resume freshStart allSessions file).2 in
  file' = NoFile
  /\ totalSessions r = length allSessions
  /\ duration r = elapsed
  /\ start <= length allSessions
  /\ resumed <= processedSessions r
  /\ (processedSessions r - resumed) + skippedSessions r <= length allSessions - start
  /\ length allSessions - start
     <= (processedSessions r - resumed) + skippedSessions r + errors r
  /\ (start < length allSessions -> 1 <= batchSize).
Proof.
  intros Hall. unfold indexAll. rewrite Hall.
  pose proof (resume_bound allSessions file) as Hstart.
  destruct (resume freshStart allSessions file) as [start resumed]. simpl in *.
  destruct (batchLoop _ _ _ _ _ _ _ _ _ _ _ _ _ _) as [[r1|e] file1] eqn:Hloop; [|done].
  apply batchLoop_counts in Hloop; [|lia]. simpl in Hloop.
  assert (Hfile : forall out : ChunkIndexingResult,
            (if existsSync file1
             then if unlinkSucceeds then (Ok out, NoFile) else (Err "EACCES: unlink", file1)
             else (Ok out, file1)) = (Ok r, file') ->
            out = r /\ file' = NoFile).
  { intros out. destruct file1; simpl; [by intros [= -> <-]| |];
      (destruct unlinkSucceeds; [by intros [= -> <-]|done]). }
  intros Hres. apply Hfile in Hres as [<- ->]. simpl.
  split; [done|]. lia.
Qed.

End Indexer.

Lemma indexAll_accounting_witness :
  exIndexAll alwaysWrites = (Ok (mkResult 2 2 0 2 0 42%Z), NoFile)
  /\ (2 - 0) + 0 <= length exSessions - 0.
Proof.
  split; [vm_compute; reflexivity|].
  pose proof (indexAll_accounts_for_every_session
                IsoDate.getTime (fun _ => "2025-01-03T00:00:00.000Z") (Ok exSessions)
                exFindBySession exUpsert alwaysWrites true None
                (fun _ => "2025-01-03T00:00:00.000Z") 1 10 false
                exSessions NoFile 42%Z (mkResult 2 2 0 2 0 42%Z) NoFile
                eq_refl eq_refl) as H.
  apply H.
Defined.

End IndexerAccounting.

Module ContextFacts.

Import ChunkManager ChunkIndexer ChunkContext StringFacts.

Lemma upserted_other col docs id :
  id ∉ map doc_id docs -> upserted col docs !! id = col !! id.
Proof.
  revert col; induction docs as [|d docs IH]; intros col Hid; simpl; [done|].
  apply not_elem_of_cons in Hid as [Hne Hid].
  change (upserted (<[doc_id d := (doc_content d, doc_metadata d)]> col) docs !! id
          = col !! id).
  rewrite IH by done. apply lookup_insert_ne. intros Heq. by apply Hne.
Qed.

Lemma upserted_lookup docs : forall col k d,
  NoDup (map doc_id docs) -> docs !! k = Some d ->
  upserted col docs !! doc_id d = Some (doc_content d, doc_metadata d).
Proof.
  induction docs as [|d0 docs IH]; intros col k d Hnd Hk; [done|].
  simpl in Hnd. apply NoDup_cons in Hnd as [Hfresh Hnd].
  destruct k as [|k]; simpl in Hk.
  - injection Hk as ->. unfold upserted. simpl.
    fold (upserted (<[doc_id d := (doc_content d, doc_metadata d)]> col) docs).
    rewrite upserted_other by done. apply lookup_insert_eq.
  - unfold upserted. simpl. by apply (IH _ k).
Qed.

Lemma getById_upserted docs col k d :
  NoDup (map doc_id docs) -> docs !! k = Some d ->
  getById (upserted col docs) (doc_id d) = Some (resultOf d).
Proof.
  intros Hnd Hk. unfold getById. by rewrite (upserted_lookup docs col k d).
Qed.

Section Chunks.
Variable getTime : string -> option Z.
Variable clock : nat -> string.
Variable session : Session.
Variable messages : list Message.

Lemma processSession_doc_ids :
  map doc_id (map chunkToDocument (processSession getTime clock session messages))
  = map (chunkIdOf session)
        (List.seq 1 (length (processSession getTime clock session messages))).
Proof.
  apply list_eq. intros k. rewrite !list_lookup_fmap.
  destruct (processSession getTime clock session messages !! k) as [c|] eqn:Hc; simpl.
  - rewrite (GroupFacts.processSession_ids getTime clock session messages k c Hc).
    rewrite lookup_seq_lt by (by eapply lookup_lt_Some). done.
  - apply lookup_ge_None in Hc. rewrite lookup_seq_ge by done. done.
Qed.

Lemma processSession_doc_ids_distinct :
  NoDup (map doc_id (map chunkToDocument (processSession getTime clock session messages))).
Proof.
  rewrite processSession_doc_ids.
  assert (Hinj : Inj (=) (=) (chunkIdOf session))
    by (intros a b; apply GroupFacts.chunkIdOf_inj).
  apply (NoDup_fmap_2 (chunkIdOf session)), NoDup_seq.
Qed.

(** X30: once the chunks of a conversation are in the collection,
    [getChunkWithContext] on the id of one of them returns that chunk
    with the chunk before it and the chunk after it in the conversation,
    and nothing where the conversation starts or ends. *)
Theorem getChunkWithContext_returns_neighbours col k c :
  processSession getTime clock session messages !! k = Some c ->
  getChunkWithContext
    (upserted col (map chunkToDocument (processSession getTime clock session messages)))
    (chunk_id c)
  = (Some (resultOf (chunkToDocument c)),
     match k with
     | 0 => None
     | S j => resultOf <$> (chunkToDocument
                              <$> processSession getTime clock session messages !! j)
     end,
     resultOf <$> (chunkToDocument
                     <$> processSession getTime clock session messages !! S k)).
Proof.
  intros Hc.
  set (chunks := processSession getTime clock session messages) in *.
  pose proof processSession_doc_ids_distinct as Hnd. fold chunks in Hnd.
  assert (Hget : forall i x, chunks !! i = Some x ->
            getById (upserted col (map chunkToDocument chunks)) (chunk_id x)
            = Some (resultOf (chunkToDocument x))).
  { intros i x Hx.
    apply (getById_upserted (map chunkToDocument chunks) col i (chunkToDocument x) Hnd).
    by rewrite list_lookup_fmap, Hx. }
  destruct (ChunkManagerFacts.processSession_linked _ _ _ _ _ _ Hc)
    as (_ & _ & Hprev & Hnext & _).
  fold chunks in Hnext.
  unfold getChunkWithContext. rewrite (Hget k c Hc). simpl.
  rewrite Hprev, Hnext. simpl. f_equal; [f_equal|].
  - destruct k as [|j]; simpl; [done|].
    assert (Hj : is_Some (chunks !! j)).
    { apply lookup_lt_is_Some. apply lookup_lt_Some in Hc. lia. }
    destruct Hj as [x Hx]. rewrite Hx. simpl.
    replace (Nat.leb 1 j) with (1 <=? j) by done.
    destruct j as [|j'].
    + simpl. rewrite <- (GroupFacts.processSession_ids getTime clock session messages 0 x Hx).
      apply (Hget 0 x Hx).
    + simpl.
      rewrite <- (GroupFacts.processSession_ids getTime clock session messages (S j') x Hx).
      apply (Hget (S j') x Hx).
  - destruct (chunks !! S k) as [y|] eqn:Hy; simpl.
    + rewrite bool_decide_eq_true_2 by (apply lookup_lt_Some in Hy; lia). simpl.
      replace (k + 2) with (S (S k)) by lia.
      rewrite <- (GroupFacts.processSession_ids getTime clock session messages (S k) y Hy).
      apply (Hget (S k) y Hy).
    + rewrite bool_decide_eq_false_2 by (apply lookup_ge_None in Hy; lia). done.
Qed.

End Chunks.

(** The first chunk of the example conversation: nothing before it. *)
Lemma getChunkWithContext_witness :
  exists c,
    processSession IsoDate.getTime Examples.exClockNoon Examples.exSession
                   Examples.exMessages !! 0 = Some c
    /\ getChunkWithContext
         (upserted ∅ (map chunkToDocument
                         (processSession IsoDate.getTime Examples.exClockNoon
                                         Examples.exSession Examples.exMessages)))
         (chunk_id c)
       = (Some (resultOf (chunkToDocument c)), None,
          resultOf <$> (chunkToDocument
                          <$> processSession IsoDate.getTime Examples.exClockNoon
                                             Examples.exSession Examples.exMessages !! 1)).
Proof.
  eexists. split; [vm_compute; reflexivity|].
  apply (getChunkWithContext_returns_neighbours IsoDate.getTime Examples.exClockNoon
           Examples.exSession Examples.exMessages ∅ 0).
  vm_compute. reflexivity.
Defined.

End ContextFacts.
